(** * PySDD: Graphviz export of SDD circuits and vtrees, and weighted model counting

    A shallow embedding of [pysdd/io.py] ([sdd_to_dot], [vtree_to_dot] and
    their helpers), of the weighted model counter that the test-suite calls
    and of the file comparison [file_contents_equal] of the test-suite,
    together with the properties the specification states about them and
    further properties that the code shows.

    Objects of the Python program are modelled as follows.
    - An [SddNode] value is the unfolding of the object graph below a node;
      the identity of a node is its [id] (the exporter's [visited] set holds
      nodes, which hash and compare by identity).  [consistent] says that equal
      ids denote the same node, which is what makes an unfolding a DAG.
    - The [visited] set is a [gset Z] threaded through the traversal.
    - [litnamemap] is an optional dictionary ([gmap]) from Python values to
      Python values.
    - Python exceptions are values of [pyerr] in the [result] type.  When an
      exception is raised the traversal-local state is lost with it.
    - A line of DOT output is a [stmt]; [render] gives the exact text of the
      line that the Python code builds. *)

From Stdlib Require Import QArith Qcanon Ascii.
From stdpp Require Import base gmap sets list strings pretty.

#[local] Set Warnings "-register-all,-clear-no-such-hyp".
Local Open Scope Z_scope.
Local Open Scope string_scope.

(** ** Python values, exceptions *)

Inductive pyval :=
| PInt (z : Z)
| PStr (s : string).

Global Instance pyval_eq_dec : EqDecision pyval.
Proof. solve_decision. Defined.

Global Instance pyval_countable : Countable pyval.
Proof.
  refine (inj_countable'
            (fun v => match v with PInt z => inl z | PStr s => inr s end)
            (fun x => match x with inl z => PInt z | inr s => PStr s end) _).
  by intros [].
Defined.

(** The text of a value in an f-string, [{v}]. *)
Definition py_format (v : pyval) : string :=
  match v with
  | PInt z => pretty z
  | PStr s => s
  end.

Inductive pyerr :=
| ValueError (msg : string)
| TypeError (msg : string)
| AttributeError (msg : string).

Inductive result (A : Type) :=
| Ok (a : A)
| Raise (e : pyerr).
Arguments Ok {A} a.
Arguments Raise {A} e.

Global Instance result_bind : MBind result := fun A B k r =>
  match r with
  | Ok a => k a
  | Raise e => Raise e
  end.

(** [litnamemap.get(name, name)] under the guard [litnamemap is not None]. *)
Definition litnamemap_get (litnamemap : option (gmap pyval pyval)) (name : pyval) : pyval :=
  match litnamemap with
  | Some m => default name (m !! name)
  | None => name
  end.

(** ** Vtrees and circuit nodes *)

(** Modelled from the spec: the class [Vtree] is defined in [pysdd.sdd], a
    compiled module that [pysdd/io.py] imports.  A vtree object answers [position()], [var()], [left()]
    and [right()]; the last two may be [None]. *)
Inductive Vtree :=
| VtreeNode (position : Z) (var : Z) (vleft vright : option Vtree).

Definition vtree_position (v : Vtree) : Z :=
  match v with VtreeNode p _ _ _ => p end.
Definition vtree_var (v : Vtree) : Z :=
  match v with VtreeNode _ x _ _ => x end.
Definition vtree_left (v : Vtree) : option Vtree :=
  match v with VtreeNode _ _ l _ => l end.
Definition vtree_right (v : Vtree) : option Vtree :=
  match v with VtreeNode _ _ _ r => r end.

(** Modelled from the spec: the class [SddNode] is defined in [pysdd.sdd], a
    compiled module that [pysdd/io.py] imports.  A circuit node has its [id], its [vtree()] (possibly
    [None]) and what the four predicates [is_false()], [is_true()],
    [is_literal()], [is_decision()] answer; a Literal node has its [literal],
    a Decision node its [elements()].  [SddOther] is a node on which all four
    predicates answer [False].  Nodes are deduplicated by identity, which is
    the integer id (section 3 of the specification). *)
Inductive SddNode :=
| SddFalse (id : Z) (vt : option Vtree)
| SddTrue (id : Z) (vt : option Vtree)
| SddLiteral (id : Z) (vt : option Vtree) (literal : Z)
| SddDecision (id : Z) (vt : option Vtree) (elements : list (SddNode * SddNode))
| SddOther (id : Z) (vt : option Vtree).

Definition node_id (n : SddNode) : Z :=
  match n with
  | SddFalse i _ | SddTrue i _ | SddLiteral i _ _ | SddDecision i _ _ | SddOther i _ => i
  end.

Definition node_vtree (n : SddNode) : option Vtree :=
  match n with
  | SddFalse _ v | SddTrue _ v | SddLiteral _ v _ | SddDecision _ v _ | SddOther _ v => v
  end.

Definition is_false (n : SddNode) : bool :=
  match n with SddFalse _ _ => true | _ => false end.
Definition is_true (n : SddNode) : bool :=
  match n with SddTrue _ _ => true | _ => false end.
Definition is_literal (n : SddNode) : bool :=
  match n with SddLiteral _ _ _ => true | _ => false end.
Definition is_decision (n : SddNode) : bool :=
  match n with SddDecision _ _ _ => true | _ => false end.

(** [node.literal]; this file reads it on literal nodes only. *)
Definition node_literal (n : SddNode) : Z :=
  match n with SddLiteral _ _ l => l | _ => 0 end.

Definition node_elements (n : SddNode) : list (SddNode * SddNode) :=
  match n with SddDecision _ _ els => els | _ => [] end.

(** ** DOT statements *)

Inductive stmt :=
| SddLeafDecl (id : Z) (label : string) (xlabel : option string)
| SddDecisionDecl (id : Z) (label : string) (xlabel : option string)
| ProductDecl (id : Z) (idx : nat)
| DecisionEdge (id : Z) (idx : nat)
| ElementEdge (id : Z) (idx : nat) (child : Z)
| VtreeStartDecl
| VtreeStartEdge (pos : Z)
| VtreeLeafDecl (pos : Z) (name : string)
| VtreePointDecl (pos : Z) (show_id : bool)
| VtreeEdge (pos child : Z) (headlabel : option string).

Definition dq : string := String (Ascii.ascii_of_nat 34) EmptyString.
Definition nl : string := String (Ascii.ascii_of_nat 10) EmptyString.

(** The name of a product node: [ps_], the node id, [_], the element index. *)
Definition ps_id (id : Z) (idx : nat) : string :=
  "ps_" +:+ pretty id +:+ "_" +:+ pretty idx.

(** [extra_options]: the quoted [xlabel] attribute when [show_id], else the
    empty string. *)
Definition render_xlabel (xlabel : option string) : string :=
  match xlabel with
  | Some x => ",xlabel=" +:+ dq +:+ x +:+ dq
  | None => ""
  end.

Definition render_headlabel (headlabel : option string) : string :=
  match headlabel with
  | Some h => ",headclip=true,headlabel=" +:+ dq +:+ h +:+ dq
  | None => ""
  end.

Definition render (s : stmt) : string :=
  match s with
  | SddLeafDecl id label xl =>
      pretty id +:+ " [shape=rectangle,label=" +:+ dq +:+ label +:+ dq
        +:+ render_xlabel xl +:+ "];"
  | SddDecisionDecl id label xl =>
      pretty id +:+ " [shape=circle,label=" +:+ dq +:+ label +:+ dq
        +:+ render_xlabel xl +:+ "];"
  | ProductDecl id idx =>
      ps_id id idx +:+ " [shape=circle, label=" +:+ dq +:+ "×" +:+ dq +:+ "];"
  | DecisionEdge id idx =>
      pretty id +:+ " -> " +:+ ps_id id idx +:+ " [arrowhead=none];"
  | ElementEdge id idx child =>
      ps_id id idx +:+ " -> " +:+ pretty child +:+ ";"
  | VtreeStartDecl => "start [shape=plaintext,style=invis];"
  | VtreeStartEdge pos =>
      "start -> " +:+ pretty pos +:+ " [penwidth=0,arrowhead=none,headlabel="
        +:+ dq +:+ pretty pos +:+ dq +:+ "];"
  | VtreeLeafDecl pos name =>
      pretty pos +:+ " [label=" +:+ dq +:+ name +:+ dq +:+ ",shape="
        +:+ dq +:+ "box" +:+ dq +:+ "];"
  | VtreePointDecl pos true =>
      pretty pos +:+ " [label=" +:+ dq +:+ pretty pos +:+ dq +:+ ",shape="
        +:+ dq +:+ "point" +:+ dq +:+ "];"
  | VtreePointDecl pos false =>
      pretty pos +:+ " [shape=" +:+ dq +:+ "point" +:+ dq +:+ "];"
  | VtreeEdge pos child hl =>
      pretty pos +:+ " -> " +:+ pretty child +:+ " [arrowhead=none"
        +:+ render_headlabel hl +:+ "];"
  end.

(** Joining the lines with a newline between them. *)
Definition join_lines (s : list string) : string := String.concat nl s.

(** ** [pysdd/io.py], circuits *)

Definition _format_sddnode_label (node : SddNode) (name : option pyval)
    (litnamemap : option (gmap pyval pyval)) (show_id : bool) : string :=
  let name :=
    match name with
    | Some name => name
    | None =>
        if is_true node then PStr "⟙"
        else if is_false node then PStr "⟘"
        else PInt (node_literal node)
    end in
  py_format (litnamemap_get litnamemap name).

Definition _format_sddnode_xlabel (node : SddNode) : string :=
  let vtree_pos :=
    match node_vtree node with
    | Some v => pretty (vtree_position v)
    | None => "n"
    end in
  "Id:" +:+ pretty (node_id node) +:+ "\n" +:+ "Vp:" +:+ vtree_pos.

Definition sdd_xlabel (show_id : bool) (node : SddNode) : option string :=
  if show_id then Some (_format_sddnode_xlabel node) else None.

(** [s += x]: extending a list by [None] raises. *)
Definition extend_by (x : option (list stmt)) : result (list stmt) :=
  match x with
  | Some l => Ok l
  | None => Raise (TypeError "'NoneType' object is not iterable")
  end.

(** The loop [for idx, (prime, sub) in enumerate(node.elements())] of
    [_sddnode_to_dot_int]; [rec] is the recursive call and the result is what
    the loop appends to [s]. *)
Fixpoint sdd_elements_to_dot
    (rec : SddNode -> gset Z -> result (option (list stmt) * gset Z))
    (id : Z) (els : list (SddNode * SddNode)) (idx : nat) (visited : gset Z)
    : result (list stmt * gset Z) :=
  match els with
  | [] => Ok ([], visited)
  | (prime, sub) :: rest =>
      let s := [ ProductDecl id idx;
                 DecisionEdge id idx;
                 ElementEdge id idx (node_id prime);
                 ElementEdge id idx (node_id sub) ] in
      '(rp, visited) ← rec prime visited;
      'sp ← extend_by rp;
      '(rs, visited) ← rec sub visited;
      'ss ← extend_by rs;
      '(sr, visited) ← sdd_elements_to_dot rec id rest (S idx) visited;
      Ok ((s ++ sp ++ ss ++ sr)%list, visited)
  end.

Fixpoint _sddnode_to_dot_int (litnamemap : option (gmap pyval pyval)) (show_id : bool)
    (node : SddNode) (visited : gset Z) {struct node}
    : result (option (list stmt) * gset Z) :=
  if decide (node_id node ∈ visited) then Ok (Some [], visited)
  else
    let visited := {[node_id node]} ∪ visited in
    match node with
    | SddFalse _ _ | SddTrue _ _ | SddLiteral _ _ _ =>
        let label := _format_sddnode_label node None litnamemap show_id in
        Ok (Some [SddLeafDecl (node_id node) label (sdd_xlabel show_id node)], visited)
    | SddDecision _ _ els =>
        let label := _format_sddnode_label node (Some (PStr "+")) litnamemap show_id in
        let s := [SddDecisionDecl (node_id node) label (sdd_xlabel show_id node)] in
        '(se, visited) ←
          sdd_elements_to_dot (_sddnode_to_dot_int litnamemap show_id)
            (node_id node) els 0 visited;
        Ok (Some (s ++ se)%list, visited)
    | SddOther _ _ => Ok (None, visited)
    end.

(** The document of [digraph name { ... }]: header, one line per statement,
    closing brace, joined by newlines. *)
Definition dot_document (header : string) (s : list stmt) : string :=
  join_lines ([header] ++ map render s ++ ["}"])%list.

(** The statements [sdd_to_dot] puts between the header and the closing brace. *)
Definition sdd_to_dot_stmts (node : option SddNode) (litnamemap : option (gmap pyval pyval))
    (show_id : bool) : result (list stmt) :=
  match node with
  | None => Raise (ValueError "No root node given")
  | Some node =>
      '(r, _) ← _sddnode_to_dot_int litnamemap show_id node ∅;
      extend_by r
  end.

Definition sdd_to_dot (node : option SddNode) (litnamemap : option (gmap pyval pyval))
    (show_id : bool) : result string :=
  's ← sdd_to_dot_stmts node litnamemap show_id;
  Ok (dot_document "digraph sdd {" s).

(** ** [pysdd/io.py], vtrees *)

Fixpoint _vtree_to_dot_int (litnamemap : option (gmap pyval pyval)) (show_id : bool)
    (vtree : Vtree) {struct vtree} : list stmt :=
  match vtree with
  | VtreeNode position var vleft vright =>
      let s1 :=
        match vleft, vright with
        | None, None =>
            let name := litnamemap_get litnamemap (PInt var) in
            [VtreeLeafDecl position (py_format name)]
        | _, _ => [VtreePointDecl position show_id]
        end in
      let s2 :=
        match vleft with
        | Some vl =>
            let extra_options :=
              if show_id then Some (pretty (vtree_position vl)) else None in
            (VtreeEdge position (vtree_position vl) extra_options
              :: _vtree_to_dot_int litnamemap show_id vl)%list
        | None => []
        end in
      let s3 :=
        match vright with
        | Some vr =>
            let extra_options :=
              if show_id then Some ("     " +:+ pretty (vtree_position vr)) else None in
            (VtreeEdge position (vtree_position vr) extra_options
              :: _vtree_to_dot_int litnamemap show_id vr)%list
        | None => []
        end in
      (s1 ++ s2 ++ s3)%list
  end.

(** [vtree_to_dot] has no guard on its argument: on [None] the first method
    call raises [AttributeError]. *)
Definition vtree_to_dot_stmts (vtree : option Vtree) (litnamemap : option (gmap pyval pyval))
    (show_id : bool) : result (list stmt) :=
  's1 ←
    (if show_id then
       match vtree with
       | Some v => Ok [VtreeStartDecl; VtreeStartEdge (vtree_position v)]
       | None => Raise (AttributeError "'NoneType' object has no attribute 'position'")
       end
     else Ok []);
  's2 ←
    match vtree with
    | Some v => Ok (_vtree_to_dot_int litnamemap show_id v)
    | None => Raise (AttributeError "'NoneType' object has no attribute 'left'")
    end;
  Ok (s1 ++ s2)%list.

Definition vtree_to_dot (vtree : option Vtree) (litnamemap : option (gmap pyval pyval))
    (show_id : bool) : result string :=
  's ← vtree_to_dot_stmts vtree litnamemap show_id;
  Ok (dot_document "digraph vtree {" s).

(** ** Reading a DOT statement: the node it declares, the edge it draws *)

Inductive dot_name :=
| NId (id : Z)
| NPs (id : Z) (idx : nat)
| NStart.

Global Instance dot_name_eq_dec : EqDecision dot_name.
Proof. solve_decision. Defined.

Definition declared (s : stmt) : option dot_name :=
  match s with
  | SddLeafDecl id _ _ | SddDecisionDecl id _ _ => Some (NId id)
  | ProductDecl id idx => Some (NPs id idx)
  | VtreeStartDecl => Some NStart
  | VtreeLeafDecl pos _ | VtreePointDecl pos _ => Some (NId pos)
  | DecisionEdge _ _ | ElementEdge _ _ _ | VtreeStartEdge _ | VtreeEdge _ _ _ => None
  end.

Definition edge_of (s : stmt) : option (dot_name * dot_name) :=
  match s with
  | DecisionEdge id idx => Some (NId id, NPs id idx)
  | ElementEdge id idx child => Some (NPs id idx, NId child)
  | VtreeStartEdge pos => Some (NStart, NId pos)
  | VtreeEdge pos child _ => Some (NId pos, NId child)
  | _ => None
  end.

(** The statement without what [show_id] adds to it. *)
Definition erase_identity (s : stmt) : stmt :=
  match s with
  | SddLeafDecl id label _ => SddLeafDecl id label None
  | SddDecisionDecl id label _ => SddDecisionDecl id label None
  | VtreePointDecl pos _ => VtreePointDecl pos false
  | VtreeEdge pos child _ => VtreeEdge pos child None
  | _ => s
  end.

(** The circuit node a name belongs to. *)
Definition owner (nm : dot_name) : option Z :=
  match nm with
  | NId id | NPs id _ => Some id
  | NStart => None
  end.

(** ** The nodes below a node *)

Fixpoint node_size (n : SddNode) : nat :=
  match n with
  | SddDecision _ _ els =>
      S (list_sum (map (fun '(p, s) => (node_size p + node_size s)%nat) els))
  | _ => 1%nat
  end.

Fixpoint nodes (n : SddNode) : list SddNode :=
  n :: match n with
       | SddDecision _ _ els => flat_map (fun '(p, s) => (nodes p ++ nodes s)%list) els
       | _ => []
       end.

Definition node_ids (n : SddNode) : gset Z := list_to_set (node_id <$> nodes n).

(** Equal ids denote the same node. *)
Definition consistent (root : SddNode) : Prop :=
  forall n m, n ∈ nodes root -> m ∈ nodes root -> node_id n = node_id m -> n = m.

Definition is_variant (n : SddNode) : bool :=
  is_false n || is_true n || is_literal n || is_decision n.

Definition all_variants (root : SddNode) : Prop :=
  forall n, n ∈ nodes root -> is_variant n = true.

(** What a node contributes itself when the exporter expands it. *)
Definition element_stmts (id : Z) (idx : nat) (e : SddNode * SddNode) : list stmt :=
  [ ProductDecl id idx;
    DecisionEdge id idx;
    ElementEdge id idx (node_id e.1);
    ElementEdge id idx (node_id e.2) ].

Definition own_stmts (litnamemap : option (gmap pyval pyval)) (show_id : bool)
    (n : SddNode) : list stmt :=
  match n with
  | SddFalse _ _ | SddTrue _ _ | SddLiteral _ _ _ =>
      [SddLeafDecl (node_id n) (_format_sddnode_label n None litnamemap show_id)
         (sdd_xlabel show_id n)]
  | SddDecision _ _ els =>
      SddDecisionDecl (node_id n)
        (_format_sddnode_label n (Some (PStr "+")) litnamemap show_id)
        (sdd_xlabel show_id n)
      :: mjoin (imap (element_stmts (node_id n)) els)
  | SddOther _ _ => []
  end.

(** ** Vtrees: subtrees and own statements *)

Fixpoint vnodes (v : Vtree) : list Vtree :=
  match v with
  | VtreeNode _ _ vl vr =>
      (v :: match vl with Some l => vnodes l | None => [] end
         ++ match vr with Some r => vnodes r | None => [] end)%list
  end.

Definition vtree_is_leaf (v : Vtree) : bool :=
  match vtree_left v, vtree_right v with
  | None, None => true
  | _, _ => false
  end.

(** What [_vtree_to_dot_int] emits for a node itself. *)
Definition vtree_own_decl (litnamemap : option (gmap pyval pyval)) (show_id : bool)
    (v : Vtree) : stmt :=
  if vtree_is_leaf v
  then VtreeLeafDecl (vtree_position v)
         (py_format (litnamemap_get litnamemap (PInt (vtree_var v))))
  else VtreePointDecl (vtree_position v) show_id.

Definition vtree_left_edge (show_id : bool) (v l : Vtree) : stmt :=
  VtreeEdge (vtree_position v) (vtree_position l)
    (if show_id then Some (pretty (vtree_position l)) else None).

Definition vtree_right_edge (show_id : bool) (v r : Vtree) : stmt :=
  VtreeEdge (vtree_position v) (vtree_position r)
    (if show_id then Some ("     " +:+ pretty (vtree_position r)) else None).

(** ** Outcomes of the exporter *)

Definition NoneType_not_iterable : pyerr :=
  TypeError "'NoneType' object is not iterable".

Definition same_outcome {A} (R : A -> A -> Prop) (r1 r2 : result A) : Prop :=
  match r1, r2 with
  | Ok a, Ok b => R a b
  | Raise e1, Raise e2 => e1 = e2
  | _, _ => False
  end.

Definition same_up_to_identity (s1 s2 : list stmt) : Prop :=
  map erase_identity s1 = map erase_identity s2.

(** ** Invariants of the circuit traversal *)

Definition fresh_decls (V V' : gset Z) (s : list stmt) : Prop :=
  NoDup (omap declared s) /\
  forall nm, nm ∈ omap declared s -> exists i, owner nm = Some i /\ (i ∉ V) /\ i ∈ V'.

Definition visit_fresh (litnamemap : option (gmap pyval pyval)) (show_id : bool)
    (n : SddNode) : Prop :=
  forall V r V', _sddnode_to_dot_int litnamemap show_id n V = Ok (r, V') ->
    V ⊆ V' /\ node_id n ∈ V' /\ forall s, r = Some s -> fresh_decls V V' s.

(** Every visited node is either on the current path [P] or done with all
    the nodes below it. *)
Definition closed_upto (root : SddNode)
    (V P : gset Z) : Prop :=
  forall m, m ∈ nodes root -> node_id m ∈ V -> node_id m ∈ P \/ node_ids m ⊆ V.

Definition emits_new (litnamemap : option (gmap pyval pyval)) (show_id : bool) (root : SddNode)
    (V V' : gset Z) (s : list stmt) : Prop :=
  forall m, m ∈ nodes root -> node_id m ∈ V' -> node_id m ∉ V ->
    own_stmts litnamemap show_id m ⊆ s /\ is_variant m = true.

Definition visit_complete (litnamemap : option (gmap pyval pyval)) (show_id : bool) (root : SddNode)
    (n : SddNode) : Prop :=
  forall V P s V',
    _sddnode_to_dot_int litnamemap show_id n V = Ok (Some s, V') ->
    n ∈ nodes root ->
    closed_upto root V P ->
    (forall i, i ∈ P -> i ∉ node_ids n) ->
    closed_upto root V' P /\ node_ids n ⊆ V' /\ emits_new litnamemap show_id root V V' s.

(** Every statement of the output is one of the own statements of a node
    below the start node. *)
Definition visit_sound (litnamemap : option (gmap pyval pyval)) (show_id : bool)
    (n : SddNode) : Prop :=
  forall V s V', _sddnode_to_dot_int litnamemap show_id n V = Ok (Some s, V') ->
    forall st, st ∈ s -> exists m, m ∈ nodes n /\ st ∈ own_stmts litnamemap show_id m.

Definition visit_same (litnamemap : option (gmap pyval pyval))
    (n : SddNode) : Prop :=
  forall V,
    same_outcome
      (fun a b => a.2 = b.2 /\ (map erase_identity <$> a.1) = (map erase_identity <$> b.1))
      (_sddnode_to_dot_int litnamemap true n V)
      (_sddnode_to_dot_int litnamemap false n V).

(** ** Further readings of circuits, vtrees and statements *)

(** The text of a DOT identifier. *)
Definition name_text (nm : dot_name) : string :=
  match nm with
  | NId id => pretty id
  | NPs id idx => ps_id id idx
  | NStart => "start"
  end.

(** The preliminary name of a node, the key that [_format_sddnode_label]
    looks up in [litnamemap]. *)
Definition label_key (n : SddNode) : option pyval :=
  match n with
  | SddTrue _ _ => Some (PStr "⟙")
  | SddFalse _ _ => Some (PStr "⟘")
  | SddLiteral _ _ l => Some (PInt l)
  | SddDecision _ _ _ => Some (PStr "+")
  | SddOther _ _ => None
  end.

Definition label_keys (root : SddNode) : list pyval := omap label_key (nodes root).

(** The declaration of a node: a rectangle for a constant or a literal, a
    circle for a Decision node. *)
Definition node_decl (litnamemap : option (gmap pyval pyval)) (show_id : bool)
    (n : SddNode) : option stmt :=
  head (own_stmts litnamemap show_id n).

(** The keys that [_vtree_to_dot_int] looks up: the variables of the leaves. *)
Definition vtree_label_keys (v : Vtree) : list pyval :=
  omap (fun t => if vtree_is_leaf t then Some (PInt (vtree_var t)) else None) (vnodes v).

(** The links of a vtree node to its children. *)
Definition vtree_children (t : Vtree) : list Vtree :=
  (option_list (vtree_left t) ++ option_list (vtree_right t))%list.

(** The characters of a text. *)
Fixpoint all_chars (P : ascii -> bool) (s : string) : bool :=
  match s with
  | EmptyString => true
  | String c s => P c && all_chars P s
  end.

Definition digit_or_dash (c : ascii) : bool :=
  bool_decide (c ∈ ["0"; "1"; "2"; "3"; "4"; "5"; "6"; "7"; "8"; "9"; "-"]%char).

(** ** [tests/test_nnf.py]: comparing the contents of two files *)

(** A text is the list of its code points.  [is_whitespace] is the set of
    characters that [str.strip()] removes. *)
Definition is_whitespace (c : N) : bool :=
  ((9 <=? c) && (c <=? 13) || (28 <=? c) && (c <=? 32)
   || (c =? 133) || (c =? 160) || (c =? 5760)
   || (8192 <=? c) && (c <=? 8202)
   || (c =? 8232) || (c =? 8233) || (c =? 8239) || (c =? 8287) || (c =? 12288))%N.

Fixpoint drop_whitespace (l : list N) : list N :=
  match l with
  | [] => []
  | c :: l' => if is_whitespace c then drop_whitespace l' else l
  end.

(** [l.strip()] *)
Definition py_strip (l : list N) : list N :=
  rev (drop_whitespace (rev (drop_whitespace l))).

(** What a file opened in text mode delivers: the line ends CR LF and CR are
    read as LF. *)
Fixpoint universal_newlines (t : list N) : list N :=
  match t with
  | [] => []
  | c :: t' =>
      if (c =? 13)%N then
        10%N :: match t' with
                | c' :: t'' =>
                    if (c' =? 10)%N then universal_newlines t'' else universal_newlines t'
                | [] => []
                end
      else c :: universal_newlines t'
  end.

(** [f.readlines()] on the delivered text: the lines, each with its LF, the
    last one without when the text does not end in LF. *)
Fixpoint readlines (t : list N) : list (list N) :=
  match t with
  | [] => []
  | c :: t' =>
      if (c =? 10)%N then [c] :: readlines t'
      else match readlines t' with
           | [] => [[c]]
           | l :: ls => (c :: l) :: ls
           end
  end.

(** [file_contents_equal(path1, path2)]; [fs] gives the text of a file, or
    nothing when opening or reading it raises. *)
Definition file_contents_equal (fs : string -> option (list N)) (path1 path2 : string)
    : option bool :=
  t1 ← fs path1;
  let lines1 := py_strip <$> readlines (universal_newlines t1) in
  t2 ← fs path2;
  let lines2 := py_strip <$> readlines (universal_newlines t2) in
  Some (bool_decide (lines1 = lines2)).

(** The text whose lines are [ls], each ended by LF. *)
Definition text_of_lines (ls : list (list N)) : list N :=
  mjoin ((fun l => l ++ [10%N])%list <$> ls).

(** The same text with every LF written as CR LF, and as CR. *)
Fixpoint with_crlf (t : list N) : list N :=
  match t with
  | [] => []
  | c :: t' => if (c =? 10)%N then 13%N :: 10%N :: with_crlf t' else c :: with_crlf t'
  end.
Definition with_cr (t : list N) : list N :=
  (fun c => if (c =? 10)%N then 13%N else c) <$> t.

(** A line has neither LF nor CR in it. *)
Definition is_line (l : list N) : Prop := (10%N ∉ l) /\ (13%N ∉ l).

(** A file system with the two files [a] and [b]. *)
Definition two_files (a b : list N) (path : string) : option (list N) :=
  if decide (path = "a") then Some a
  else if decide (path = "b") then Some b
  else None.

Local Open Scope Qc_scope.

(** * Weighted model counting *)

(** Modelled from the spec: the weighted model counter.  The functions that
    the test-suite calls ([nnf_file_wmc] and [sdd_file_wmc]) are defined in
    [pysdd.util], which is outside [pysdd/io.py] and the tests, so
    [weighted_model_count] follows sections 4.1, 4.2 and 7 of the
    specification: a strict postorder evaluation that is memoized by node
    identity, fails with [MissingWeight] at the first literal without an
    entry in [weights], and fails with [MalformedCircuit] when a node
    reappears on the current path or is none of the four variants.  Weights
    are real numbers in the specification and rationals here. *)
Inductive wmc_error :=
| MissingWeight
| MalformedCircuit.

Inductive wmc_result (A : Type) :=
| Counted (a : A)
| Failed (e : wmc_error).
Arguments Counted {A} a.
Arguments Failed {A} e.

Global Instance wmc_result_bind : MBind wmc_result := fun A B k r =>
  match r with
  | Counted a => k a
  | Failed e => Failed e
  end.

(** Modelled from the spec: the sum over the elements of a Decision node,
    [value(prime_i) * value(sub_i)], each operand being evaluated by [rec]. *)
Fixpoint wmc_elements
    (rec : SddNode -> gmap Z Qc -> wmc_result (Qc * gmap Z Qc))
    (els : list (SddNode * SddNode)) (memo : gmap Z Qc)
    : wmc_result (Qc * gmap Z Qc) :=
  match els with
  | [] => Counted (0, memo)
  | (prime, sub) :: rest =>
      '(vp, memo) ← rec prime memo;
      '(vs, memo) ← rec sub memo;
      '(vr, memo) ← wmc_elements rec rest memo;
      Counted (vp * vs + vr, memo)
  end.

(** Modelled from the spec: the memoized visit of one node.  [path] holds the
    ids of the nodes whose visit is in progress, [memo] the values of the
    nodes whose visit is complete. *)
Fixpoint wmc_visit (weights : gmap Z Qc) (path : gset Z) (node : SddNode)
    (memo : gmap Z Qc) {struct node} : wmc_result (Qc * gmap Z Qc) :=
  if decide (node_id node ∈ path) then Failed MalformedCircuit
  else
    match memo !! node_id node with
    | Some v => Counted (v, memo)
    | None =>
        '(v, memo) ←
          match node with
          | SddFalse _ _ => Counted (0, memo)
          | SddTrue _ _ => Counted (1, memo)
          | SddLiteral _ _ l =>
              match weights !! l with
              | Some w => Counted (w, memo)
              | None => Failed MissingWeight
              end
          | SddDecision _ _ els =>
              wmc_elements (wmc_visit weights ({[node_id node]} ∪ path)) els memo
          | SddOther _ _ => Failed MalformedCircuit
          end;
        Counted (v, <[node_id node := v]> memo)
    end.

(** Modelled from the spec: [weighted_model_count(root, weights)]. *)
Definition weighted_model_count (root : SddNode) (weights : gmap Z Qc) : wmc_result Qc :=
  '(v, _) ← wmc_visit weights ∅ root ∅;
  Counted v.

(** ** The recursive equations and the standard weighted model count *)

Definition Qcsum (l : list Qc) : Qc := foldr Qcplus 0 l.
Definition Qcprod (l : list Qc) : Qc := foldr Qcmult 1 l.

(** [weights[l]]; the default is not used when the assignment is complete. *)
Definition weight_of (weights : gmap Z Qc) (l : Z) : Qc := default 0 (weights !! l).

(** The equations of section 4.2. *)
Fixpoint value (weights : gmap Z Qc) (n : SddNode) : Qc :=
  match n with
  | SddFalse _ _ => 0
  | SddTrue _ _ => 1
  | SddLiteral _ _ l => weight_of weights l
  | SddDecision _ _ els =>
      Qcsum (map (fun '(p, s) => value weights p * value weights s) els)
  | SddOther _ _ => 0
  end.

(** The literals of the Literal nodes below a node. *)
Definition literals (n : SddNode) : list Z :=
  omap (fun m => match m with SddLiteral _ _ l => Some l | _ => None end) (nodes n).

Definition complete_for (weights : gmap Z Qc) (n : SddNode) : Prop :=
  forall l, l ∈ literals n -> is_Some (weights !! l).

(** The variable of a literal, and the variables below a node. *)
Definition lit_var (l : Z) : positive :=
  match l with
  | Zpos p | Zneg p => p
  | Z0 => 1%positive
  end.

Definition vars (n : SddNode) : gset positive := list_to_set (lit_var <$> literals n).

(** An assignment is the list of the literals it makes true, one for each
    variable.  [assignments vs] lists the assignments of the variables [vs]. *)
Fixpoint assignments (vs : list positive) : list (list Z) :=
  match vs with
  | [] => [[]]
  | v :: vs => ((cons (Zpos v) <$> assignments vs) ++ (cons (Zneg v) <$> assignments vs))%list
  end.

(** The Boolean function of a node: a Decision node is the disjunction over
    its elements of prime and sub. *)
Fixpoint eval (n : SddNode) (a : list Z) : bool :=
  match n with
  | SddFalse _ _ => false
  | SddTrue _ _ => true
  | SddLiteral _ _ l => bool_decide (l ∈ a)
  | SddDecision _ _ els => existsb (fun '(p, s) => eval p a && eval s a) els
  | SddOther _ _ => false
  end.

(** The product of the weights of the literals an assignment chooses. *)
Definition assignment_weight (weights : gmap Z Qc) (a : list Z) : Qc :=
  Qcprod (weight_of weights <$> a).

(** The standard weighted model count of [n] over the variables [vs]: the sum,
    over the assignments of [vs] that satisfy [n], of the product of the
    weights of the chosen literals. *)
Definition standard_wmc (weights : gmap Z Qc) (n : SddNode) (vs : list positive) : Qc :=
  Qcsum (assignment_weight weights <$> filter (fun a => eval n a = true) (assignments vs)).

(** ** Well-formedness of circuits for counting *)

Definition eval_element (e : SddNode * SddNode) (a : list Z) : bool :=
  eval e.1 a && eval e.2 a.

(** No Literal node carries the literal 0. *)
Definition literals_nonzero (root : SddNode) : Prop :=
  Forall (fun l => l ≠ 0%Z) (literals root).

(** Prime and sub of an element mention different variables. *)
Definition decomposable (root : SddNode) : Prop :=
  Forall (fun d => Forall (fun e => vars e.1 ## vars e.2) (node_elements d)) (nodes root).

(** An assignment of the variables of a Decision node satisfies at most one
    of its elements. *)
Definition deterministic (root : SddNode) : Prop :=
  Forall (fun d =>
    Forall (fun a =>
      (length (filter (fun e => eval_element e a = true) (node_elements d)) <= 1)%nat)
      (assignments (elements (vars d))))
    (nodes root).

(** The primes of a Decision node are exhaustive: every assignment of the
    node's variables satisfies one of them. *)
Definition primes_exhaustive (root : SddNode) : Prop :=
  Forall (fun d =>
    is_decision d = true ->
    Forall (fun a => Exists (fun e => eval e.1 a = true) (node_elements d))
      (assignments (elements (vars d))))
    (nodes root).

(** Well-formed as the specification has it (consistent identities, the four
    variants, in every Decision node elements that are pairwise exclusive and
    collectively exhaustive), and decomposable with proper literals. *)
Definition well_formed (root : SddNode) : Prop :=
  consistent root /\ all_variants root /\ literals_nonzero root /\
  decomposable root /\ deterministic root /\ primes_exhaustive root.

(** Every element of a Decision node mentions all the node's variables. *)
Definition smooth (root : SddNode) : Prop :=
  Forall (fun d => Forall (fun e => vars e.1 ∪ vars e.2 = vars d) (node_elements d))
    (nodes root).

(** The weaker condition that counting needs: a variable of a Decision node
    that an element does not mention has weights that sum to 1. *)
Definition gaps_normalized (weights : gmap Z Qc) (root : SddNode) : Prop :=
  Forall (fun d =>
    Forall (fun e =>
      Forall (fun v => weight_of weights (Zpos v) + weight_of weights (Zneg v) = 1)
        (elements (vars d ∖ (vars e.1 ∪ vars e.2))))
      (node_elements d))
    (nodes root).

(** ** Sums over assignments *)

Definition assignment_sum (vs : list positive) (g : list Z -> Qc) : Qc :=
  Qcsum (g <$> assignments vs).

(** The weight an assignment contributes to the count of [n]. *)
Definition model_weight (weights : gmap Z Qc) (n : SddNode) (a : list Z) : Qc :=
  if eval n a then assignment_weight weights a else 0.

Definition element_weight (weights : gmap Z Qc) (e : SddNode * SddNode) (a : list Z) : Qc :=
  if eval_element e a then assignment_weight weights a else 0.

(** ** Invariants of the memoized evaluation *)

(** The memo table holds the values of the equations. *)
Definition memo_ok (weights : gmap Z Qc) (root : SddNode)
    (memo : gmap Z Qc) : Prop :=
  forall m v, m ∈ nodes root -> memo !! node_id m = Some v -> v = value weights m.

Definition wmc_visit_correct (weights : gmap Z Qc) (root : SddNode)
    (n : SddNode) : Prop :=
  forall path memo,
    n ∈ nodes root -> all_variants n -> complete_for weights n ->
    (forall i, i ∈ path -> i ∉ node_ids n) ->
    memo_ok weights root memo ->
    exists memo',
      wmc_visit weights path n memo = Counted (value weights n, memo') /\ memo_ok weights root memo'.

(** A successful _sddnode_to_dot_int litnamemap show_id found a weight for every literal below the node. *)
Definition memo_complete (weights : gmap Z Qc) (root : SddNode)
    (memo : gmap Z Qc) : Prop :=
  forall m, m ∈ nodes root -> is_Some (memo !! node_id m) -> complete_for weights m.

Definition wmc_visit_needs_weights (weights : gmap Z Qc) (root : SddNode)
    (n : SddNode) : Prop :=
  forall path memo v memo',
    wmc_visit weights path n memo = Counted (v, memo') ->
    n ∈ nodes root -> memo_complete weights root memo ->
    complete_for weights n /\ memo_complete weights root memo'.

(** On a consistent circuit of the four variants no _sddnode_to_dot_int litnamemap show_id fails with
    [MalformedCircuit]. *)
Definition wmc_visit_not_malformed (weights : gmap Z Qc) (root : SddNode)
    (n : SddNode) : Prop :=
  forall path memo,
    n ∈ nodes root -> all_variants n ->
    (forall i, i ∈ path -> i ∉ node_ids n) ->
    wmc_visit weights path n memo ≠ Failed MalformedCircuit.

Definition counts_models (weights : gmap Z Qc) (root : SddNode)
    (n : SddNode) : Prop :=
  n ∈ nodes root ->
  value weights n = assignment_sum (elements (vars n)) (model_weight weights n).

(** ** Example inputs *)

(** A circuit whose literal node 3 is the sub of both elements of the root. *)
Definition ex_shared : SddNode := SddLiteral 3 None 2.
Definition ex_root : SddNode :=
  SddDecision 7 None
    [ (SddLiteral 1 None 1, ex_shared); (SddLiteral 2 None (-1), ex_shared) ].

Definition ex_vtree : Vtree :=
  VtreeNode 1 0 (Some (VtreeNode 0 1 None None)) (Some (VtreeNode 2 2 None None)).

Definition ex_broken : SddNode :=
  SddDecision 7 None [ (SddLiteral 1 None 1, SddOther 4 None) ].

(** A circuit with a literal, a True node, a False node and a Decision node
    below its root. *)
Definition ex_labelled : SddNode :=
  SddDecision 5 None
    [ (SddLiteral 1 None (-1), SddTrue 0 None);
      (SddLiteral 2 None 1,
       SddDecision 6 None
         [ (SddLiteral 3 None 2, SddTrue 0 None);
           (SddLiteral 4 None (-2), SddFalse 8 None) ]) ].

Definition ex_litnamemap : gmap pyval pyval :=
  {[ PStr "⟙" := PStr "T"; PStr "⟘" := PStr "F"; PStr "+" := PStr "or";
     PInt 1 := PStr "rain" ]}.

Definition half : Qc := Q2Qc (1 # 2).

(** A decision circuit for x1 and x2, or not x1 and x3. *)
Definition ex_circuit : SddNode :=
  SddDecision 5 None
    [ (SddLiteral 1 None 1, SddLiteral 2 None 2);
      (SddLiteral 3 None (-1), SddLiteral 4 None 3) ].

(** The weights of [test_nnf1] and of [test_nnf2]. *)
Definition weights_full : gmap Z Qc :=
  {[ 3%Z := half; 2%Z := half; 1%Z := 1; (-3)%Z := half; (-2)%Z := half; (-1)%Z := 1 ]}.
Definition weights_reduced : gmap Z Qc :=
  {[ 3%Z := half; 2%Z := half; 1%Z := 1; (-3)%Z := half; (-2)%Z := half; (-1)%Z := 0 ]}.

Definition scenario_formula (a : list Z) : bool :=
  (bool_decide (1%Z ∈ a) && bool_decide (2%Z ∈ a))
  || (bool_decide ((-1)%Z ∈ a) && bool_decide (3%Z ∈ a)).

(** Modelled from the spec: the circuit of the scenario.  The tests read it
    from the file [rsrc/test.cnf.nnf]; the specification describes it as a
    three-variable circuit equivalent to (x1 and x2) or (not x1 and x3).
    [scenario_nnf] is such a circuit in negation normal form: the disjunction
    of x1 and x2, of not x1 and not x2 and x3, and of x2 and x3.  A Decision
    node stands for the disjunction of the conjunctions of its pairs; the
    nodes of the literals x2 and x3 are shared. *)
Definition scenario_nnf : SddNode :=
  SddDecision 9 None
    [ (SddLiteral 1 None 1, SddLiteral 2 None 2);
      (SddLiteral 3 None (-1),
       SddDecision 8 None [ (SddLiteral 5 None (-2), SddLiteral 4 None 3) ]);
      (SddLiteral 2 None 2, SddLiteral 4 None 3) ].

(** The constant true over x1 and x2, with elements that do not mention all
    the variables of their node. *)
Definition ex_unsmooth : SddNode :=
  SddDecision 5 None
    [ (SddLiteral 1 None 1, SddTrue 0 None);
      (SddLiteral 2 None (-1),
       SddDecision 6 None
         [ (SddLiteral 3 None 2, SddTrue 0 None);
           (SddLiteral 4 None (-2), SddTrue 0 None) ]) ].

(** The disjunction of x1 and x2 as a compressed and trimmed decision node. *)
Definition ex_disjunction : SddNode :=
  SddDecision 5 None
    [ (SddLiteral 1 None 1, SddTrue 0 None);
      (SddLiteral 2 None (-1), SddLiteral 3 None 2) ].

Definition weights_one : gmap Z Qc :=
  {[ 1%Z := 1; (-1)%Z := 1; 2%Z := 1; (-2)%Z := 1 ]}.

Definition weights_partial : gmap Z Qc :=
  {[ 3%Z := half; 2%Z := half; 1%Z := 1; (-3)%Z := half; (-2)%Z := half ]}.

Local Close Scope Qc_scope.

(** ** Proof automation for the examples *)

Ltac solve_consistent :=
  intros n m Hn Hm Hid; simpl in Hn, Hm;
  repeat (apply elem_of_cons in Hn as [->|Hn]);
  try (by apply elem_of_nil in Hn);
  repeat (apply elem_of_cons in Hm as [->|Hm]);
  try (by apply elem_of_nil in Hm);
  first [reflexivity | discriminate Hid].

Ltac solve_all_variants :=
  intros n Hn; simpl in Hn;
  repeat (apply elem_of_cons in Hn as [->|Hn]);
  try (by apply elem_of_nil in Hn); reflexivity.

Ltac by_computation := apply (bool_decide_unpack _); vm_compute; exact I.
Ltac Qc_computation :=
  vm_compute;
  first [ reflexivity
        | apply Qc_is_canon; reflexivity
        | apply (f_equal Counted), Qc_is_canon; reflexivity ].
Ltac Qc_different :=
  let H := fresh in
  intros H; apply (f_equal (fun q => Qnum (this q))) in H; vm_compute in H; discriminate H.

(** * Properties of the traversals *)

(** ** Induction on circuit nodes *)

Lemma SddNode_nested_ind (P : SddNode -> Prop) :
  (forall id vt, P (SddFalse id vt)) ->
  (forall id vt, P (SddTrue id vt)) ->
  (forall id vt l, P (SddLiteral id vt l)) ->
  (forall id vt els, Forall (fun e => P e.1 /\ P e.2) els -> P (SddDecision id vt els)) ->
  (forall id vt, P (SddOther id vt)) ->
  forall n, P n.
Proof.
  intros HF HT HL HD HO.
  fix IH 1. intros [id vt|id vt|id vt l|id vt els|id vt];
    [apply HF|apply HT|apply HL| |apply HO].
  apply HD. induction els as [|[p s] els IHels]; constructor; [split; apply IH|done].
Qed.

Lemma nodes_self n : n ∈ nodes n.
Proof. destruct n; simpl; left. Qed.

Lemma nodes_decision id vt els m :
  m ∈ nodes (SddDecision id vt els) <->
  m = SddDecision id vt els \/ exists e, e ∈ els /\ (m ∈ nodes e.1 \/ m ∈ nodes e.2).
Proof.
  simpl. rewrite elem_of_cons. apply or_iff_compat_l.
  rewrite list_elem_of_In, in_flat_map. split.
  - intros ([p s] & Hin & Hm). exists (p, s). rewrite list_elem_of_In.
    split; [done|]. rewrite <- !list_elem_of_In in *. by apply elem_of_app in Hm.
  - intros ([p s] & Hin & Hm). exists (p, s). rewrite <- !list_elem_of_In in *.
    split; [done|]. by apply elem_of_app.
Qed.

Lemma nodes_trans n m k : m ∈ nodes n -> k ∈ nodes m -> k ∈ nodes n.
Proof.
  revert m k. induction n as [| | |id vt els IH|] using SddNode_nested_ind;
    intros m k Hm Hk; try (simpl in Hm; apply list_elem_of_singleton in Hm; by subst).
  apply nodes_decision in Hm as [->|(e & He & Hm)]; [done|].
  apply nodes_decision. right. exists e. split; [done|].
  rewrite Forall_forall in IH. destruct (IH e He) as [IH1 IH2].
  destruct Hm; [left; eapply IH1|right; eapply IH2]; eauto.
Qed.

Lemma nodes_size n m : m ∈ nodes n -> (node_size m <= node_size n)%nat.
Proof.
  revert m. induction n as [| | |id vt els IH|] using SddNode_nested_ind;
    intros m Hm; try (simpl in Hm; apply list_elem_of_singleton in Hm; by subst).
  apply nodes_decision in Hm as [->|(e & He & Hm)]; [done|].
  rewrite Forall_forall in IH. destruct (IH e He) as [IH1 IH2].
  assert (node_size e.1 + node_size e.2 < node_size (SddDecision id vt els))%nat as Hlt.
  { simpl. clear -He. induction He as [[p s] l|[p s] [p' s'] l He IHe]; simpl in *; lia. }
  destruct Hm as [Hm|Hm]; [apply IH1 in Hm|apply IH2 in Hm]; lia.
Qed.

Lemma child_size id vt els e :
  e ∈ els ->
  (node_size e.1 < node_size (SddDecision id vt els))%nat /\
  (node_size e.2 < node_size (SddDecision id vt els))%nat.
Proof.
  intros He. simpl.
  induction He as [[p s] l|[p s] [p' s'] l He IHe]; simpl in *; lia.
Qed.

(** ** The circuit traversal: unfolding equations *)

Section sdd_traversal.
Context (litnamemap : option (gmap pyval pyval)) (show_id : bool).

Abbreviation visit := (_sddnode_to_dot_int litnamemap show_id).
Abbreviation visit_elements := (sdd_elements_to_dot (_sddnode_to_dot_int litnamemap show_id)).

Lemma visit_visited n V :
  node_id n ∈ V -> visit n V = Ok (Some [], V).
Proof. intros Hin. destruct n; simpl in *; by rewrite decide_True. Qed.

Lemma visit_leaf n V :
  node_id n ∉ V -> is_false n || is_true n || is_literal n = true ->
  visit n V = Ok (Some (own_stmts litnamemap show_id n), {[node_id n]} ∪ V).
Proof. intros Hin Hn. destruct n; simpl in *; try done; by rewrite decide_False. Qed.

Lemma visit_other id vt V :
  id ∉ V -> visit (SddOther id vt) V = Ok (None, {[id]} ∪ V).
Proof. intros Hin. simpl. by rewrite decide_False. Qed.

Lemma visit_decision id vt els V :
  id ∉ V ->
  visit (SddDecision id vt els) V =
    '(se, V') ← visit_elements id els 0%nat ({[id]} ∪ V);
    Ok (Some (SddDecisionDecl id
                (_format_sddnode_label (SddDecision id vt els) (Some (PStr "+"))
                   litnamemap show_id)
                (sdd_xlabel show_id (SddDecision id vt els)) :: se), V').
Proof. intros Hin. simpl. by rewrite decide_False. Qed.

Lemma visit_elements_cons id p s rest idx V :
  visit_elements id ((p, s) :: rest) idx V =
    '(rp, V1) ← visit p V;
    'sp ← extend_by rp;
    '(rs, V2) ← visit s V1;
    'ss ← extend_by rs;
    '(sr, V3) ← visit_elements id rest (S idx) V2;
    Ok ((element_stmts id idx (p, s) ++ sp ++ ss ++ sr)%list, V3).
Proof. reflexivity. Qed.

(** Inversion of a successful step of the loop. *)
Lemma visit_elements_cons_inv id p s rest idx V se V' :
  visit_elements id ((p, s) :: rest) idx V = Ok (se, V') ->
  exists sp V1 ss V2 sr,
    visit p V = Ok (Some sp, V1) /\
    visit s V1 = Ok (Some ss, V2) /\
    visit_elements id rest (S idx) V2 = Ok (sr, V') /\
    se = (element_stmts id idx (p, s) ++ sp ++ ss ++ sr)%list.
Proof.
  rewrite visit_elements_cons. unfold mbind, result_bind.
  destruct (visit p V) as [[[sp|] V1]|] eqn:Hp; simpl; try done.
  destruct (visit s V1) as [[[ss|] V2]|] eqn:Hs; simpl; try done.
  destruct (visit_elements id rest (S idx) V2) as [[sr V3]|] eqn:Hr; simpl; try done.
  intros [= <- <-]. by exists sp, V1, ss, V2, sr.
Qed.

Lemma visit_decision_inv id vt els V r V' :
  id ∉ V ->
  visit (SddDecision id vt els) V = Ok (r, V') ->
  exists se,
    visit_elements id els 0%nat ({[id]} ∪ V) = Ok (se, V') /\
    r = Some (SddDecisionDecl id
                (_format_sddnode_label (SddDecision id vt els) (Some (PStr "+"))
                   litnamemap show_id)
                (sdd_xlabel show_id (SddDecision id vt els)) :: se).
Proof.
  intros Hin. rewrite visit_decision by done. unfold mbind, result_bind.
  destruct (visit_elements _ _ _ _) as [[se V3]|] eqn:He; simpl; try done.
  intros [= <- <-]. by exists se.
Qed.

(** *** Every name is declared at most once, by a node that was not visited before *)

Abbreviation visit_fresh := (visit_fresh litnamemap show_id).

Lemma visit_elements_fresh id els :
  Forall (fun e => visit_fresh e.1 /\ visit_fresh e.2) els ->
  forall idx V se V',
    id ∈ V ->
    visit_elements id els idx V = Ok (se, V') ->
    V ⊆ V' /\ NoDup (omap declared se) /\
    forall nm, nm ∈ omap declared se ->
      (exists k, nm = NPs id k /\ (idx <= k)%nat) \/
      (exists i, owner nm = Some i /\ (i ∉ V) /\ i ∈ V').
Proof.
  induction 1 as [|[p s] rest [IHp IHs] _ IH]; intros idx V se V' Hid Hrun.
  - simpl in Hrun. injection Hrun as <- <-. split; [done|]. split; [constructor|].
    intros nm Hnm. simpl in Hnm. by apply elem_of_nil in Hnm.
  - apply visit_elements_cons_inv in Hrun
      as (sp & V1 & ss & V2 & sr & Hp & Hs & Hr & ->).
    simpl in IHp, IHs.
    destruct (IHp _ _ _ Hp) as (HV1 & _ & Hfp). destruct (Hfp _ eq_refl) as [NDp Op].
    destruct (IHs _ _ _ Hs) as (HV2 & _ & Hfs). destruct (Hfs _ eq_refl) as [NDs Os].
    destruct (IH (S idx) V2 sr V' ltac:(set_solver) Hr) as (HV3 & NDr & Or).
    split; [set_solver|].
    assert (forall nm, nm ∈ omap declared sp ->
              exists i, owner nm = Some i /\ (i ∉ V) /\ i ∈ V1) as Op' by done.
    assert (forall nm, nm ∈ omap declared ss ->
              exists i, owner nm = Some i /\ (i ∉ V1) /\ i ∈ V2) as Os' by done.
    cbn [element_stmts app omap declared]. simpl.
    rewrite !omap_app.
    split.
    + apply NoDup_cons. split.
      * rewrite !elem_of_app. intros [Hin|[Hin|Hin]].
        -- apply Op' in Hin as (i & [= <-] & Hi & _). done.
        -- apply Os' in Hin as (i & [= <-] & Hi & _). set_solver.
        -- apply Or in Hin as [(k & [= ->] & Hk)|(i & [= <-] & Hi & _)]; [lia|set_solver].
      * apply NoDup_app. split; [done|]. split.
        -- intros nm Hnm. rewrite elem_of_app. intros [Hin|Hin].
           ++ apply Op' in Hnm as (i & Ho & _ & Hi).
              apply Os' in Hin as (j & Ho' & Hj & _). congruence.
           ++ apply Op' in Hnm as (i & Ho & HiV & Hi).
              apply Or in Hin as [(k & -> & Hk)|(j & Ho' & Hj & _)].
              ** simpl in Ho. injection Ho as <-. done.
              ** assert (i = j) by congruence. set_solver.
        -- apply NoDup_app. split; [done|]. split; [|done].
           intros nm Hnm Hin.
           apply Os' in Hnm as (i & Ho & HiV & Hi).
           apply Or in Hin as [(k & -> & Hk)|(j & Ho' & Hj & _)].
           ** simpl in Ho. injection Ho as <-. set_solver.
           ** assert (i = j) by congruence. set_solver.
    + intros nm. rewrite elem_of_cons, !elem_of_app.
      intros [->|[Hin|[Hin|Hin]]].
      * left. exists idx. split; [done|lia].
      * right. apply Op' in Hin as (i & Ho & HiV & Hi). exists i. set_solver.
      * right. apply Os' in Hin as (i & Ho & HiV & Hi). exists i. set_solver.
      * apply Or in Hin as [(k & -> & Hk)|(j & Ho' & Hj & Hj')].
        -- left. exists k. split; [done|lia].
        -- right. exists j. set_solver.
Qed.

Lemma visit_is_fresh n : visit_fresh n.
Proof.
  induction n as [id vt|id vt|id vt l|id vt els IH|id vt] using SddNode_nested_ind;
    intros V r V' Hrun.
  4: {
    destruct (decide (id ∈ V)) as [Hin|Hin].
    { rewrite visit_visited in Hrun by done. injection Hrun as <- <-.
      split; [done|]. split; [done|]. intros s [= <-]. split; [constructor|].
      intros nm Hnm. by apply elem_of_nil in Hnm. }
    apply visit_decision_inv in Hrun as (se & Hrun & ->); [|done].
    apply (visit_elements_fresh id els IH) in Hrun as (HV & ND & Ow); [|set_solver].
    split; [set_solver|]. split; [set_solver|].
    intros s [= <-]. split.
    - simpl. apply NoDup_cons. split; [|done].
      intros Hin'. apply Ow in Hin' as [(k & [=] & _)|(i & [= <-] & Hi & _)]. set_solver.
    - intros nm. simpl. rewrite elem_of_cons. intros [->|Hin'].
      + exists id. set_solver.
      + apply Ow in Hin' as [(k & -> & _)|(i & Ho & Hi & Hi')].
        * exists id. set_solver.
        * exists i. set_solver. }
  all: destruct (decide (id ∈ V)) as [Hin|Hin];
    [ rewrite visit_visited in Hrun by done; injection Hrun as <- <-;
      split; [done|]; split; [done|]; intros s [= <-]; split; [constructor|];
      intros nm Hnm; by apply elem_of_nil in Hnm | ].
  1-3: rewrite visit_leaf in Hrun by done; injection Hrun as <- <-;
    (split; [set_solver|]); (split; [set_solver|]); intros s [= <-]; simpl; split;
    [ apply NoDup_singleton
    | intros nm Hnm; apply list_elem_of_singleton in Hnm as ->; exists id; set_solver ].
  rewrite visit_other in Hrun by done. injection Hrun as <- <-.
  split; [set_solver|]. split; [set_solver|]. done.
Qed.

End sdd_traversal.

(** ** Facts about [node_ids] and [consistent] *)

Lemma elem_of_node_ids i n :
  i ∈ node_ids n <-> exists m, m ∈ nodes n /\ node_id m = i.
Proof.
  unfold node_ids. rewrite elem_of_list_to_set, list_elem_of_fmap.
  split; intros (m & H1 & H2); exists m; split; done.
Qed.

Lemma node_ids_self n : node_id n ∈ node_ids n.
Proof. apply elem_of_node_ids. exists n. split; [apply nodes_self|done]. Qed.

Lemma node_ids_mono n m : m ∈ nodes n -> node_ids m ⊆ node_ids n.
Proof.
  intros Hm i. rewrite !elem_of_node_ids. intros (k & Hk & <-).
  exists k. split; [|done]. by eapply nodes_trans.
Qed.

Lemma nodes_child id vt els e :
  e ∈ els ->
  e.1 ∈ nodes (SddDecision id vt els) /\ e.2 ∈ nodes (SddDecision id vt els).
Proof.
  intros He. split; apply nodes_decision; right; exists e;
    (split; [done|]); [left|right]; apply nodes_self.
Qed.

Lemma node_ids_decision i id vt els :
  i ∈ node_ids (SddDecision id vt els) <->
  i = id \/ exists e, e ∈ els /\ (i ∈ node_ids e.1 \/ i ∈ node_ids e.2).
Proof.
  rewrite elem_of_node_ids. split.
  - intros (m & Hm & <-). apply nodes_decision in Hm as [->|(e & He & Hm)]; [by left|].
    right. exists e. split; [done|]. rewrite !elem_of_node_ids. naive_solver.
  - intros [->|(e & He & Hi)].
    + exists (SddDecision id vt els). split; [apply nodes_self|done].
    + rewrite !elem_of_node_ids in Hi.
      destruct Hi as [(m & Hm & <-)|(m & Hm & <-)]; exists m; (split; [|done]);
        apply nodes_decision; right; exists e; auto.
Qed.

Lemma consistent_sub root n : consistent root -> n ∈ nodes root -> consistent n.
Proof.
  intros Hc Hn m k Hm Hk. apply Hc; by eapply nodes_trans.
Qed.

(** In a consistent unfolding no node occurs below itself. *)
Lemma consistent_child_id root id vt els e :
  consistent root -> SddDecision id vt els ∈ nodes root -> e ∈ els ->
  (id ∉ node_ids e.1) /\ (id ∉ node_ids e.2).
Proof.
  intros Hc Hn He.
  destruct (nodes_child id vt els e He) as [H1 H2].
  destruct (child_size id vt els e He) as [S1 S2].
  split; rewrite elem_of_node_ids; intros (m & Hm & Hid).
  - assert (m = SddDecision id vt els) as ->.
    { apply Hc; [apply (nodes_trans _ _ _ Hn), (nodes_trans _ _ _ H1), Hm|done|by simpl]. }
    apply nodes_size in Hm. lia.
  - assert (m = SddDecision id vt els) as ->.
    { apply Hc; [apply (nodes_trans _ _ _ Hn), (nodes_trans _ _ _ H2), Hm|done|by simpl]. }
    apply nodes_size in Hm. lia.
Qed.

(** ** The circuit traversal reaches every node *)

Section sdd_traversal_complete.
Context (litnamemap : option (gmap pyval pyval)) (show_id : bool).
Context (root : SddNode) (Hroot : consistent root).

Abbreviation visit := (_sddnode_to_dot_int litnamemap show_id).
Abbreviation visit_elements := (sdd_elements_to_dot (_sddnode_to_dot_int litnamemap show_id)).
Abbreviation own := (own_stmts litnamemap show_id).

Abbreviation closed_upto := (closed_upto root).

Abbreviation emits_new := (emits_new litnamemap show_id root).

Abbreviation visit_complete := (visit_complete litnamemap show_id root).

Lemma visit_elements_complete id els :
  Forall (fun e => visit_complete e.1 /\ visit_complete e.2) els ->
  forall idx V P se V',
    visit_elements id els idx V = Ok (se, V') ->
    (forall e, e ∈ els -> e.1 ∈ nodes root /\ e.2 ∈ nodes root) ->
    closed_upto V P ->
    (forall i e, i ∈ P -> e ∈ els -> (i ∉ node_ids e.1) /\ (i ∉ node_ids e.2)) ->
    closed_upto V' P /\ V ⊆ V' /\
    (forall e, e ∈ els -> node_ids e.1 ⊆ V' /\ node_ids e.2 ⊆ V') /\
    emits_new V V' se /\
    (forall k e, els !! k = Some e -> element_stmts id (idx + k) e ⊆ se).
Proof.
  induction 1 as [|[p s] rest [IHp IHs] _ IH]; intros idx V P se V' Hrun Hin Hcl HP.
  - simpl in Hrun. injection Hrun as <- <-.
    split; [done|]. split; [done|]. split; [by intros e ?%elem_of_nil|].
    split; [by intros m _ ? ?|]. by intros k e ?.
  - apply visit_elements_cons_inv in Hrun
      as (sp & V1 & ss & V2 & sr & Hp & Hs & Hr & ->).
    simpl in IHp, IHs.
    destruct (Hin (p, s) ltac:(left)) as [Hpin Hsin]. simpl in Hpin, Hsin.
    assert (forall i, i ∈ P -> i ∉ node_ids p) as HPp
      by (intros i Hi; by apply (HP i (p, s) Hi ltac:(left))).
    assert (forall i, i ∈ P -> i ∉ node_ids s) as HPs
      by (intros i Hi; by apply (HP i (p, s) Hi ltac:(left))).
    destruct (IHp _ _ _ _ Hp Hpin Hcl HPp) as (Hcl1 & Hids1 & Hem1).
    destruct (IHs _ _ _ _ Hs Hsin Hcl1 HPs) as (Hcl2 & Hids2 & Hem2).
    destruct (IH (S idx) V2 P sr V' Hr) as (Hcl3 & HV3 & Hids3 & Hem3 & Hel3);
      [by intros e He; apply Hin; right|done|by intros i e Hi He; apply HP; [|right]|].
    destruct (visit_is_fresh _ _ _ _ _ _ Hp) as (HV1 & _ & _).
    destruct (visit_is_fresh _ _ _ _ _ _ Hs) as (HV2 & _ & _).
    split; [done|]. split; [set_solver|]. split; [|split].
    + intros e [->|He]%elem_of_cons; [simpl; set_solver|by apply Hids3].
    + intros m Hm HmV' HmV.
      destruct (decide (node_id m ∈ V1)) as [Hm1|Hm1].
      { destruct (Hem1 m Hm Hm1 HmV) as [Hsub Hvar]. split; [|done].
        intros x Hx. rewrite !elem_of_app. right; left. by apply Hsub. }
      destruct (decide (node_id m ∈ V2)) as [Hm2|Hm2].
      { destruct (Hem2 m Hm Hm2 Hm1) as [Hsub Hvar]. split; [|done].
        intros x Hx. rewrite !elem_of_app. right; right; left. by apply Hsub. }
      destruct (Hem3 m Hm HmV' Hm2) as [Hsub Hvar]. split; [|done].
      intros x Hx. rewrite !elem_of_app. right; right; right. by apply Hsub.
    + intros [|k] e Hk; simpl in Hk.
      * injection Hk as <-. rewrite Nat.add_0_r. intros x Hx.
        rewrite elem_of_app. by left.
      * intros x Hx. rewrite !elem_of_app. right; right; right.
        eapply Hel3; [exact Hk|]. by replace (S idx + k)%nat with (idx + S k)%nat by lia.
Qed.

Lemma own_decision_subseteq id vt els se :
  (forall k e, els !! k = Some e -> element_stmts id (0 + k) e ⊆ se) ->
  own (SddDecision id vt els) ⊆
    SddDecisionDecl id
      (_format_sddnode_label (SddDecision id vt els) (Some (PStr "+")) litnamemap show_id)
      (sdd_xlabel show_id (SddDecision id vt els)) :: se.
Proof.
  intros Hel x. simpl. rewrite !elem_of_cons. intros [->|Hx]; [by left|right].
  apply list_elem_of_join in Hx as (l & Hx & Hl).
  apply list_elem_of_lookup in Hl as [k Hk].
  rewrite list_lookup_imap in Hk.
  destruct (els !! k) as [e|] eqn:He; [|done]. simpl in Hk. injection Hk as <-.
  by eapply (Hel k e He).
Qed.

Lemma visit_complete_visited n V P s V' :
  node_id n ∈ V ->
  visit n V = Ok (Some s, V') ->
  n ∈ nodes root ->
  closed_upto V P ->
  (forall i, i ∈ P -> i ∉ node_ids n) ->
  closed_upto V' P /\ node_ids n ⊆ V' /\ emits_new V V' s.
Proof.
  intros Hin Hrun Hn Hcl HP.
  rewrite visit_visited in Hrun by done. injection Hrun as <- <-.
  split; [done|]. split; [|by intros m _ ? ?].
  destruct (Hcl _ Hn Hin) as [HinP|Hsub]; [|done].
  exfalso. apply (HP _ HinP). apply node_ids_self.
Qed.

Lemma visit_leaf_complete n :
  is_false n || is_true n || is_literal n = true -> visit_complete n.
Proof.
  intros Hleaf V P s V' Hrun Hn Hcl HP.
  destruct (decide (node_id n ∈ V)) as [Hin|Hin];
    [by eapply visit_complete_visited|].
  rewrite visit_leaf in Hrun by done. injection Hrun as <- <-.
  assert (node_ids n = {[node_id n]}) as Hids.
  { unfold node_ids. destruct n; simpl in *; try done; set_solver. }
  split; [|split; [set_solver|]].
  - intros m Hm [HmV%elem_of_singleton|HmV]%elem_of_union.
    + right. assert (m = n) as -> by (by apply Hroot). rewrite Hids. set_solver.
    + destruct (Hcl m Hm HmV); [by left|right; set_solver].
  - intros m Hm HmV' HmV.
    assert (m = n) as -> by (apply Hroot; [done|done|set_solver]).
    split; [done|]. unfold is_variant. by rewrite Hleaf.
Qed.

Lemma visit_is_complete n : visit_complete n.
Proof.
  induction n as [id vt|id vt|id vt l|id vt els IH|id vt] using SddNode_nested_ind;
    [by apply visit_leaf_complete..| |].
  - intros V P s V' Hrun Hn Hcl HP.
    destruct (decide (id ∈ V)) as [Hin|Hin];
      [by eapply visit_complete_visited|].
    apply visit_decision_inv in Hrun as (se & Hrun & [= ->]); [|done].
    destruct (visit_elements_complete id els IH 0%nat ({[id]} ∪ V) ({[id]} ∪ P) se V' Hrun)
      as (Hcl' & HV' & Hids & Hem & Hel).
    { intros e He. destruct (nodes_child id vt els e He).
      split; eapply nodes_trans; eauto. }
    { intros m Hm [->%elem_of_singleton|HmV]%elem_of_union; [left; set_solver|].
      destruct (Hcl m Hm HmV); [left|right]; set_solver. }
    { intros i e [->%elem_of_singleton|Hi]%elem_of_union He.
      - by eapply consistent_child_id.
      - specialize (HP i Hi). rewrite node_ids_decision in HP. naive_solver. }
    assert (node_ids (SddDecision id vt els) ⊆ V') as Hall.
    { intros i [->|(e & He & Hi)]%node_ids_decision; [set_solver|].
      destruct (Hids e He). set_solver. }
    split; [|split; [done|]].
    + intros m Hm HmV'. destruct (Hcl' m Hm HmV') as [[HmP|HmP]%elem_of_union|Hsub];
        [|by left|by right].
      apply elem_of_singleton in HmP.
      assert (m = SddDecision id vt els) as -> by (by apply Hroot). by right.
    + intros m Hm HmV' HmV. destruct (decide (node_id m = id)) as [Heq|Hne].
      * assert (m = SddDecision id vt els) as -> by (by apply Hroot).
        split; [by apply own_decision_subseteq|done].
      * destruct (Hem m Hm HmV' ltac:(set_solver)) as [Hsub Hvar]. split; [|done].
        intros x Hx. right. by apply Hsub.
  - intros V P s V' Hrun Hn Hcl HP.
    destruct (decide (id ∈ V)) as [Hin|Hin];
      [by eapply visit_complete_visited|].
    by rewrite visit_other in Hrun.
Qed.

End sdd_traversal_complete.

(** ** The circuit traversal: totality, errors, origin of statements *)

Lemma all_variants_sub root n : all_variants root -> n ∈ nodes root -> all_variants n.
Proof. intros Hv Hn m Hm. apply Hv. by eapply nodes_trans. Qed.

Section sdd_traversal_total.
Context (litnamemap : option (gmap pyval pyval)) (show_id : bool).

Abbreviation visit := (_sddnode_to_dot_int litnamemap show_id).
Abbreviation visit_elements := (sdd_elements_to_dot (_sddnode_to_dot_int litnamemap show_id)).
Abbreviation own := (own_stmts litnamemap show_id).

Lemma visit_elements_total id els :
  Forall (fun e =>
    (all_variants e.1 -> forall V, exists s V', visit e.1 V = Ok (Some s, V')) /\
    (all_variants e.2 -> forall V, exists s V', visit e.2 V = Ok (Some s, V')))
    els ->
  (forall e, e ∈ els -> all_variants e.1 /\ all_variants e.2) ->
  forall idx V, exists se V', visit_elements id els idx V = Ok (se, V').
Proof.
  induction 1 as [|[p s] rest [IHp IHs] _ IH]; intros Hv idx V.
  - by exists [], V.
  - destruct (Hv (p, s) ltac:(left)) as [Hvp Hvs]. simpl in *.
    destruct (IHp Hvp V) as (sp & V1 & Hp).
    destruct (IHs Hvs V1) as (ss & V2 & Hs).
    destruct (IH ltac:(intros e He; apply Hv; by right) (S idx) V2) as (sr & V3 & Hr).
    rewrite Hp. simpl. rewrite Hs. simpl. rewrite Hr. simpl. eauto.
Qed.

Lemma visit_total n :
  all_variants n -> forall V, exists s V', visit n V = Ok (Some s, V').
Proof.
  induction n as [id vt|id vt|id vt l|id vt els IH|id vt] using SddNode_nested_ind;
    intros Hv V.
  4: { destruct (decide (id ∈ V)) as [Hin|Hin];
         [rewrite visit_visited by done; eauto|].
       rewrite visit_decision by done.
       destruct (visit_elements_total id els IH) with (idx := 0%nat) (V := {[id]} ∪ V)
         as (se & V' & Hrun).
       { intros e He. destruct (nodes_child id vt els e He).
         split; eapply all_variants_sub; eauto. }
       rewrite Hrun. simpl. eauto. }
  4: { by specialize (Hv _ (nodes_self _)). }
  all: destruct (decide (id ∈ V)) as [Hin|Hin];
    [rewrite visit_visited by done|rewrite visit_leaf by done]; eauto.
Qed.

(** The only exception the traversal raises is the one of [s += None]. *)
Lemma visit_elements_raise id els :
  Forall (fun e =>
    (forall V e', visit e.1 V = Raise e' -> e' = NoneType_not_iterable) /\
    (forall V e', visit e.2 V = Raise e' -> e' = NoneType_not_iterable))
    els ->
  forall idx V e',
    visit_elements id els idx V = Raise e' -> e' = NoneType_not_iterable.
Proof.
  induction 1 as [|[p s] rest [IHp IHs] _ IH]; intros idx V e'; [done|].
  rewrite visit_elements_cons. unfold mbind, result_bind. simpl in *.
  destruct (visit p V) as [[[sp|] V1]|] eqn:Hp; simpl;
    [|by intros [= <-]|by intros [= <-]; eapply IHp].
  destruct (visit s V1) as [[[ss|] V2]|] eqn:Hs; simpl;
    [|by intros [= <-]|by intros [= <-]; eapply IHs].
  destruct (visit_elements id rest (S idx) V2) as [[sr V3]|] eqn:Hr; simpl; [done|].
  intros [= <-]. by eapply IH.
Qed.

Lemma visit_raise n V e' :
  visit n V = Raise e' -> e' = NoneType_not_iterable.
Proof.
  revert V e'.
  induction n as [id vt|id vt|id vt l|id vt els IH|id vt] using SddNode_nested_ind;
    intros V e'.
  4: { destruct (decide (id ∈ V)) as [Hin|Hin]; [by rewrite visit_visited|].
       rewrite visit_decision by done. unfold mbind, result_bind.
       destruct (visit_elements _ _ _ _) as [[se V3]|] eqn:He; simpl; [done|].
       intros [= <-]. by eapply visit_elements_raise. }
  4: { destruct (decide (id ∈ V)) as [Hin|Hin];
         [by rewrite visit_visited|by rewrite visit_other]. }
  all: destruct (decide (id ∈ V)) as [Hin|Hin];
    [by rewrite visit_visited|by rewrite visit_leaf].
Qed.

Abbreviation visit_sound := (visit_sound litnamemap show_id).

Lemma visit_elements_sound id els :
  Forall (fun e => visit_sound e.1 /\ visit_sound e.2) els ->
  forall idx V se V',
    visit_elements id els idx V = Ok (se, V') ->
    forall st, st ∈ se ->
      (exists k e, els !! k = Some e /\ st ∈ element_stmts id (idx + k) e) \/
      (exists e m, e ∈ els /\ (m ∈ nodes e.1 \/ m ∈ nodes e.2) /\
                   st ∈ own m).
Proof.
  induction 1 as [|[p s] rest [IHp IHs] _ IH]; intros idx V se V' Hrun st Hst.
  - simpl in Hrun. injection Hrun as <- <-. by apply elem_of_nil in Hst.
  - apply visit_elements_cons_inv in Hrun
      as (sp & V1 & ss & V2 & sr & Hp & Hs & Hr & ->).
    rewrite !elem_of_app in Hst. destruct Hst as [Hst|[Hst|[Hst|Hst]]].
    + left. exists 0%nat, (p, s). by rewrite Nat.add_0_r.
    + right. destruct (IHp _ _ _ Hp _ Hst) as (m & Hm & Hown).
      exists (p, s), m. split; [left|]. split; [by left|done].
    + right. destruct (IHs _ _ _ Hs _ Hst) as (m & Hm & Hown).
      exists (p, s), m. split; [left|]. split; [by right|done].
    + destruct (IH _ _ _ _ Hr _ Hst) as [(k & e & Hk & Hel)|(e & m & He & Hm & Hown)].
      * left. exists (S k), e. split; [done|].
        by replace (idx + S k)%nat with (S idx + k)%nat by lia.
      * right. exists e, m. split; [by right|done].
Qed.

Lemma visit_is_sound n : visit_sound n.
Proof.
  induction n as [id vt|id vt|id vt l|id vt els IH|id vt] using SddNode_nested_ind;
    intros V s V' Hrun st Hst.
  4: { destruct (decide (id ∈ V)) as [Hin|Hin].
       { rewrite visit_visited in Hrun by done. injection Hrun as <- <-.
         by apply elem_of_nil in Hst. }
       apply visit_decision_inv in Hrun as (se & Hrun & [= ->]); [|done].
       apply elem_of_cons in Hst as [->|Hst].
       { exists (SddDecision id vt els). split; [apply nodes_self|]. simpl. left. }
       destruct (visit_elements_sound id els IH _ _ _ _ Hrun _ Hst)
         as [(k & e & Hk & Hel)|(e & m & He & Hm & Hown)].
       - exists (SddDecision id vt els). split; [apply nodes_self|].
         simpl. right. apply list_elem_of_join.
         exists (element_stmts id (0 + k) e). split; [done|].
         apply list_elem_of_lookup. exists k. rewrite list_lookup_imap, Hk. done.
       - exists m. split; [|done]. apply nodes_decision. right. by exists e. }
  4: { destruct (decide (id ∈ V)) as [Hin|Hin];
         [|by rewrite visit_other in Hrun].
       rewrite visit_visited in Hrun by done. injection Hrun as <- <-.
       by apply elem_of_nil in Hst. }
  all: destruct (decide (id ∈ V)) as [Hin|Hin];
    [ rewrite visit_visited in Hrun by done; injection Hrun as <- <-;
      by apply elem_of_nil in Hst
    | rewrite visit_leaf in Hrun by done; injection Hrun as <- <-;
      eexists; split; [apply nodes_self|done] ].
Qed.

End sdd_traversal_total.

(** A name that is declared once, is declared by exactly one statement. *)
Lemma declared_once (s : list stmt) (st : stmt) (nm : dot_name) :
  NoDup (omap declared s) -> st ∈ s -> declared st = Some nm ->
  length (filter (fun st' => declared st' = Some nm) s) = 1%nat.
Proof.
  induction s as [|x s IH]; intros ND Hin Hd; [by apply elem_of_nil in Hin|].
  assert (forall l : list stmt, nm ∉ omap declared l ->
            filter (fun st' => declared st' = Some nm) l = []) as Hnone.
  { induction l as [|y l IHl]; intros Hnot; [done|].
    rewrite filter_cons. simpl in Hnot. destruct (declared y) as [nm'|] eqn:Hy.
    - apply not_elem_of_cons in Hnot as [Hne Hnot].
      rewrite decide_False by congruence. by apply IHl.
    - rewrite decide_False by done. by apply IHl. }
  rewrite filter_cons. simpl in ND.
  destruct (declared x) as [nm'|] eqn:Hx.
  - apply NoDup_cons in ND as [Hnot ND].
    destruct (decide (Some nm' = Some nm)) as [[= ->]|Hne].
    + simpl. by rewrite Hnone.
    + apply elem_of_cons in Hin as [->|Hin]; [congruence|]. by apply IH.
  - rewrite decide_False by done.
    apply elem_of_cons in Hin as [->|Hin]; [congruence|]. by apply IH.
Qed.

Lemma declared_never (s : list stmt) (nm : dot_name) :
  nm ∉ omap declared s ->
  length (filter (fun st' => declared st' = Some nm) s) = 0%nat.
Proof.
  induction s as [|y l IHl]; intros Hnot; [done|].
  rewrite filter_cons. simpl in Hnot. destruct (declared y) as [nm'|] eqn:Hy.
  - apply not_elem_of_cons in Hnot as [Hne Hnot].
    rewrite decide_False by congruence. by apply IHl.
  - rewrite decide_False by done. by apply IHl.
Qed.

(** ** [show_id] and the circuit traversal *)

Section sdd_show_id.
Context (litnamemap : option (gmap pyval pyval)).

Abbreviation visit_same := (visit_same litnamemap).

Lemma visit_elements_same id els :
  Forall (fun e => visit_same e.1 /\ visit_same e.2) els ->
  forall idx V,
    same_outcome (fun a b => a.2 = b.2 /\ same_up_to_identity a.1 b.1)
      (sdd_elements_to_dot (_sddnode_to_dot_int litnamemap true) id els idx V)
      (sdd_elements_to_dot (_sddnode_to_dot_int litnamemap false) id els idx V).
Proof.
  induction 1 as [|[p s] rest [IHp IHs] _ IH]; intros idx V; [done|].
  rewrite !visit_elements_cons. unfold mbind, result_bind. simpl in IHp, IHs.
  specialize (IHp V). unfold same_outcome in IHp.
  destruct (_sddnode_to_dot_int litnamemap true p V) as [[rp1 V1]|e1],
           (_sddnode_to_dot_int litnamemap false p V) as [[rp2 V1']|e2];
    try done. simpl in IHp. destruct IHp as [<- Hrp].
  destruct rp1 as [sp1|], rp2 as [sp2|]; try done. simpl in Hrp.
  injection Hrp as Hsp. simpl.
  specialize (IHs V1). unfold same_outcome in IHs.
  destruct (_sddnode_to_dot_int litnamemap true s V1) as [[rs1 V2]|e1],
           (_sddnode_to_dot_int litnamemap false s V1) as [[rs2 V2']|e2];
    try done. simpl in IHs. destruct IHs as [<- Hrs].
  destruct rs1 as [ss1|], rs2 as [ss2|]; try done. simpl in Hrs.
  injection Hrs as Hss. simpl.
  specialize (IH (S idx) V2). unfold same_outcome in IH.
  destruct (sdd_elements_to_dot (_sddnode_to_dot_int litnamemap true) id rest (S idx) V2)
    as [[sr1 V3]|e1],
    (sdd_elements_to_dot (_sddnode_to_dot_int litnamemap false) id rest (S idx) V2)
    as [[sr2 V3']|e2]; try done.
  simpl in IH. destruct IH as [<- Hsr]. simpl. split; [done|].
  unfold same_up_to_identity in *. simpl. rewrite !map_app. by rewrite Hsp, Hss, Hsr.
Qed.

Lemma visit_is_same n : visit_same n.
Proof.
  induction n as [id vt|id vt|id vt l|id vt els IH|id vt] using SddNode_nested_ind;
    intros V.
  4: { destruct (decide (id ∈ V)) as [Hin|Hin]; [by rewrite !visit_visited|].
       rewrite !visit_decision by done. unfold mbind, result_bind.
       pose proof (visit_elements_same id els IH 0%nat ({[id]} ∪ V)) as Hel.
       unfold same_outcome in Hel.
       destruct (sdd_elements_to_dot (_sddnode_to_dot_int litnamemap true) _ _ _ _)
         as [[s1 V1]|e1],
         (sdd_elements_to_dot (_sddnode_to_dot_int litnamemap false) _ _ _ _)
         as [[s2 V2]|e2]; try done.
       simpl in *. destruct Hel as [<- Hel]. split; [done|].
       unfold same_up_to_identity in Hel. simpl. by rewrite Hel. }
  4: { destruct (decide (id ∈ V)) as [Hin|Hin];
         [by rewrite !visit_visited|by rewrite !visit_other]. }
  all: destruct (decide (id ∈ V)) as [Hin|Hin];
    [by rewrite !visit_visited|by rewrite !visit_leaf].
Qed.

End sdd_show_id.

(** ** Vtrees: induction and the statements of a subtree *)

Lemma Vtree_nested_ind (P : Vtree -> Prop) :
  (forall pos var vl vr,
     (forall l, vl = Some l -> P l) -> (forall r, vr = Some r -> P r) ->
     P (VtreeNode pos var vl vr)) ->
  forall v, P v.
Proof.
  intros H. fix IH 1. intros [pos var vl vr]. apply H.
  - destruct vl as [l'|]; intros l [= <-]. apply IH.
  - destruct vr as [r'|]; intros r [= <-]. apply IH.
Qed.

Lemma vnodes_self v : v ∈ vnodes v.
Proof. destruct v; simpl; left. Qed.

Lemma _vtree_to_dot_int_unfold litnamemap show_id v :
  _vtree_to_dot_int litnamemap show_id v =
    (vtree_own_decl litnamemap show_id v
      :: match vtree_left v with
         | Some l => vtree_left_edge show_id v l :: _vtree_to_dot_int litnamemap show_id l
         | None => []
         end
      ++ match vtree_right v with
         | Some r => vtree_right_edge show_id v r :: _vtree_to_dot_int litnamemap show_id r
         | None => []
         end)%list.
Proof. destruct v as [pos var [l|] [r|]]; reflexivity. Qed.

Lemma vtree_statements_of_subtree litnamemap show_id v t :
  t ∈ vnodes v ->
  vtree_own_decl litnamemap show_id t ∈ _vtree_to_dot_int litnamemap show_id v /\
  (forall l, vtree_left t = Some l ->
     vtree_left_edge show_id t l ∈ _vtree_to_dot_int litnamemap show_id v) /\
  (forall r, vtree_right t = Some r ->
     vtree_right_edge show_id t r ∈ _vtree_to_dot_int litnamemap show_id v).
Proof.
  revert t. induction v as [pos var vl vr IHl IHr] using Vtree_nested_ind. intros t Ht.
  rewrite _vtree_to_dot_int_unfold. simpl in Ht. simpl vtree_left. simpl vtree_right.
  apply elem_of_cons in Ht as [->|Ht].
  - split; [left|]. simpl. split.
    + intros l ->. right. apply elem_of_app. left. left.
    + intros r ->. right. apply elem_of_app. right. left.
  - apply elem_of_app in Ht as [Ht|Ht].
    + destruct vl as [l|]; [|by apply elem_of_nil in Ht].
      destruct (IHl l eq_refl t Ht) as (H1 & H2 & H3).
      split; [|split]; [|intros l' Hl'|intros r' Hr']; right; apply elem_of_app; left; right;
        auto.
    + destruct vr as [r|]; [|by apply elem_of_nil in Ht].
      destruct (IHr r eq_refl t Ht) as (H1 & H2 & H3).
      split; [|split]; [|intros l' Hl'|intros r' Hr']; right; apply elem_of_app; right; right;
        auto.
Qed.

(** Every statement of a subtree is the declaration of one of its nodes, or
    the edge from one of its nodes to its left or to its right child. *)
Lemma vtree_statement_origin litnamemap show_id v st :
  st ∈ _vtree_to_dot_int litnamemap show_id v ->
  exists t, t ∈ vnodes v /\
    (st = vtree_own_decl litnamemap show_id t \/
     (exists l, vtree_left t = Some l /\ st = vtree_left_edge show_id t l) \/
     (exists r, vtree_right t = Some r /\ st = vtree_right_edge show_id t r)).
Proof.
  induction v as [pos var vl vr IHl IHr] using Vtree_nested_ind.
  rewrite _vtree_to_dot_int_unfold. simpl vtree_left. simpl vtree_right.
  set (v := VtreeNode pos var vl vr).
  assert (forall u, u ∈ match vl with Some l => vnodes l | None => [] end -> u ∈ vnodes v)
    as Hsubl.
  { intros u Hu. simpl. right. apply elem_of_app. by left. }
  assert (forall u, u ∈ match vr with Some r => vnodes r | None => [] end -> u ∈ vnodes v)
    as Hsubr.
  { intros u Hu. simpl. right. apply elem_of_app. by right. }
  intros [->|Hst]%elem_of_cons.
  - exists v. split; [apply vnodes_self|by left].
  - apply elem_of_app in Hst as [Hst|Hst].
    + destruct vl as [l|]; [|by apply elem_of_nil in Hst].
      apply elem_of_cons in Hst as [->|Hst].
      * exists v. split; [apply vnodes_self|]. right. left. by exists l.
      * destruct (IHl l eq_refl Hst) as (t & Ht & Hcase). exists t. split; [auto|done].
    + destruct vr as [r|]; [|by apply elem_of_nil in Hst].
      apply elem_of_cons in Hst as [->|Hst].
      * exists v. split; [apply vnodes_self|]. right. right. by exists r.
      * destruct (IHr r eq_refl Hst) as (t & Ht & Hcase). exists t. split; [auto|done].
Qed.

Lemma vtree_show_id_erased litnamemap v :
  same_up_to_identity (_vtree_to_dot_int litnamemap true v)
                      (_vtree_to_dot_int litnamemap false v).
Proof.
  unfold same_up_to_identity.
  induction v as [pos var vl vr IHl IHr] using Vtree_nested_ind.
  rewrite !_vtree_to_dot_int_unfold. simpl vtree_left. simpl vtree_right.
  rewrite !map_cons, !map_app. f_equal.
  - unfold vtree_own_decl. by destruct (vtree_is_leaf _).
  - f_equal.
    + destruct vl as [l|]; [|done]. simpl. f_equal. by apply IHl.
    + destruct vr as [r|]; [|done]. simpl. f_equal. by apply IHr.
Qed.

(** ** The statements of an exported circuit *)

Lemma own_declares litnamemap show_id n :
  is_variant n = true ->
  exists st, st ∈ own_stmts litnamemap show_id n /\ declared st = Some (NId (node_id n)).
Proof.
  destruct n; intros Hv; try done; simpl; eexists; (split; [left|done]).
Qed.

Lemma own_element_stmts litnamemap show_id d idx e :
  node_elements d !! idx = Some e ->
  element_stmts (node_id d) idx e ⊆ own_stmts litnamemap show_id d.
Proof.
  destruct d as [| | |id vt els|]; try done. simpl. intros He x Hx. right.
  apply list_elem_of_join. exists (element_stmts id idx e). split; [done|].
  apply list_elem_of_lookup. exists idx. by rewrite list_lookup_imap, He.
Qed.

Lemma product_decl_origin litnamemap show_id m i k :
  ProductDecl i k ∈ own_stmts litnamemap show_id m ->
  node_id m = i /\ is_Some (node_elements m !! k).
Proof.
  destruct m as [| | |id vt els|]; simpl;
    try (by intros ?%list_elem_of_singleton); try (by intros ?%elem_of_nil).
  intros [|Hin]%elem_of_cons; [done|].
  apply list_elem_of_join in Hin as (l & Hin & Hl).
  apply list_elem_of_lookup in Hl as [j Hj]. rewrite list_lookup_imap in Hj.
  destruct (els !! j) as [e|] eqn:He; [|done]. simpl in Hj. injection Hj as <-.
  unfold element_stmts in Hin. rewrite !elem_of_cons in Hin.
  destruct Hin as [[= <- <-]|[|[|[|Hin]]]]; try done.
  by apply elem_of_nil in Hin.
Qed.

(** What the properties of the exporter rest on: on a consistent circuit
    whose nodes are all of the four variants the traversal from the empty
    visited set succeeds, declares no name twice, contains the own statements
    of every node, and nothing else. *)
Lemma sdd_export_facts litnamemap show_id root :
  consistent root -> all_variants root ->
  exists s,
    sdd_to_dot_stmts (Some root) litnamemap show_id = Ok s /\
    sdd_to_dot (Some root) litnamemap show_id = Ok (dot_document "digraph sdd {" s) /\
    NoDup (omap declared s) /\
    (forall m, m ∈ nodes root -> own_stmts litnamemap show_id m ⊆ s) /\
    (forall st, st ∈ s -> exists m, m ∈ nodes root /\ st ∈ own_stmts litnamemap show_id m).
Proof.
  intros Hc Hv.
  destruct (visit_total litnamemap show_id root Hv ∅) as (s & V' & Hrun).
  exists s. unfold sdd_to_dot, sdd_to_dot_stmts. rewrite Hrun. simpl.
  split; [done|]. split; [done|].
  destruct (visit_is_fresh _ _ _ _ _ _ Hrun) as (_ & _ & Hf).
  destruct (Hf s eq_refl) as [ND _]. split; [done|].
  destruct (visit_is_complete litnamemap show_id root Hc root ∅ ∅ s V' Hrun)
    as (_ & Hids & Hem); [apply nodes_self|by intros m _ ?%not_elem_of_empty|set_solver|].
  split.
  - intros m Hm. apply Hem; [done| |set_solver].
    apply Hids. apply elem_of_node_ids. by exists m.
  - by eapply visit_is_sound.
Qed.

(** A name that is declared once, is declared by one statement only. *)
Lemma declared_unique (s : list stmt) (st st' : stmt) (nm : dot_name) :
  NoDup (omap declared s) -> st ∈ s -> st' ∈ s ->
  declared st = Some nm -> declared st' = Some nm -> st = st'.
Proof.
  induction s as [|x s IH]; intros ND Hin Hin' Hd Hd'; [by apply elem_of_nil in Hin|].
  assert (forall y, y ∈ s -> declared y = Some nm -> nm ∈ omap declared s) as Hmem.
  { intros y Hy Hdy. apply list_elem_of_omap. by exists y. }
  simpl in ND. destruct (declared x) as [nm'|] eqn:Hx.
  - apply NoDup_cons in ND as [Hnot ND].
    apply elem_of_cons in Hin as [->|Hin]; apply elem_of_cons in Hin' as [->|Hin'].
    + done.
    + exfalso. apply Hnot. replace nm' with nm by congruence. by apply (Hmem st').
    + exfalso. apply Hnot. replace nm' with nm by congruence. by apply (Hmem st).
    + by apply IH.
  - apply elem_of_cons in Hin as [->|Hin]; [congruence|].
    apply elem_of_cons in Hin' as [->|Hin']; [congruence|]. by apply IH.
Qed.

(** The declaration of a node anywhere below the root is the first of its own
    statements, and no other statement declares its identifier. *)
Lemma export_node_declaration litnamemap show_id root :
  consistent root -> all_variants root ->
  exists s,
    sdd_to_dot_stmts (Some root) litnamemap show_id = Ok s /\
    forall n decl, n ∈ nodes root -> head (own_stmts litnamemap show_id n) = Some decl ->
      decl ∈ s /\ declared decl = Some (NId (node_id n)) /\
      forall st, st ∈ s -> declared st = Some (NId (node_id n)) -> st = decl.
Proof.
  intros Hc Hv.
  destruct (sdd_export_facts litnamemap show_id root Hc Hv) as (s & Hs & _ & ND & Hown & _).
  exists s. split; [done|]. intros n decl Hn Hhead.
  assert (decl ∈ s) as Hin.
  { apply (Hown n Hn). destruct (own_stmts litnamemap show_id n); [done|].
    injection Hhead as ->. left. }
  assert (declared decl = Some (NId (node_id n))) as Hd.
  { destruct n; simpl in Hhead; try done; by injection Hhead as <-. }
  split; [done|]. split; [done|].
  intros st Hst Hdst. by apply (declared_unique s st decl (NId (node_id n))).
Qed.

Lemma declares_same_of_erased s1 s2 :
  same_up_to_identity s1 s2 ->
  omap declared s1 = omap declared s2 /\ omap edge_of s1 = omap edge_of s2.
Proof.
  unfold same_up_to_identity. revert s2.
  induction s1 as [|x s1 IH]; intros [|y s2] Heq; try done.
  simpl in Heq. injection Heq as Hxy Heq. destruct (IH _ Heq) as [IH1 IH2].
  assert (declared x = declared y /\ edge_of x = edge_of y) as [Hd He]
    by (by destruct x, y; simplify_eq/=).
  change (x :: s1) with ([x] ++ s1)%list. change (y :: s2) with ([y] ++ s2)%list.
  rewrite !omap_app, IH1, IH2. simpl. by rewrite Hd, He.
Qed.

Lemma ex_root_consistent : consistent ex_root.
Proof. solve_consistent. Qed.

Lemma ex_root_variants : all_variants ex_root.
Proof. solve_all_variants. Qed.

Example ex_root_document :
  sdd_to_dot (Some ex_root) None false = Ok (join_lines
    [ "digraph sdd {";
      "7 [shape=circle,label=" +:+ dq +:+ "+" +:+ dq +:+ "];";
      "ps_7_0 [shape=circle, label=" +:+ dq +:+ "×" +:+ dq +:+ "];";
      "7 -> ps_7_0 [arrowhead=none];";
      "ps_7_0 -> 1;";
      "ps_7_0 -> 3;";
      "1 [shape=rectangle,label=" +:+ dq +:+ "1" +:+ dq +:+ "];";
      "3 [shape=rectangle,label=" +:+ dq +:+ "2" +:+ dq +:+ "];";
      "ps_7_1 [shape=circle, label=" +:+ dq +:+ "×" +:+ dq +:+ "];";
      "7 -> ps_7_1 [arrowhead=none];";
      "ps_7_1 -> 2;";
      "ps_7_1 -> 3;";
      "2 [shape=rectangle,label=" +:+ dq +:+ "-1" +:+ dq +:+ "];";
      "}" ]).
Proof. vm_compute. reflexivity. Qed.

Example ex_vtree_document :
  vtree_to_dot (Some ex_vtree) None true = Ok (join_lines
    [ "digraph vtree {";
      "start [shape=plaintext,style=invis];";
      "start -> 1 [penwidth=0,arrowhead=none,headlabel=" +:+ dq +:+ "1" +:+ dq +:+ "];";
      "1 [label=" +:+ dq +:+ "1" +:+ dq +:+ ",shape=" +:+ dq +:+ "point" +:+ dq +:+ "];";
      "1 -> 0 [arrowhead=none,headclip=true,headlabel=" +:+ dq +:+ "0" +:+ dq +:+ "];";
      "0 [label=" +:+ dq +:+ "1" +:+ dq +:+ ",shape=" +:+ dq +:+ "box" +:+ dq +:+ "];";
      "1 -> 2 [arrowhead=none,headclip=true,headlabel=" +:+ dq +:+ "     2" +:+ dq +:+ "];";
      "2 [label=" +:+ dq +:+ "2" +:+ dq +:+ ",shape=" +:+ dq +:+ "box" +:+ dq +:+ "];";
      "}" ]).
Proof. vm_compute. reflexivity. Qed.

(** * The claims about the exporter *)

(** C2: one call of the circuit exporter visits every node identity exactly
    once, whatever its in-degree.  On a consistent circuit of the four variants
    the export succeeds; every node below the root has exactly one declaration
    in the output; every element of every Decision node below the root has
    its two edges, to the prime and to the sub, in the output (so a shared node
    receives all its incoming edges); and calling the traversal on a node that
    is already in the visited set returns the empty statement list and leaves
    the visited set as it is. *)
Theorem C2_export_visits_each_node_once litnamemap show_id root :
  consistent root -> all_variants root ->
  exists s,
    sdd_to_dot_stmts (Some root) litnamemap show_id = Ok s /\
    sdd_to_dot (Some root) litnamemap show_id = Ok (dot_document "digraph sdd {" s) /\
    (forall n, n ∈ nodes root ->
       length (filter (fun st => declared st = Some (NId (node_id n))) s) = 1%nat) /\
    (forall d idx e, d ∈ nodes root -> node_elements d !! idx = Some e ->
       ElementEdge (node_id d) idx (node_id e.1) ∈ s /\
       ElementEdge (node_id d) idx (node_id e.2) ∈ s) /\
    (forall n V, node_id n ∈ V ->
       _sddnode_to_dot_int litnamemap show_id n V = Ok (Some [], V)).
Proof.
  intros Hc Hv.
  destruct (sdd_export_facts litnamemap show_id root Hc Hv)
    as (s & Hstmts & Hdoc & ND & Hown & _).
  exists s. split; [done|]. split; [done|]. split; [|split].
  - intros n Hn.
    destruct (own_declares litnamemap show_id n (Hv n Hn)) as (st & Hst & Hd).
    eapply declared_once; [done| |done]. by eapply Hown.
  - intros d idx e Hd He.
    pose proof (own_element_stmts litnamemap show_id d idx e He) as Hel.
    split; apply (Hown d Hd), Hel; unfold element_stmts; set_solver.
  - intros n V Hin. by apply visit_visited.
Qed.

Lemma C2_export_visits_each_node_once_witness :
  consistent ex_root /\ all_variants ex_root /\
  exists s,
    sdd_to_dot_stmts (Some ex_root) None false = Ok s /\
    sdd_to_dot (Some ex_root) None false = Ok (dot_document "digraph sdd {" s) /\
    (forall n, n ∈ nodes ex_root ->
       length (filter (fun st => declared st = Some (NId (node_id n))) s) = 1%nat) /\
    (forall d idx e, d ∈ nodes ex_root -> node_elements d !! idx = Some e ->
       ElementEdge (node_id d) idx (node_id e.1) ∈ s /\
       ElementEdge (node_id d) idx (node_id e.2) ∈ s) /\
    (forall n V, node_id n ∈ V ->
       _sddnode_to_dot_int None false n V = Ok (Some [], V)).
Proof.
  split; [exact ex_root_consistent|]. split; [exact ex_root_variants|].
  exact (C2_export_visits_each_node_once None false ex_root
           ex_root_consistent ex_root_variants).
Defined.

(** C5: a call without a root.  [sdd_to_dot] raises its [ValueError]
    ("No root node given"); [vtree_to_dot] has no such guard and raises an
    [AttributeError] from the first method call on [None]. *)
Theorem C5_export_without_root litnamemap show_id :
  sdd_to_dot None litnamemap show_id = Raise (ValueError "No root node given") /\
  vtree_to_dot None litnamemap false =
    Raise (AttributeError "'NoneType' object has no attribute 'left'") /\
  vtree_to_dot None litnamemap true =
    Raise (AttributeError "'NoneType' object has no attribute 'position'").
Proof. done. Qed.

(** C6: a Decision node in the export.  On a consistent circuit of the four
    variants, for every Decision node below the root the output has its
    labelled circle declaration (and no other declaration of that id), exactly
    one product-node declaration for each element index and none for any other
    index, the edge from the decision node to each product node, and the
    edges from each product node to the prime and to the sub of its element. *)
Theorem C6_decision_node_rendering litnamemap show_id root id vt els :
  consistent root -> all_variants root ->
  SddDecision id vt els ∈ nodes root ->
  exists s,
    sdd_to_dot_stmts (Some root) litnamemap show_id = Ok s /\
    sdd_to_dot (Some root) litnamemap show_id = Ok (dot_document "digraph sdd {" s) /\
    SddDecisionDecl id
      (_format_sddnode_label (SddDecision id vt els) (Some (PStr "+")) litnamemap show_id)
      (sdd_xlabel show_id (SddDecision id vt els)) ∈ s /\
    length (filter (fun st => declared st = Some (NId id)) s) = 1%nat /\
    (forall idx,
       length (filter (fun st => declared st = Some (NPs id idx)) s) =
         if decide (idx < length els)%nat then 1%nat else 0%nat) /\
    (forall idx e, els !! idx = Some e ->
       ProductDecl id idx ∈ s /\
       DecisionEdge id idx ∈ s /\
       ElementEdge id idx (node_id e.1) ∈ s /\
       ElementEdge id idx (node_id e.2) ∈ s).
Proof.
  intros Hc Hv Hd.
  destruct (sdd_export_facts litnamemap show_id root Hc Hv)
    as (s & Hstmts & Hdoc & ND & Hown & Hsound).
  exists s. split; [done|]. split; [done|].
  pose proof (Hown _ Hd) as Hd_own.
  assert (forall idx e, els !! idx = Some e -> element_stmts id idx e ⊆ s) as Hel.
  { intros idx e He x Hx. apply Hd_own.
    by apply (own_element_stmts litnamemap show_id (SddDecision id vt els) idx e He). }
  split; [apply Hd_own; simpl; left|]. split; [|split].
  - eapply declared_once; [done|apply Hd_own; simpl; left|done].
  - intros idx. destruct (decide (idx < length els)%nat) as [Hlt|Hge].
    + destruct (lookup_lt_is_Some_2 els idx Hlt) as [e He].
      eapply (declared_once s (ProductDecl id idx)); [done| |done].
      apply (Hel idx e He). unfold element_stmts. set_solver.
    + apply declared_never. intros Hin.
      apply list_elem_of_omap in Hin as (st & Hst & Hdecl).
      destruct (Hsound st Hst) as (m & Hm & Hown_m).
      assert (st = ProductDecl id idx) as -> by (by destruct st; simplify_eq/=).
      apply product_decl_origin in Hown_m as [Hid Hsome].
      assert (m = SddDecision id vt els) as -> by (by apply Hc).
      simpl in Hsome. apply lookup_lt_is_Some_1 in Hsome. lia.
  - intros idx e He. specialize (Hel idx e He). unfold element_stmts in Hel.
    repeat split; apply Hel; set_solver.
Qed.

Lemma C6_decision_node_rendering_witness :
  consistent ex_root /\ all_variants ex_root /\ ex_root ∈ nodes ex_root /\
  exists s,
    sdd_to_dot_stmts (Some ex_root) None true = Ok s /\
    sdd_to_dot (Some ex_root) None true = Ok (dot_document "digraph sdd {" s) /\
    SddDecisionDecl 7
      (_format_sddnode_label ex_root (Some (PStr "+")) None true)
      (sdd_xlabel true ex_root) ∈ s /\
    length (filter (fun st => declared st = Some (NId 7)) s) = 1%nat /\
    (forall idx,
       length (filter (fun st => declared st = Some (NPs 7 idx)) s) =
         if decide (idx < length (node_elements ex_root))%nat then 1%nat else 0%nat) /\
    (forall idx e, node_elements ex_root !! idx = Some e ->
       ProductDecl 7 idx ∈ s /\
       DecisionEdge 7 idx ∈ s /\
       ElementEdge 7 idx (node_id e.1) ∈ s /\
       ElementEdge 7 idx (node_id e.2) ∈ s).
Proof.
  split; [exact ex_root_consistent|]. split; [exact ex_root_variants|].
  split; [apply nodes_self|].
  exact (C6_decision_node_rendering None true ex_root 7 None _
           ex_root_consistent ex_root_variants (nodes_self ex_root)).
Defined.

(** C7, as the specification states it for vtrees: the document with
    [show_id] set declares the same nodes and draws the same edges as the one
    without.  It fails on a single leaf: with [show_id] the document also
    declares the node [start] and draws an edge from it to the root. *)
Lemma C7_show_id_adds_start_node :
  exists s1 s2,
    vtree_to_dot_stmts (Some (VtreeNode 0 1 None None)) None true = Ok s1 /\
    vtree_to_dot_stmts (Some (VtreeNode 0 1 None None)) None false = Ok s2 /\
    NStart ∈ omap declared s1 /\ (NStart ∉ omap declared s2) /\
    (NStart, NId 0) ∈ omap edge_of s1 /\ ((NStart, NId 0) ∉ omap edge_of s2).
Proof.
  eexists _, _. split; [reflexivity|]. split; [reflexivity|]. simpl.
  split; [set_solver|]. split; [set_solver|]. split; set_solver.
Qed.

(** C7, amended: [show_id] is cosmetic for circuits, and for vtrees apart from
    the [start] node.  For a circuit the traversal ends with the same visited
    set and the two exports have the same outcome: the same exception, or
    statement lists that are equal once the identity annotations are erased.
    For a vtree the document with [show_id] is the [start] declaration and the
    edge from [start] to the root, followed by statements that equal those of
    the document without [show_id] once the annotations are erased.  Statement
    lists that are equal up to the annotations declare the same nodes and
    draw the same edges. *)
Theorem C7_show_id_is_cosmetic litnamemap :
  (forall root V,
     same_outcome
       (fun a b => a.2 = b.2 /\ (map erase_identity <$> a.1) = (map erase_identity <$> b.1))
       (_sddnode_to_dot_int litnamemap true root V)
       (_sddnode_to_dot_int litnamemap false root V)) /\
  (forall root,
     same_outcome same_up_to_identity
       (sdd_to_dot_stmts root litnamemap true)
       (sdd_to_dot_stmts root litnamemap false)) /\
  (forall v,
     vtree_to_dot_stmts (Some v) litnamemap false =
       Ok (_vtree_to_dot_int litnamemap false v) /\
     vtree_to_dot_stmts (Some v) litnamemap true =
       Ok (VtreeStartDecl :: VtreeStartEdge (vtree_position v)
             :: _vtree_to_dot_int litnamemap true v) /\
     same_up_to_identity (_vtree_to_dot_int litnamemap true v)
                         (_vtree_to_dot_int litnamemap false v)) /\
  (forall s1 s2,
     same_up_to_identity s1 s2 ->
     omap declared s1 = omap declared s2 /\ omap edge_of s1 = omap edge_of s2).
Proof.
  split; [intros root V; apply visit_is_same|]. split; [|split].
  - intros [root|]; [|done]. unfold sdd_to_dot_stmts, mbind, result_bind.
    pose proof (visit_is_same litnamemap root ∅) as Hsame. unfold same_outcome in Hsame.
    destruct (_sddnode_to_dot_int litnamemap true root ∅) as [[r1 V1]|e1],
             (_sddnode_to_dot_int litnamemap false root ∅) as [[r2 V2]|e2]; try done.
    simpl in Hsame. destruct Hsame as [_ Hr].
    destruct r1 as [s1|], r2 as [s2|]; try done. simpl in *. by injection Hr.
  - intros v. split; [done|]. split; [done|]. apply vtree_show_id_erased.
  - apply declares_same_of_erased.
Qed.

Lemma C7_show_id_is_cosmetic_witness :
  same_up_to_identity (_vtree_to_dot_int None true ex_vtree)
                      (_vtree_to_dot_int None false ex_vtree) /\
  omap declared (_vtree_to_dot_int None true ex_vtree) =
    omap declared (_vtree_to_dot_int None false ex_vtree) /\
  omap edge_of (_vtree_to_dot_int None true ex_vtree) =
    omap edge_of (_vtree_to_dot_int None false ex_vtree).
Proof.
  split; [reflexivity|].
  exact (proj2 (proj2 (proj2 (C7_show_id_is_cosmetic None))) _ _ eq_refl).
Defined.

(** C8: vtree rendering.  The export of a vtree succeeds.  For every node of
    the tree: a leaf is declared as a box whose label is its variable, or what
    [litnamemap] maps the variable to when it has an entry for it; a node with
    a child is declared as a point; and there is an edge to the left child and
    an edge to the right child.  Nothing else is exported: every box is the
    declaration of a leaf with that label, every point the declaration of a
    node with a child, and every edge goes from a node to its left or right
    child; an edge carries a head label, the child's position, exactly when
    [show_id] is set. *)
Theorem C8_vtree_rendering litnamemap show_id v t :
  t ∈ vnodes v ->
  exists s,
    vtree_to_dot_stmts (Some v) litnamemap show_id = Ok s /\
    vtree_to_dot (Some v) litnamemap show_id = Ok (dot_document "digraph vtree {" s) /\
    (vtree_left t = None -> vtree_right t = None ->
       VtreeLeafDecl (vtree_position t)
         (py_format (litnamemap_get litnamemap (PInt (vtree_var t)))) ∈ s) /\
    (is_Some (vtree_left t) \/ is_Some (vtree_right t) ->
       VtreePointDecl (vtree_position t) show_id ∈ s) /\
    (forall l, vtree_left t = Some l ->
       VtreeEdge (vtree_position t) (vtree_position l)
         (if show_id then Some (pretty (vtree_position l)) else None) ∈ s) /\
    (forall r, vtree_right t = Some r ->
       VtreeEdge (vtree_position t) (vtree_position r)
         (if show_id then Some ("     " +:+ pretty (vtree_position r)) else None) ∈ s) /\
    render (VtreeLeafDecl (vtree_position t) (pretty (vtree_var t))) =
      pretty (vtree_position t) +:+ " [label=" +:+ dq +:+ pretty (vtree_var t) +:+ dq
        +:+ ",shape=" +:+ dq +:+ "box" +:+ dq +:+ "];" /\
    render (VtreePointDecl (vtree_position t) false) =
      pretty (vtree_position t) +:+ " [shape=" +:+ dq +:+ "point" +:+ dq +:+ "];" /\
    (vtree_left t = None -> vtree_right t = None ->
       (litnamemap = None ->
          VtreeLeafDecl (vtree_position t) (pretty (vtree_var t)) ∈ s) /\
       (forall m, litnamemap = Some m -> m !! PInt (vtree_var t) = None ->
          VtreeLeafDecl (vtree_position t) (pretty (vtree_var t)) ∈ s) /\
       (forall m name, litnamemap = Some m -> m !! PInt (vtree_var t) = Some name ->
          VtreeLeafDecl (vtree_position t) (py_format name) ∈ s)) /\
    (forall st, st ∈ s ->
       (show_id = true /\ (st = VtreeStartDecl \/ st = VtreeStartEdge (vtree_position v))) \/
       (exists u, u ∈ vnodes v /\
          (st = vtree_own_decl litnamemap show_id u \/
           (exists l, vtree_left u = Some l /\ st = vtree_left_edge show_id u l) \/
           (exists r, vtree_right u = Some r /\ st = vtree_right_edge show_id u r)))) /\
    (forall pos name, VtreeLeafDecl pos name ∈ s ->
       exists u, u ∈ vnodes v /\ vtree_left u = None /\ vtree_right u = None /\
         pos = vtree_position u /\
         name = match litnamemap with
                | Some m => match m !! PInt (vtree_var u) with
                            | Some mapped => py_format mapped
                            | None => pretty (vtree_var u)
                            end
                | None => pretty (vtree_var u)
                end) /\
    (forall pos b, VtreePointDecl pos b ∈ s ->
       b = show_id /\
       exists u, u ∈ vnodes v /\ (is_Some (vtree_left u) \/ is_Some (vtree_right u)) /\
         pos = vtree_position u) /\
    (forall pos child hl, VtreeEdge pos child hl ∈ s ->
       (is_Some hl <-> show_id = true) /\
       exists u c, u ∈ vnodes v /\ pos = vtree_position u /\ child = vtree_position c /\
         ((vtree_left u = Some c /\
           hl = if show_id then Some (pretty (vtree_position c)) else None) \/
          (vtree_right u = Some c /\
           hl = if show_id then Some ("     " +:+ pretty (vtree_position c)) else None))) /\
    (forall pos child h,
       render (VtreeEdge pos child (Some h)) =
         pretty pos +:+ " -> " +:+ pretty child +:+ " [arrowhead=none"
           +:+ (",headclip=true,headlabel=" +:+ dq +:+ h +:+ dq) +:+ "];" /\
       render (VtreeEdge pos child None) =
         pretty pos +:+ " -> " +:+ pretty child +:+ " [arrowhead=none];").
Proof.
  intros Ht.
  destruct (vtree_statements_of_subtree litnamemap show_id v t Ht) as (Hd & Hl & Hr).
  assert (exists pre, vtree_to_dot_stmts (Some v) litnamemap show_id =
                        Ok (pre ++ _vtree_to_dot_int litnamemap show_id v)%list /\
                      pre = if show_id
                            then [VtreeStartDecl; VtreeStartEdge (vtree_position v)]
                            else [])
    as (pre & Hpre & Hpre_eq).
  { destruct show_id; [by eexists [_; _]|by exists []]. }
  assert (forall st, st ∈ (pre ++ _vtree_to_dot_int litnamemap show_id v)%list ->
            (show_id = true /\
             (st = VtreeStartDecl \/ st = VtreeStartEdge (vtree_position v))) \/
            (exists u, u ∈ vnodes v /\
               (st = vtree_own_decl litnamemap show_id u \/
                (exists l, vtree_left u = Some l /\ st = vtree_left_edge show_id u l) \/
                (exists r, vtree_right u = Some r /\ st = vtree_right_edge show_id u r))))
    as Horigin.
  { intros st [Hst|Hst]%elem_of_app.
    - left. subst pre. destruct show_id; [|by apply elem_of_nil in Hst].
      split; [done|]. set_solver.
    - right. by apply vtree_statement_origin. }
  assert (vtree_left t = None -> vtree_right t = None ->
            VtreeLeafDecl (vtree_position t)
              (py_format (litnamemap_get litnamemap (PInt (vtree_var t))))
              ∈ (pre ++ _vtree_to_dot_int litnamemap show_id v)%list) as Hleaf.
  { intros Hnl Hnr. apply elem_of_app. right.
    unfold vtree_own_decl, vtree_is_leaf in Hd. by rewrite Hnl, Hnr in Hd. }
  exists (pre ++ _vtree_to_dot_int litnamemap show_id v)%list.
  split; [done|]. split; [unfold vtree_to_dot; by rewrite Hpre|].
  split; [exact Hleaf|].
  split.
  { intros Hsome. apply elem_of_app. right.
    unfold vtree_own_decl, vtree_is_leaf in Hd.
    destruct (vtree_left t), (vtree_right t); try done.
    destruct Hsome as [[? [=]]|[? [=]]]. }
  split; [intros l Hleft; apply elem_of_app; right; by apply Hl|].
  split; [intros r Hright; apply elem_of_app; right; by apply Hr|].
  split; [done|]. split; [done|].
  split.
  { intros Hnl Hnr. specialize (Hleaf Hnl Hnr). split; [|split].
    - intros ->. exact Hleaf.
    - intros m -> Hm. simpl in Hleaf. by rewrite Hm in Hleaf.
    - intros m name -> Hm. simpl in Hleaf. by rewrite Hm in Hleaf. }
  split; [exact Horigin|].
  split.
  { intros pos name Hin.
    destruct (Horigin _ Hin) as [(_ & [?|?])|(u & Hu & Hcase)]; [done|done|].
    destruct Hcase as [Hown|[(l & _ & ?)|(r & _ & ?)]]; [|done|done].
    unfold vtree_own_decl, vtree_is_leaf in Hown.
    destruct (vtree_left u) eqn:Hul; [done|].
    destruct (vtree_right u) eqn:Hur; [done|].
    injection Hown as -> ->. exists u. split; [done|]. split; [done|]. split; [done|].
    split; [done|].
    destruct litnamemap as [m|]; [|done]. simpl. by destruct (m !! PInt (vtree_var u)). }
  split.
  { intros pos b Hin.
    destruct (Horigin _ Hin) as [(_ & [?|?])|(u & Hu & Hcase)]; [done|done|].
    destruct Hcase as [Hown|[(l & _ & ?)|(r & _ & ?)]]; [|done|done].
    unfold vtree_own_decl, vtree_is_leaf in Hown.
    destruct (vtree_left u) eqn:Hul; [|destruct (vtree_right u) eqn:Hur; [|done]];
      injection Hown as -> ->; (split; [done|]); exists u;
      (split; [done|]); (split; [|done]).
    - left. by rewrite Hul.
    - right. by rewrite Hur. }
  split; [|done].
  intros pos child hl Hin.
  destruct (Horigin _ Hin) as [(_ & [?|?])|(u & Hu & Hcase)]; [done|done|].
  destruct Hcase as [Hown|[(l & Hul & Hedge)|(r & Hur & Hedge)]].
  - unfold vtree_own_decl in Hown. by destruct (vtree_is_leaf u).
  - injection Hedge as -> -> ->. split.
    + destruct show_id; split; try done.
    + exists u, l. split; [done|]. split; [done|]. split; [done|]. by left.
  - injection Hedge as -> -> ->. split.
    + destruct show_id; split; try done.
    + exists u, r. split; [done|]. split; [done|]. split; [done|]. by right.
Qed.

Lemma C8_vtree_rendering_witness :
  VtreeNode 0 1 None None ∈ vnodes ex_vtree /\
  ex_litnamemap !! PInt 1 = Some (PStr "rain") /\
  exists s,
    vtree_to_dot_stmts (Some ex_vtree) (Some ex_litnamemap) true = Ok s /\
    VtreeLeafDecl 0 "rain" ∈ s /\
    (forall pos child hl, VtreeEdge pos child hl ∈ s -> is_Some hl <-> true = true).
Proof.
  assert (VtreeNode 0 1 None None ∈ vnodes ex_vtree) as Hin by (right; left).
  split; [exact Hin|]. split; [reflexivity|].
  destruct (C8_vtree_rendering (Some ex_litnamemap) true ex_vtree
              (VtreeNode 0 1 None None) Hin)
    as (s & Hs & _ & _ & _ & _ & _ & _ & _ & Hleaf & _ & _ & _ & Hedge & _).
  exists s. split; [exact Hs|]. split.
  - exact (proj2 (proj2 (Hleaf eq_refl eq_refl)) ex_litnamemap (PStr "rain")
             eq_refl eq_refl).
  - intros pos child hl Hst. exact (proj1 (Hedge pos child hl Hst)).
Defined.

(** C9: a node that is none of the four variants.  The traversal of such a
    node, when it is not yet visited, returns [None] where a statement list
    is expected, and [sdd_to_dot] fails on it with the [TypeError] of
    [s += None]; the export of a consistent circuit that has such a node
    anywhere below its root fails in the same way.  When every node below the
    root is one of the four variants the traversal returns a statement list
    from every visited set, and [sdd_to_dot] returns a document. *)
Theorem C9_fall_through litnamemap show_id :
  (forall id vt V, id ∉ V ->
     _sddnode_to_dot_int litnamemap show_id (SddOther id vt) V = Ok (None, {[id]} ∪ V)) /\
  (forall id vt,
     sdd_to_dot (Some (SddOther id vt)) litnamemap show_id = Raise NoneType_not_iterable) /\
  (forall root, consistent root -> ~ all_variants root ->
     sdd_to_dot (Some root) litnamemap show_id = Raise NoneType_not_iterable) /\
  (forall root, all_variants root ->
     (forall V, exists s V',
        _sddnode_to_dot_int litnamemap show_id root V = Ok (Some s, V')) /\
     exists s, sdd_to_dot (Some root) litnamemap show_id =
                 Ok (dot_document "digraph sdd {" s)).
Proof.
  split; [intros id vt V Hin; by apply visit_other|].
  split; [intros id vt; unfold sdd_to_dot, sdd_to_dot_stmts;
          by rewrite visit_other by set_solver|].
  split.
  - intros root Hc Hnv. unfold sdd_to_dot, sdd_to_dot_stmts.
    destruct (_sddnode_to_dot_int litnamemap show_id root ∅) as [[[s|] V']|e] eqn:Hrun.
    + exfalso. apply Hnv. intros m Hm.
      destruct (visit_is_complete litnamemap show_id root Hc root ∅ ∅ s V' Hrun)
        as (_ & Hids & Hem);
        [apply nodes_self|by intros k _ ?%not_elem_of_empty|set_solver|].
      apply Hem; [done| |set_solver]. apply Hids, elem_of_node_ids. by exists m.
    + done.
    + simpl. by rewrite (visit_raise _ _ _ _ _ Hrun).
  - intros root Hv. split; [by apply visit_total|].
    destruct (visit_total litnamemap show_id root Hv ∅) as (s & V' & Hrun).
    exists s. unfold sdd_to_dot, sdd_to_dot_stmts. by rewrite Hrun.
Qed.

Lemma C9_fall_through_witness :
  (4 ∉ (∅ : gset Z)) /\
  _sddnode_to_dot_int None false (SddOther 4 None) ∅ = Ok (None, {[4]} ∪ ∅) /\
  consistent ex_broken /\ ~ all_variants ex_broken /\
  sdd_to_dot (Some ex_broken) None false = Raise NoneType_not_iterable /\
  all_variants ex_root /\
  exists s, sdd_to_dot (Some ex_root) None false = Ok (dot_document "digraph sdd {" s).
Proof.
  assert (consistent ex_broken) as Hc by solve_consistent.
  assert (~ all_variants ex_broken) as Hnv.
  { intros Hv. specialize (Hv (SddOther 4 None)). simpl in Hv.
    discriminate Hv. right. right. left. }
  pose proof (C9_fall_through None false) as (H1 & _ & H3 & H4).
  split; [set_solver|]. split; [apply H1; set_solver|].
  split; [exact Hc|]. split; [exact Hnv|]. split; [by apply H3|].
  split; [exact ex_root_variants|].
  exact (proj2 (H4 ex_root ex_root_variants)).
Defined.

(** C10: the [litnamemap] lookup is applied to the preliminary name of every
    node.  The label is the formatted result of looking up the preliminary
    name (the given name, else the glyph of a constant, else the literal),
    which stays as it is when the map has no entry for it.  So an entry keyed
    by the True glyph, the False glyph or ["+"] replaces the label in the
    declaration of a True, False or Decision node, as an entry keyed by the
    integer of a literal replaces the label of a Literal node.  This holds for
    the root and for every node below it: in the export of a consistent
    circuit of the four variants, the one declaration of a True, False,
    Literal or Decision node anywhere in the circuit carries what the map
    gives for its key, and the key itself when the map has no entry. *)
Theorem C10_litnamemap_applies_to_every_label (m : gmap pyval pyval) show_id :
  (forall node name,
     _format_sddnode_label node (Some name) (Some m) show_id =
       py_format (default name (m !! name))) /\
  (forall id vt v, m !! PStr "⟙" = Some v ->
     sdd_to_dot_stmts (Some (SddTrue id vt)) (Some m) show_id =
       Ok [SddLeafDecl id (py_format v) (sdd_xlabel show_id (SddTrue id vt))]) /\
  (forall id vt v, m !! PStr "⟘" = Some v ->
     sdd_to_dot_stmts (Some (SddFalse id vt)) (Some m) show_id =
       Ok [SddLeafDecl id (py_format v) (sdd_xlabel show_id (SddFalse id vt))]) /\
  (forall id vt l v, m !! PInt l = Some v ->
     sdd_to_dot_stmts (Some (SddLiteral id vt l)) (Some m) show_id =
       Ok [SddLeafDecl id (py_format v) (sdd_xlabel show_id (SddLiteral id vt l))]) /\
  (forall id vt els v s, m !! PStr "+" = Some v ->
     sdd_to_dot_stmts (Some (SddDecision id vt els)) (Some m) show_id = Ok s ->
     head s = Some (SddDecisionDecl id (py_format v)
                      (sdd_xlabel show_id (SddDecision id vt els)))) /\
  (forall root, consistent root -> all_variants root ->
     exists s,
       sdd_to_dot_stmts (Some root) (Some m) show_id = Ok s /\
       (forall id vt v, SddTrue id vt ∈ nodes root -> m !! PStr "⟙" = Some v ->
          SddLeafDecl id (py_format v) (sdd_xlabel show_id (SddTrue id vt)) ∈ s /\
          forall st, st ∈ s -> declared st = Some (NId id) ->
            st = SddLeafDecl id (py_format v) (sdd_xlabel show_id (SddTrue id vt))) /\
       (forall id vt v, SddFalse id vt ∈ nodes root -> m !! PStr "⟘" = Some v ->
          SddLeafDecl id (py_format v) (sdd_xlabel show_id (SddFalse id vt)) ∈ s /\
          forall st, st ∈ s -> declared st = Some (NId id) ->
            st = SddLeafDecl id (py_format v) (sdd_xlabel show_id (SddFalse id vt))) /\
       (forall id vt l v, SddLiteral id vt l ∈ nodes root -> m !! PInt l = Some v ->
          SddLeafDecl id (py_format v) (sdd_xlabel show_id (SddLiteral id vt l)) ∈ s /\
          forall st, st ∈ s -> declared st = Some (NId id) ->
            st = SddLeafDecl id (py_format v) (sdd_xlabel show_id (SddLiteral id vt l))) /\
       (forall id vt els v, SddDecision id vt els ∈ nodes root -> m !! PStr "+" = Some v ->
          SddDecisionDecl id (py_format v) (sdd_xlabel show_id (SddDecision id vt els)) ∈ s /\
          forall st, st ∈ s -> declared st = Some (NId id) ->
            st = SddDecisionDecl id (py_format v)
                   (sdd_xlabel show_id (SddDecision id vt els))) /\
       (forall n key, n ∈ nodes root ->
          key = match n with
                | SddTrue _ _ => PStr "⟙"
                | SddFalse _ _ => PStr "⟘"
                | SddLiteral _ _ l => PInt l
                | _ => PStr "+"
                end ->
          m !! key = None ->
          forall st, st ∈ s -> declared st = Some (NId (node_id n)) ->
            st = (if is_decision n then SddDecisionDecl else SddLeafDecl)
                   (node_id n) (py_format key) (sdd_xlabel show_id n))).
Proof.
  split; [done|].
  split; [|split; [|split; [|split]]].
  - intros id vt v Hv. unfold sdd_to_dot_stmts.
    rewrite visit_leaf by set_solver. simpl.
    unfold _format_sddnode_label. simpl. by rewrite Hv.
  - intros id vt v Hv. unfold sdd_to_dot_stmts.
    rewrite visit_leaf by set_solver. simpl.
    unfold _format_sddnode_label. simpl. by rewrite Hv.
  - intros id vt l v Hv. unfold sdd_to_dot_stmts.
    rewrite visit_leaf by set_solver. simpl.
    unfold _format_sddnode_label. simpl. by rewrite Hv.
  - intros id vt els v s Hv. unfold sdd_to_dot_stmts.
    rewrite visit_decision by set_solver. unfold mbind, result_bind.
    destruct (sdd_elements_to_dot _ _ _ _ _) as [[se V']|e]; [|done]. simpl.
    intros [= <-]. simpl. unfold _format_sddnode_label. simpl. by rewrite Hv.
  - intros root Hc Hvar.
    destruct (export_node_declaration (Some m) show_id root Hc Hvar) as (s & Hs & Hdecl).
    exists s. split; [done|].
    split; [|split; [|split; [|split]]].
    + intros id vt v Hn Hv.
      destruct (Hdecl (SddTrue id vt) _ Hn eq_refl) as (Hin & _ & Huniq).
      simpl in Hin, Huniq. unfold _format_sddnode_label in Hin, Huniq.
      simpl in Hin, Huniq. rewrite Hv in Hin, Huniq. by split.
    + intros id vt v Hn Hv.
      destruct (Hdecl (SddFalse id vt) _ Hn eq_refl) as (Hin & _ & Huniq).
      simpl in Hin, Huniq. unfold _format_sddnode_label in Hin, Huniq.
      simpl in Hin, Huniq. rewrite Hv in Hin, Huniq. by split.
    + intros id vt l v Hn Hv.
      destruct (Hdecl (SddLiteral id vt l) _ Hn eq_refl) as (Hin & _ & Huniq).
      simpl in Hin, Huniq. unfold _format_sddnode_label in Hin, Huniq.
      simpl in Hin, Huniq. rewrite Hv in Hin, Huniq. by split.
    + intros id vt els v Hn Hv.
      destruct (Hdecl (SddDecision id vt els) _ Hn eq_refl) as (Hin & _ & Huniq).
      simpl in Hin, Huniq. unfold _format_sddnode_label in Hin, Huniq.
      simpl in Hin, Huniq. rewrite Hv in Hin, Huniq. by split.
    + intros n key Hn -> Hnone st Hst Hd.
      pose proof (Hvar n Hn) as Hisv.
      destruct n as [id vt|id vt|id vt l|id vt els|id vt]; [| | | |done];
        destruct (Hdecl _ _ Hn eq_refl) as (_ & _ & Huniq);
        rewrite (Huniq st Hst Hd); simpl; unfold _format_sddnode_label; simpl;
        by rewrite Hnone.
Qed.

Lemma C10_litnamemap_applies_to_every_label_witness :
  ex_litnamemap !! PStr "⟙" = Some (PStr "T") /\
  sdd_to_dot_stmts (Some (SddTrue 0 None)) (Some ex_litnamemap) false =
    Ok [SddLeafDecl 0 "T" None] /\
  ex_litnamemap !! PStr "⟘" = Some (PStr "F") /\
  sdd_to_dot_stmts (Some (SddFalse 0 None)) (Some ex_litnamemap) false =
    Ok [SddLeafDecl 0 "F" None] /\
  ex_litnamemap !! PStr "+" = Some (PStr "or") /\
  (forall s,
     sdd_to_dot_stmts (Some ex_root) (Some ex_litnamemap) false = Ok s ->
     head s = Some (SddDecisionDecl 7 "or" None)) /\
  consistent ex_labelled /\ all_variants ex_labelled /\
  SddTrue 0 None ∈ nodes ex_labelled /\
  SddFalse 8 None ∈ nodes ex_labelled /\
  SddLiteral 2 None 1 ∈ nodes ex_labelled /\
  SddDecision 6 None [(SddLiteral 3 None 2, SddTrue 0 None);
                      (SddLiteral 4 None (-2), SddFalse 8 None)] ∈ nodes ex_labelled /\
  ex_litnamemap !! PInt 1 = Some (PStr "rain") /\
  exists s,
    sdd_to_dot_stmts (Some ex_labelled) (Some ex_litnamemap) false = Ok s /\
    SddLeafDecl 0 "T" None ∈ s /\
    SddLeafDecl 8 "F" None ∈ s /\
    SddLeafDecl 2 "rain" None ∈ s /\
    SddDecisionDecl 6 "or" None ∈ s /\
    (forall st, st ∈ s -> declared st = Some (NId 6) -> st = SddDecisionDecl 6 "or" None).
Proof.
  pose proof (C10_litnamemap_applies_to_every_label ex_litnamemap false)
    as (_ & HT & HF & _ & HD & Hbelow).
  split; [reflexivity|]. split; [exact (HT 0 None (PStr "T") eq_refl)|].
  split; [reflexivity|]. split; [exact (HF 0 None (PStr "F") eq_refl)|].
  split; [reflexivity|].
  split; [intros s; exact (HD 7 None _ (PStr "or") s eq_refl)|].
  assert (consistent ex_labelled) as Hc by solve_consistent.
  assert (all_variants ex_labelled) as Hv by solve_all_variants.
  assert (SddTrue 0 None ∈ nodes ex_labelled) as HnT by (simpl; set_solver).
  assert (SddFalse 8 None ∈ nodes ex_labelled) as HnF by (simpl; set_solver).
  assert (SddLiteral 2 None 1 ∈ nodes ex_labelled) as HnL by (simpl; set_solver).
  assert (SddDecision 6 None [(SddLiteral 3 None 2, SddTrue 0 None);
                              (SddLiteral 4 None (-2), SddFalse 8 None)]
            ∈ nodes ex_labelled) as HnD by (simpl; set_solver).
  split; [exact Hc|]. split; [exact Hv|]. split; [exact HnT|]. split; [exact HnF|].
  split; [exact HnL|]. split; [exact HnD|]. split; [reflexivity|].
  destruct (Hbelow ex_labelled Hc Hv) as (s & Hs & HbT & HbF & HbL & HbD & _).
  exists s. split; [exact Hs|].
  split; [exact (proj1 (HbT 0 None (PStr "T") HnT eq_refl))|].
  split; [exact (proj1 (HbF 8 None (PStr "F") HnF eq_refl))|].
  split; [exact (proj1 (HbL 2 None 1 (PStr "rain") HnL eq_refl))|].
  exact (HbD 6 None _ (PStr "or") HnD eq_refl).
Defined.

Local Open Scope Qc_scope.

(** ** The memoized evaluation computes the recursive equations *)

Lemma elem_of_literals l n :
  l ∈ literals n <-> exists id vt, SddLiteral id vt l ∈ nodes n.
Proof.
  unfold literals. rewrite list_elem_of_omap. split.
  - intros (m & Hm & Hl). destruct m; simplify_eq/=. eauto.
  - intros (id & vt & Hm). by exists (SddLiteral id vt l).
Qed.

Lemma literals_sub n m : m ∈ nodes n -> literals m ⊆ literals n.
Proof.
  intros Hm l. rewrite !elem_of_literals. intros (id & vt & Hl).
  exists id, vt. by eapply nodes_trans.
Qed.

Lemma complete_for_sub weights n m :
  complete_for weights n -> m ∈ nodes n -> complete_for weights m.
Proof. intros Hc Hm l Hl. apply Hc. by eapply literals_sub. Qed.

Section wmc_traversal.
Context (weights : gmap Z Qc).

Lemma wmc_visit_on_path path n memo :
  node_id n ∈ path -> wmc_visit weights path n memo = Failed MalformedCircuit.
Proof. intros Hin. destruct n; simpl in *; by rewrite decide_True. Qed.

Lemma wmc_visit_memoized path n memo v :
  node_id n ∉ path -> memo !! node_id n = Some v ->
  wmc_visit weights path n memo = Counted (v, memo).
Proof. intros Hin Hm. destruct n; simpl in *; rewrite decide_False by done; by rewrite Hm. Qed.

Lemma wmc_visit_decision path id vt els memo :
  id ∉ path -> memo !! id = None ->
  wmc_visit weights path (SddDecision id vt els) memo =
    '(v, memo') ← wmc_elements (wmc_visit weights ({[id]} ∪ path)) els memo;
    Counted (v, <[id := v]> memo').
Proof. intros Hin Hm. simpl. rewrite decide_False by done. by rewrite Hm. Qed.

Lemma wmc_elements_cons rec p s rest memo :
  wmc_elements rec ((p, s) :: rest) memo =
    '(vp, memo1) ← rec p memo;
    '(vs, memo2) ← rec s memo1;
    '(vr, memo3) ← wmc_elements rec rest memo2;
    Counted (vp * vs + vr, memo3).
Proof. reflexivity. Qed.

Context (root : SddNode) (Hroot : consistent root).

Abbreviation memo_ok := (memo_ok weights root).

Abbreviation wmc_visit_correct := (wmc_visit_correct weights root).

Lemma memo_ok_insert memo n :
  n ∈ nodes root -> memo_ok memo -> memo_ok (<[node_id n := value weights n]> memo).
Proof.
  intros Hn Hok m v Hm. destruct (decide (node_id n = node_id m)) as [Heq|Hne].
  - rewrite Heq, lookup_insert_eq. intros [= <-].
    by rewrite (Hroot n m Hn Hm Heq).
  - rewrite lookup_insert_ne by done. by apply Hok.
Qed.

Lemma wmc_elements_correct els :
  Forall (fun e => wmc_visit_correct e.1 /\ wmc_visit_correct e.2) els ->
  forall path memo,
    (forall e, e ∈ els ->
       (e.1 ∈ nodes root /\ all_variants e.1 /\ complete_for weights e.1 /\
        forall i, i ∈ path -> i ∉ node_ids e.1) /\
       (e.2 ∈ nodes root /\ all_variants e.2 /\ complete_for weights e.2 /\
        forall i, i ∈ path -> i ∉ node_ids e.2)) ->
    memo_ok memo ->
    exists memo',
      wmc_elements (wmc_visit weights path) els memo =
        Counted (Qcsum (map (fun '(p, s) => value weights p * value weights s) els), memo')
      /\ memo_ok memo'.
Proof.
  induction 1 as [|[p s] rest [IHp IHs] _ IH]; intros path memo Hels Hok.
  - by exists memo.
  - destruct (Hels (p, s) ltac:(left)) as [(Hp1 & Hp2 & Hp3 & Hp4) (Hs1 & Hs2 & Hs3 & Hs4)].
    simpl in *.
    destruct (IHp path memo Hp1 Hp2 Hp3 Hp4 Hok) as (memo1 & Hrp & Hok1).
    destruct (IHs path memo1 Hs1 Hs2 Hs3 Hs4 Hok1) as (memo2 & Hrs & Hok2).
    destruct (IH path memo2 ltac:(intros e He; apply Hels; by right) Hok2)
      as (memo3 & Hrr & Hok3).
    exists memo3. rewrite Hrp. simpl. rewrite Hrs. simpl. rewrite Hrr. done.
Qed.

Lemma wmc_visit_is_correct n : wmc_visit_correct n.
Proof.
  induction n as [id vt|id vt|id vt l|id vt els IH|id vt] using SddNode_nested_ind;
    intros path memo Hn Hv Hc Hpath Hok.
  all: assert (id ∉ path) as Hnp
    by (intros Hin; apply (Hpath _ Hin); apply node_ids_self).
  all: match goal with |- context [wmc_visit _ _ ?n _] => set (node := n) in * end.
  all: destruct (memo !! id) as [v|] eqn:Hmemo;
    [ exists memo; rewrite (wmc_visit_memoized path node memo v Hnp Hmemo);
      by rewrite (Hok node v Hn Hmemo) | ].
  4: {
    destruct (wmc_elements_correct els IH ({[id]} ∪ path) memo) as (memo' & Hrun & Hok');
      [|done|].
    { intros e He. destruct (nodes_child id vt els e He) as [H1 H2].
      destruct (consistent_child_id root id vt els e Hroot Hn He) as [Hi1 Hi2].
      split; (split; [by eapply nodes_trans|]); (split; [by eapply all_variants_sub|]);
        (split; [by eapply complete_for_sub|]);
        intros i [->%elem_of_singleton|Hi]%elem_of_union; try done;
        intros Hin; apply (Hpath i Hi); revert Hin; by apply node_ids_mono. }
    exists (<[id := value weights node]> memo').
    unfold node. rewrite wmc_visit_decision by done. rewrite Hrun. simpl.
    split; [done|]. by apply (memo_ok_insert memo' node). }
  4: { by specialize (Hv _ (nodes_self _)). }
  all: exists (<[id := value weights node]> memo); split;
    [|by apply (memo_ok_insert memo node)].
  all: unfold node; simpl; rewrite decide_False by done; rewrite Hmemo; try done.
  destruct (Hc l) as [w Hw]; [apply elem_of_literals; exists id, vt; left|].
  unfold weight_of. by rewrite Hw.
Qed.

Abbreviation memo_complete := (memo_complete weights root).

Abbreviation wmc_visit_needs_weights := (wmc_visit_needs_weights weights root).

Lemma memo_complete_insert memo n v :
  n ∈ nodes root -> complete_for weights n -> memo_complete memo ->
  memo_complete (<[node_id n := v]> memo).
Proof.
  intros Hn Hc Hok m Hm. destruct (decide (node_id n = node_id m)) as [Heq|Hne].
  - intros _. by rewrite <- (Hroot n m Hn Hm Heq).
  - rewrite lookup_insert_ne by done. by apply Hok.
Qed.

Lemma wmc_elements_needs_weights els :
  Forall (fun e => wmc_visit_needs_weights e.1 /\ wmc_visit_needs_weights e.2) els ->
  forall path memo v memo',
    wmc_elements (wmc_visit weights path) els memo = Counted (v, memo') ->
    (forall e, e ∈ els -> e.1 ∈ nodes root /\ e.2 ∈ nodes root) ->
    memo_complete memo ->
    (forall e, e ∈ els -> complete_for weights e.1 /\ complete_for weights e.2) /\
    memo_complete memo'.
Proof.
  induction 1 as [|[p s] rest [IHp IHs] _ IH]; intros path memo v memo' Hrun Hin Hok.
  - simpl in Hrun. injection Hrun as <- <-. split; [by intros e ?%elem_of_nil|done].
  - rewrite wmc_elements_cons in Hrun. unfold mbind, wmc_result_bind in Hrun.
    destruct (wmc_visit weights path p memo) as [[vp memo1]|] eqn:Hp; [|done].
    destruct (wmc_visit weights path s memo1) as [[vs memo2]|] eqn:Hs; [|done].
    destruct (wmc_elements _ rest memo2) as [[vr memo3]|] eqn:Hr; [|done].
    injection Hrun as <- <-. simpl in *.
    destruct (Hin (p, s) ltac:(left)) as [Hpn Hsn]. simpl in *.
    destruct (IHp _ _ _ _ Hp Hpn Hok) as [Hcp Hok1].
    destruct (IHs _ _ _ _ Hs Hsn Hok1) as [Hcs Hok2].
    destruct (IH _ _ _ _ Hr ltac:(intros e He; apply Hin; by right) Hok2) as [Hcr Hok3].
    split; [|done]. intros e [->|He]%elem_of_cons; [done|by apply Hcr].
Qed.

Lemma complete_for_decision id vt els :
  (forall e, e ∈ els -> complete_for weights e.1 /\ complete_for weights e.2) ->
  complete_for weights (SddDecision id vt els).
Proof.
  intros Hels l (i & v & Hl)%elem_of_literals.
  apply nodes_decision in Hl as [[=]|(e & He & [Hl|Hl])];
    destruct (Hels e He) as [H1 H2]; [apply H1|apply H2];
    apply elem_of_literals; eauto.
Qed.

Lemma wmc_visit_does_need_weights n : wmc_visit_needs_weights n.
Proof.
  induction n as [id vt|id vt|id vt l|id vt els IH|id vt] using SddNode_nested_ind;
    intros path memo v memo' Hrun Hn Hok.
  all: match goal with |- context [complete_for _ ?n] => set (node := n) in * end.
  all: destruct (decide (id ∈ path)) as [Hp|Hp];
    [by rewrite (wmc_visit_on_path path node memo Hp) in Hrun|].
  all: destruct (memo !! id) as [v0|] eqn:Hmemo;
    [ rewrite (wmc_visit_memoized path node memo v0 Hp Hmemo) in Hrun;
      injection Hrun as <- <-; split; [|done]; apply Hok; [done|]; simpl; by rewrite Hmemo | ].
  4: {
    unfold node in Hrun. rewrite wmc_visit_decision in Hrun by done.
    unfold mbind, wmc_result_bind in Hrun.
    destruct (wmc_elements _ els memo) as [[v1 memo1]|] eqn:Hr; [|done].
    injection Hrun as <- <-.
    destruct (wmc_elements_needs_weights els IH _ _ _ _ Hr) as [Hels Hok1]; [|done|].
    { intros e He. destruct (nodes_child id vt els e He).
      split; by eapply nodes_trans. }
    assert (complete_for weights node) as Hc by (by apply complete_for_decision).
    split; [done|]. by apply (memo_complete_insert memo1 node). }
  4: { unfold node in Hrun. simpl in Hrun. rewrite decide_False in Hrun by done.
       by rewrite Hmemo in Hrun. }
  all: unfold node in Hrun; simpl in Hrun; rewrite decide_False in Hrun by done;
    rewrite Hmemo in Hrun.
  3: { destruct (weights !! l) as [w|] eqn:Hw; [|done]. simpl in Hrun.
       injection Hrun as <- <-.
       assert (complete_for weights node) as Hc.
       { intros l' (i & v & Hl)%elem_of_literals. simpl in Hl.
         apply list_elem_of_singleton in Hl as [= _ _ ->]. by rewrite Hw. }
       split; [done|]. by apply (memo_complete_insert memo node). }
  all: simpl in Hrun; injection Hrun as <- <-;
    assert (complete_for weights node) as Hc
      by (intros l' (i & v & Hl)%elem_of_literals; simpl in Hl;
          by apply list_elem_of_singleton in Hl);
    split; [done|]; by apply (memo_complete_insert memo node).
Qed.

Abbreviation wmc_visit_not_malformed := (wmc_visit_not_malformed weights root).

Lemma wmc_elements_not_malformed els :
  Forall (fun e => wmc_visit_not_malformed e.1 /\ wmc_visit_not_malformed e.2) els ->
  forall path memo,
    (forall e, e ∈ els ->
       (e.1 ∈ nodes root /\ all_variants e.1 /\ forall i, i ∈ path -> i ∉ node_ids e.1) /\
       (e.2 ∈ nodes root /\ all_variants e.2 /\ forall i, i ∈ path -> i ∉ node_ids e.2)) ->
    wmc_elements (wmc_visit weights path) els memo ≠ Failed MalformedCircuit.
Proof.
  induction 1 as [|[p s] rest [IHp IHs] _ IH]; intros path memo Hels; [done|].
  destruct (Hels (p, s) ltac:(left)) as [(Hp1 & Hp2 & Hp3) (Hs1 & Hs2 & Hs3)].
  rewrite wmc_elements_cons. unfold mbind, wmc_result_bind. simpl in *.
  destruct (wmc_visit weights path p memo) as [[vp memo1]|ep] eqn:Hp;
    [|intros [= ->]; by eapply IHp].
  destruct (wmc_visit weights path s memo1) as [[vs memo2]|es] eqn:Hs;
    [|intros [= ->]; by eapply IHs].
  destruct (wmc_elements _ rest memo2) as [[vr memo3]|er] eqn:Hr; [done|].
  intros [= ->]. eapply IH; [|done]. intros e He. apply Hels. by right.
Qed.

Lemma wmc_visit_is_not_malformed n : wmc_visit_not_malformed n.
Proof.
  induction n as [id vt|id vt|id vt l|id vt els IH|id vt] using SddNode_nested_ind;
    intros path memo Hn Hv Hpath.
  all: assert (id ∉ path) as Hnp
    by (intros Hin; apply (Hpath _ Hin); apply node_ids_self).
  all: match goal with |- context [wmc_visit _ _ ?n _] => set (node := n) in * end.
  all: destruct (memo !! id) as [v|] eqn:Hmemo;
    [ by rewrite (wmc_visit_memoized path node memo v Hnp Hmemo) | ].
  4: {
    unfold node. rewrite wmc_visit_decision by done. unfold mbind, wmc_result_bind.
    destruct (wmc_elements _ els memo) as [[v1 memo1]|e1] eqn:Hr; [done|].
    intros [= ->]. eapply (wmc_elements_not_malformed els IH); [|done].
    intros e He. destruct (nodes_child id vt els e He) as [H1 H2].
    destruct (consistent_child_id root id vt els e Hroot Hn He) as [Hi1 Hi2].
    split; (split; [by eapply nodes_trans|]); (split; [by eapply all_variants_sub|]);
      intros i [->%elem_of_singleton|Hi]%elem_of_union; try done;
      intros Hin; apply (Hpath i Hi); revert Hin; by apply node_ids_mono. }
  4: { by specialize (Hv _ (nodes_self _)). }
  all: unfold node; simpl; rewrite decide_False by done; rewrite Hmemo; try done.
  by destruct (weights !! l).
Qed.

End wmc_traversal.

(** ** Sums over assignments *)

Lemma Qcsum_cons x l : Qcsum (x :: l) = x + Qcsum l.
Proof. reflexivity. Qed.

Lemma Qcprod_cons x l : Qcprod (x :: l) = x * Qcprod l.
Proof. reflexivity. Qed.

Lemma Qcsum_app l1 l2 : Qcsum (l1 ++ l2) = Qcsum l1 + Qcsum l2.
Proof.
  unfold Qcsum. induction l1 as [|x l1 IH]; simpl; [ring|]. rewrite IH. ring.
Qed.

Lemma Qcprod_app l1 l2 : Qcprod (l1 ++ l2) = Qcprod l1 * Qcprod l2.
Proof.
  unfold Qcprod. induction l1 as [|x l1 IH]; simpl; [ring|]. rewrite IH. ring.
Qed.

Lemma assignment_sum_nil g : assignment_sum [] g = g [].
Proof. unfold assignment_sum, Qcsum. simpl. ring. Qed.

Lemma assignment_sum_cons v vs g :
  assignment_sum (v :: vs) g =
    assignment_sum vs (fun a => g (Zpos v :: a)) + assignment_sum vs (fun a => g (Zneg v :: a)).
Proof.
  unfold assignment_sum. simpl. rewrite fmap_app, Qcsum_app.
  by rewrite <- !list_fmap_compose.
Qed.

Lemma assignment_sum_ext vs g h :
  (forall a, a ∈ assignments vs -> g a = h a) ->
  assignment_sum vs g = assignment_sum vs h.
Proof.
  intros Hext. unfold assignment_sum. f_equal.
  apply list_fmap_ext. intros i a Hi. apply Hext. by eapply list_elem_of_lookup_2.
Qed.

Lemma assignment_sum_scale vs c g :
  assignment_sum vs (fun a => c * g a) = c * assignment_sum vs g.
Proof.
  unfold assignment_sum.
  induction (assignments vs) as [|a l IH]; [unfold Qcsum; simpl; ring|].
  rewrite !fmap_cons, !Qcsum_cons, IH. ring.
Qed.

Lemma assignment_sum_plus vs g h :
  assignment_sum vs (fun a => g a + h a) = assignment_sum vs g + assignment_sum vs h.
Proof.
  unfold assignment_sum.
  induction (assignments vs) as [|a l IH]; [unfold Qcsum; simpl; ring|].
  rewrite !fmap_cons, !Qcsum_cons, IH. ring.
Qed.

Lemma assignment_sum_zero vs : assignment_sum vs (fun _ => 0) = 0.
Proof.
  unfold assignment_sum.
  induction (assignments vs) as [|a l IH]; [done|].
  rewrite !fmap_cons, !Qcsum_cons, IH. ring.
Qed.

Lemma elem_of_assignments_cons a v vs :
  a ∈ assignments (v :: vs) <->
  exists a', a' ∈ assignments vs /\ (a = Zpos v :: a' \/ a = Zneg v :: a').
Proof.
  simpl. rewrite elem_of_app, !list_elem_of_fmap. naive_solver.
Qed.

Lemma assignment_literal a vs l :
  a ∈ assignments vs -> l ∈ a -> lit_var l ∈ vs /\ l ≠ 0%Z.
Proof.
  revert a. induction vs as [|v vs IH]; intros a Ha Hl.
  - simpl in Ha. apply list_elem_of_singleton in Ha as ->. by apply elem_of_nil in Hl.
  - apply elem_of_assignments_cons in Ha as (a' & Ha' & [->| ->]);
      apply elem_of_cons in Hl as [->|Hl];
      try (split; [left|done]);
      destruct (IH a' Ha' Hl); (split; [by right|done]).
Qed.

Lemma assignment_sum_app vs1 vs2 g :
  assignment_sum (vs1 ++ vs2) g =
    assignment_sum vs1 (fun a1 => assignment_sum vs2 (fun a2 => g (a1 ++ a2)%list)).
Proof.
  revert g. induction vs1 as [|v vs1 IH]; intros g.
  - by rewrite assignment_sum_nil.
  - simpl. rewrite !assignment_sum_cons, !IH. done.
Qed.

Lemma assignment_sum_product vs1 vs2 g g1 g2 :
  (forall a1 a2, a1 ∈ assignments vs1 -> a2 ∈ assignments vs2 ->
     g (a1 ++ a2)%list = g1 a1 * g2 a2) ->
  assignment_sum (vs1 ++ vs2) g = assignment_sum vs1 g1 * assignment_sum vs2 g2.
Proof.
  intros Hg. rewrite assignment_sum_app.
  rewrite (assignment_sum_ext vs1 _ (fun a1 => assignment_sum vs2 g2 * g1 a1)).
  - rewrite assignment_sum_scale. ring.
  - intros a1 Ha1.
    rewrite (assignment_sum_ext vs2 _ (fun a2 => g1 a1 * g2 a2)).
    + rewrite assignment_sum_scale. ring.
    + intros a2 Ha2. by apply Hg.
Qed.

Lemma assignment_sum_perm vs vs' g :
  vs ≡ₚ vs' -> (forall a a', a ≡ₚ a' -> g a = g a') ->
  assignment_sum vs g = assignment_sum vs' g.
Proof.
  intros Hperm. revert g.
  induction Hperm as [|x vs vs' _ IH|x y vs|vs1 vs2 vs3 _ IH1 _ IH2]; intros g Hg.
  - done.
  - rewrite !assignment_sum_cons.
    rewrite (IH (fun a => g (Zpos x :: a))), (IH (fun a => g (Zneg x :: a))); [done|..];
      intros a a' Ha; apply Hg; by constructor.
  - rewrite !assignment_sum_cons.
    rewrite (assignment_sum_ext vs (fun a => g (Zpos y :: Zneg x :: a))
               (fun a => g (Zneg x :: Zpos y :: a))) by (intros a _; apply Hg; constructor).
    rewrite (assignment_sum_ext vs (fun a => g (Zneg y :: Zpos x :: a))
               (fun a => g (Zpos x :: Zneg y :: a))) by (intros a _; apply Hg; constructor).
    rewrite (assignment_sum_ext vs (fun a => g (Zpos y :: Zpos x :: a))
               (fun a => g (Zpos x :: Zpos y :: a))) by (intros a _; apply Hg; constructor).
    rewrite (assignment_sum_ext vs (fun a => g (Zneg y :: Zneg x :: a))
               (fun a => g (Zneg x :: Zneg y :: a))) by (intros a _; apply Hg; constructor).
    ring.
  - rewrite (IH1 g Hg). by apply IH2.
Qed.

Lemma standard_wmc_as_sum weights n vs :
  standard_wmc weights n vs = assignment_sum vs (model_weight weights n).
Proof.
  unfold standard_wmc, assignment_sum, model_weight.
  induction (assignments vs) as [|a l IH]; [done|].
  rewrite filter_cons, fmap_cons, Qcsum_cons. destruct (eval n a) eqn:He.
  - rewrite decide_True by done. by rewrite fmap_cons, Qcsum_cons, IH.
  - rewrite decide_False by done. rewrite IH. ring.
Qed.

Lemma assignment_weight_app weights a1 a2 :
  assignment_weight weights (a1 ++ a2) =
    assignment_weight weights a1 * assignment_weight weights a2.
Proof. unfold assignment_weight. by rewrite fmap_app, Qcprod_app. Qed.

Lemma assignment_weight_perm weights a a' :
  a ≡ₚ a' -> assignment_weight weights a = assignment_weight weights a'.
Proof.
  unfold assignment_weight.
  induction 1 as [|x a a' _ IH|x y a|a1 a2 a3 _ IH1 _ IH2];
    rewrite ?fmap_cons, ?Qcprod_cons; [done|by rewrite IH|ring|congruence].
Qed.

(** When the weights of every variable sum to 1, the weights of all the
    assignments sum to 1. *)
Lemma assignment_sum_weights weights vs :
  (forall v, v ∈ vs -> weight_of weights (Zpos v) + weight_of weights (Zneg v) = 1) ->
  assignment_sum vs (assignment_weight weights) = 1.
Proof.
  induction vs as [|v vs IH]; intros Hn.
  - rewrite assignment_sum_nil. done.
  - rewrite assignment_sum_cons.
    rewrite (assignment_sum_ext vs _
               (fun a => weight_of weights (Zpos v) * assignment_weight weights a)) by done.
    rewrite (assignment_sum_ext vs (fun a => assignment_weight weights (Zneg v :: a))
               (fun a => weight_of weights (Zneg v) * assignment_weight weights a)) by done.
    rewrite !assignment_sum_scale, IH by (intros u Hu; apply Hn; by right).
    transitivity (weight_of weights (Zpos v) + weight_of weights (Zneg v));
      [ring|apply Hn; left].
Qed.

(** ** The Boolean function of a node depends on its literals only *)

Lemma eval_local n a a' :
  (forall l, l ∈ literals n -> l ∈ a <-> l ∈ a') -> eval n a = eval n a'.
Proof.
  induction n as [id vt|id vt|id vt l|id vt els IH|id vt] using SddNode_nested_ind;
    intros Hl; try done.
  - simpl. apply bool_decide_ext, Hl, elem_of_literals. exists id, vt. left.
  - simpl.
    assert (forall e, e ∈ els -> literals e.1 ⊆ literals (SddDecision id vt els) /\
                                 literals e.2 ⊆ literals (SddDecision id vt els)) as Hsub.
    { intros e He. destruct (nodes_child id vt els e He).
      split; by apply literals_sub. }
    assert (Forall (fun e => eval e.1 a = eval e.1 a' /\ eval e.2 a = eval e.2 a') els)
      as Hev.
    { rewrite Forall_forall in IH. apply Forall_forall. intros e He.
      destruct (IH e He) as [IH1 IH2]. destruct (Hsub e He) as [H1 H2].
      split; [apply IH1|apply IH2]; intros l Hin; apply Hl; auto. }
    clear -Hev. induction Hev as [|[p s] rest [Hp Hs] _ IHrest]; [done|].
    simpl in *. by rewrite Hp, Hs, IHrest.
Qed.

Lemma eval_perm n a a' : a ≡ₚ a' -> eval n a = eval n a'.
Proof. intros Hp. apply eval_local. intros l _. by rewrite Hp. Qed.

Lemma elem_of_vars v n :
  v ∈ vars n <-> exists l, l ∈ literals n /\ lit_var l = v.
Proof.
  unfold vars. rewrite elem_of_list_to_set, list_elem_of_fmap. naive_solver.
Qed.

Lemma vars_sub n m : m ∈ nodes n -> vars m ⊆ vars n.
Proof.
  intros Hm v. rewrite !elem_of_vars. intros (l & Hl & <-).
  exists l. split; [|done]. by eapply literals_sub.
Qed.

(** Appending an assignment of other variables does not change the value. *)
Lemma eval_app_l n a1 a2 vs2 :
  a2 ∈ assignments vs2 -> (forall v, v ∈ vs2 -> v ∉ vars n) ->
  eval n (a1 ++ a2) = eval n a1.
Proof.
  intros Ha2 Hdisj. apply eval_local. intros l Hl. rewrite elem_of_app.
  split; [|by left]. intros [?|Hin]; [done|].
  destruct (assignment_literal a2 vs2 l Ha2 Hin) as [Hv _].
  exfalso. apply (Hdisj _ Hv). apply elem_of_vars. by exists l.
Qed.

Lemma eval_app_r n a1 a2 vs1 :
  a1 ∈ assignments vs1 -> (forall v, v ∈ vs1 -> v ∉ vars n) ->
  eval n (a1 ++ a2) = eval n a2.
Proof.
  intros Ha1 Hdisj. apply eval_local. intros l Hl. rewrite elem_of_app.
  split; [|by right]. intros [Hin|?]; [|done].
  destruct (assignment_literal a1 vs1 l Ha1 Hin) as [Hv _].
  exfalso. apply (Hdisj _ Hv). apply elem_of_vars. by exists l.
Qed.

(** ** The recursive equations compute the standard weighted model count *)

Lemma model_weight_perm weights n a a' :
  a ≡ₚ a' -> model_weight weights n a = model_weight weights n a'.
Proof.
  intros Hp. unfold model_weight.
  by rewrite (eval_perm n a a' Hp), (assignment_weight_perm weights a a' Hp).
Qed.

Lemma element_weight_perm weights e a a' :
  a ≡ₚ a' -> element_weight weights e a = element_weight weights e a'.
Proof.
  intros Hp. unfold element_weight, eval_element.
  by rewrite (eval_perm e.1 a a' Hp), (eval_perm e.2 a a' Hp),
    (assignment_weight_perm weights a a' Hp).
Qed.

(** Decomposability turns the product of two counts into the count of the
    conjunction. *)
Lemma element_count_product weights e :
  vars e.1 ## vars e.2 ->
  assignment_sum (elements (vars e.1)) (model_weight weights e.1) *
  assignment_sum (elements (vars e.2)) (model_weight weights e.2) =
  assignment_sum (elements (vars e.1 ∪ vars e.2)) (element_weight weights e).
Proof.
  intros Hdisj. symmetry.
  rewrite (assignment_sum_perm _ (elements (vars e.1) ++ elements (vars e.2)))
    by (by apply elements_disj_union || apply element_weight_perm).
  apply assignment_sum_product. intros a1 a2 Ha1 Ha2.
  unfold element_weight, eval_element, model_weight.
  rewrite (eval_app_l e.1 a1 a2 (elements (vars e.2)) Ha2)
    by (intros v Hv%elem_of_elements; set_solver).
  rewrite (eval_app_r e.2 a1 a2 (elements (vars e.1)) Ha1)
    by (intros v Hv%elem_of_elements; set_solver).
  rewrite assignment_weight_app.
  destruct (eval e.1 a1), (eval e.2 a2); simpl; ring.
Qed.

(** Variables that an element does not mention do not change its count when
    their weights sum to 1. *)
Lemma element_count_gap weights e (V : gset positive) :
  vars e.1 ∪ vars e.2 ⊆ V ->
  (forall v, v ∈ V -> v ∉ vars e.1 -> v ∉ vars e.2 ->
     weight_of weights (Zpos v) + weight_of weights (Zneg v) = 1) ->
  assignment_sum (elements V) (element_weight weights e) =
  assignment_sum (elements (vars e.1 ∪ vars e.2)) (element_weight weights e).
Proof.
  intros Hsub Hnorm. set (U := vars e.1 ∪ vars e.2) in *.
  rewrite (assignment_sum_perm (elements V) (elements U ++ elements (V ∖ U)));
    [|rewrite (union_difference_L U V Hsub) at 1; apply elements_disj_union; set_solver
     |apply element_weight_perm].
  rewrite (assignment_sum_product _ _ _ (element_weight weights e) (assignment_weight weights)).
  - rewrite assignment_sum_weights; [ring|].
    intros v Hv%elem_of_elements. apply Hnorm; set_solver.
  - intros a1 a2 Ha1 Ha2. unfold element_weight, eval_element.
    rewrite (eval_app_l e.1 a1 a2 (elements (V ∖ U)) Ha2)
      by (intros v Hv%elem_of_elements; set_solver).
    rewrite (eval_app_l e.2 a1 a2 (elements (V ∖ U)) Ha2)
      by (intros v Hv%elem_of_elements; set_solver).
    rewrite assignment_weight_app.
    destruct (eval e.1 a1 && eval e.2 a1); ring.
Qed.

Lemma Qcsum_assignment_sum {A} vs (G : A -> list Z -> Qc) (l : list A) :
  Qcsum (map (fun x => assignment_sum vs (G x)) l) =
  assignment_sum vs (fun a => Qcsum (map (fun x => G x a) l)).
Proof.
  induction l as [|x l IH].
  - simpl. by rewrite assignment_sum_zero.
  - simpl map. rewrite Qcsum_cons, IH, <- assignment_sum_plus.
    apply assignment_sum_ext. intros a _. by rewrite Qcsum_cons.
Qed.

(** Determinism: at most one element is satisfied, so the weights of the
    elements add up to the weight of the node. *)
Lemma exclusive_elements_sum weights els a :
  (length (filter (fun e => eval_element e a = true) els) <= 1)%nat ->
  Qcsum (map (fun e => element_weight weights e a) els) =
  if existsb (fun e => eval_element e a) els then assignment_weight weights a else 0.
Proof.
  induction els as [|e els IH]; intros Hex; [done|].
  simpl map. rewrite Qcsum_cons. simpl existsb. rewrite filter_cons in Hex.
  unfold element_weight at 1. destruct (eval_element e a) eqn:He; simpl.
  - rewrite decide_True in Hex by done. simpl in Hex.
    assert (filter (fun e => eval_element e a = true) els = []) as Hnone
      by (apply nil_length_inv; lia).
    rewrite IH by (rewrite Hnone; simpl; lia).
    assert (existsb (fun e' => eval_element e' a) els = false) as ->; [|ring].
    apply not_true_is_false. intros (e' & Hin & He')%existsb_exists.
    apply list_elem_of_In in Hin.
    assert (e' ∈ filter (fun e => eval_element e a = true) els) as Hin'
      by (by apply list_elem_of_filter).
    rewrite Hnone in Hin'. by apply elem_of_nil in Hin'.
  - rewrite decide_False in Hex by done. rewrite IH by done. ring.
Qed.

Lemma eval_decision id vt els a :
  eval (SddDecision id vt els) a = existsb (fun e => eval_element e a) els.
Proof.
  simpl. induction els as [|[p s] els IH]; [done|]. simpl. by rewrite IH.
Qed.

Lemma value_decision weights id vt els :
  value weights (SddDecision id vt els) =
    Qcsum (map (fun e => value weights e.1 * value weights e.2) els).
Proof.
  simpl. f_equal. induction els as [|[p s] els IH]; [done|]. simpl. by rewrite IH.
Qed.

Section counting.
Context (weights : gmap Z Qc) (root : SddNode).
Context (Hnonzero : literals_nonzero root).
Context (Hdecomposable : decomposable root).
Context (Hdeterministic : deterministic root).
Context (Hgaps : gaps_normalized weights root).

Lemma decomposable_element id vt els e :
  SddDecision id vt els ∈ nodes root -> e ∈ els -> vars e.1 ## vars e.2.
Proof.
  intros Hd He. unfold decomposable in Hdecomposable.
  rewrite Forall_forall in Hdecomposable. specialize (Hdecomposable _ Hd).
  rewrite Forall_forall in Hdecomposable. by apply Hdecomposable.
Qed.

Lemma deterministic_element id vt els a :
  SddDecision id vt els ∈ nodes root ->
  a ∈ assignments (elements (vars (SddDecision id vt els))) ->
  (length (filter (fun e => eval_element e a = true) els) <= 1)%nat.
Proof.
  intros Hd Ha. unfold deterministic in Hdeterministic.
  rewrite Forall_forall in Hdeterministic. specialize (Hdeterministic _ Hd).
  rewrite Forall_forall in Hdeterministic. by apply Hdeterministic.
Qed.

Lemma gaps_element id vt els e v :
  SddDecision id vt els ∈ nodes root -> e ∈ els ->
  v ∈ vars (SddDecision id vt els) -> v ∉ vars e.1 -> v ∉ vars e.2 ->
  weight_of weights (Zpos v) + weight_of weights (Zneg v) = 1.
Proof.
  intros Hd He Hv H1 H2. unfold gaps_normalized in Hgaps.
  rewrite Forall_forall in Hgaps. specialize (Hgaps _ Hd).
  rewrite Forall_forall in Hgaps. specialize (Hgaps _ He).
  rewrite Forall_forall in Hgaps. apply Hgaps.
  apply elem_of_elements. set_solver.
Qed.

Abbreviation counts_models := (counts_models weights root).

Lemma literal_counts_models id vt l : counts_models (SddLiteral id vt l).
Proof.
  intros Hn.
  assert (l ≠ 0%Z) as Hl.
  { unfold literals_nonzero in Hnonzero. rewrite Forall_forall in Hnonzero.
    apply Hnonzero, elem_of_literals; eauto. }
  assert (vars (SddLiteral id vt l) = {[lit_var l]}) as ->
    by (unfold vars, literals; simpl; set_solver).
  rewrite elements_singleton, assignment_sum_cons, !assignment_sum_nil.
  unfold model_weight, assignment_weight. simpl eval.
  destruct l as [|p|p]; [done|..]; simpl lit_var.
  - rewrite bool_decide_eq_true_2 by left.
    rewrite bool_decide_eq_false_2 by (by intros ?%list_elem_of_singleton).
    rewrite fmap_cons, Qcprod_cons. simpl. unfold Qcprod. simpl. ring.
  - rewrite bool_decide_eq_false_2 by (by intros ?%list_elem_of_singleton).
    rewrite bool_decide_eq_true_2 by left.
    rewrite fmap_cons, Qcprod_cons. simpl. unfold Qcprod. simpl. ring.
Qed.

Lemma decision_counts_models id vt els :
  Forall (fun e => counts_models e.1 /\ counts_models e.2) els ->
  counts_models (SddDecision id vt els).
Proof.
  intros IH Hn. set (d := SddDecision id vt els) in *.
  rewrite Forall_forall in IH.
  assert (forall e, e ∈ els ->
            value weights e.1 * value weights e.2 =
              assignment_sum (elements (vars d)) (element_weight weights e)) as Hel.
  { intros e He. destruct (nodes_child id vt els e He) as [H1 H2].
    destruct (IH e He) as [IH1 IH2].
    rewrite IH1, IH2 by (by eapply nodes_trans).
    rewrite element_count_product by (by eapply decomposable_element).
    symmetry. apply element_count_gap.
    - pose proof (vars_sub d e.1 H1). pose proof (vars_sub d e.2 H2). set_solver.
    - intros v Hv H1' H2'. by eapply (gaps_element id vt els e v). }
  unfold d at 1. rewrite value_decision.
  rewrite (map_ext_in _ (fun e => assignment_sum (elements (vars d)) (element_weight weights e)))
    by (intros e He%list_elem_of_In; by apply Hel).
  rewrite (Qcsum_assignment_sum (elements (vars d)) (element_weight weights) els).
  apply assignment_sum_ext. intros a Ha.
  unfold model_weight, d. rewrite eval_decision.
  apply exclusive_elements_sum. by eapply deterministic_element.
Qed.

Lemma value_counts_models n : counts_models n.
Proof.
  induction n as [id vt|id vt|id vt l|id vt els IH|id vt] using SddNode_nested_ind.
  - intros _. simpl. unfold model_weight. simpl. by rewrite assignment_sum_zero.
  - intros _. assert (vars (SddTrue id vt) = ∅) as -> by done.
    by rewrite elements_empty, assignment_sum_nil.
  - apply literal_counts_models.
  - by apply decision_counts_models.
  - intros _. simpl. unfold model_weight. simpl. by rewrite assignment_sum_zero.
Qed.

End counting.

(** A smooth circuit has no gaps. *)
Lemma smooth_gaps_normalized weights root : smooth root -> gaps_normalized weights root.
Proof.
  unfold smooth, gaps_normalized. intros Hs.
  eapply Forall_impl; [exact Hs|]. intros d Hd. simpl in Hd.
  eapply Forall_impl; [exact Hd|]. intros e He. simpl in He.
  rewrite He. replace (vars d ∖ vars d) with (∅ : gset positive) by set_solver.
  rewrite elements_empty. constructor.
Qed.

(** ** Counting: the main lemmas *)

Lemma complete_for_Forall weights n :
  complete_for weights n <-> Forall (fun l => is_Some (weights !! l)) (literals n).
Proof. unfold complete_for. by rewrite Forall_forall. Qed.

Lemma weighted_model_count_value weights root :
  consistent root -> all_variants root -> complete_for weights root ->
  weighted_model_count root weights = Counted (value weights root).
Proof.
  intros Hc Hv Hw. unfold weighted_model_count.
  destruct (wmc_visit_is_correct weights root Hc root ∅ ∅) as (memo' & Hrun & _);
    [apply nodes_self|done|done|by intros i ?%not_elem_of_empty|by intros m v _ ?|].
  by rewrite Hrun.
Qed.

Lemma value_standard_wmc weights root :
  literals_nonzero root -> decomposable root -> deterministic root ->
  gaps_normalized weights root ->
  value weights root = standard_wmc weights root (elements (vars root)).
Proof.
  intros Hnz Hdec Hdet Hgaps. rewrite standard_wmc_as_sum.
  apply (value_counts_models weights root Hnz Hdec Hdet Hgaps root), nodes_self.
Qed.

(** When the weights of every variable of the circuit sum to 1, there is no
    condition on the gaps. *)
Lemma normalized_weights_gaps weights root :
  (forall v, v ∈ vars root -> weight_of weights (Zpos v) + weight_of weights (Zneg v) = 1) ->
  gaps_normalized weights root.
Proof.
  intros Hn. unfold gaps_normalized. apply Forall_forall. intros d Hd.
  apply Forall_forall. intros e He. apply Forall_forall. intros v Hv%elem_of_elements.
  apply Hn. pose proof (vars_sub root d Hd). set_solver.
Qed.

Lemma standard_wmc_ext weights n m vs :
  (forall a, a ∈ assignments vs -> eval n a = eval m a) ->
  standard_wmc weights n vs = standard_wmc weights m vs.
Proof.
  intros Heq. rewrite !standard_wmc_as_sum. apply assignment_sum_ext.
  intros a Ha. unfold model_weight. by rewrite (Heq a Ha).
Qed.

Lemma ex_circuit_consistent : consistent ex_circuit.
Proof. solve_consistent. Qed.

Lemma ex_circuit_variants : all_variants ex_circuit.
Proof. solve_all_variants. Qed.

Lemma ex_unsmooth_well_formed : well_formed ex_unsmooth.
Proof.
  split; [solve_consistent|]. split; [solve_all_variants|].
  split; [unfold literals_nonzero; by_computation|].
  split; [unfold decomposable; by_computation|].
  split; [unfold deterministic; by_computation|].
  unfold primes_exhaustive; by_computation.
Qed.

Lemma ex_disjunction_well_formed : well_formed ex_disjunction.
Proof.
  split; [solve_consistent|]. split; [solve_all_variants|].
  split; [unfold literals_nonzero; by_computation|].
  split; [unfold decomposable; by_computation|].
  split; [unfold deterministic; by_computation|].
  unfold primes_exhaustive; by_computation.
Qed.

(** * The claims about weighted model counting *)

(** C1, as the specification states it: on a well-formed circuit with a
    complete weight assignment the count that the recursive equations
    determine is the sum, over the satisfying assignments, of the products of
    the chosen weights.  It fails on a well-formed circuit for the constant
    true over two variables, all weights being 1: the equations give 3, the
    four satisfying assignments weigh 4.  It fails in the same way on the
    decision node of x1 or x2: the equations give 2, the three satisfying
    assignments weigh 3. *)
Lemma C1_unsmooth_circuit_undercounts :
  (well_formed ex_unsmooth /\
   complete_for weights_one ex_unsmooth /\
   Forall (fun a => eval ex_unsmooth a = true)
     (assignments (elements (vars ex_unsmooth))) /\
   weighted_model_count ex_unsmooth weights_one = Counted (Q2Qc 3) /\
   standard_wmc weights_one ex_unsmooth (elements (vars ex_unsmooth)) = Q2Qc 4 /\
   Q2Qc 3 ≠ Q2Qc 4) /\
  (well_formed ex_disjunction /\
   complete_for weights_one ex_disjunction /\
   weighted_model_count ex_disjunction weights_one = Counted (Q2Qc 2) /\
   standard_wmc weights_one ex_disjunction (elements (vars ex_disjunction)) = Q2Qc 3 /\
   Q2Qc 2 ≠ Q2Qc 3).
Proof.
  split.
  - split; [exact ex_unsmooth_well_formed|].
    split; [apply complete_for_Forall; by_computation|].
    split; [by_computation|].
    split; [Qc_computation|]. split; [Qc_computation|]. Qc_different.
  - split; [exact ex_disjunction_well_formed|].
    split; [apply complete_for_Forall; by_computation|].
    split; [Qc_computation|]. split; [Qc_computation|]. Qc_different.
Qed.

(** C1, amended: on a circuit with consistent identities, of the four
    variants, with non-zero literals, decomposable and deterministic, and with
    a complete weight assignment in which every variable of a Decision node
    that one of its elements does not mention has weights that sum to 1 (no
    condition when the circuit is smooth), [weighted_model_count] returns the
    value that the recursive equations determine, and that value is the sum,
    over the assignments of the circuit's variables that satisfy it, of the
    products of the chosen literal weights. *)
Theorem C1_weighted_model_count_correct weights root :
  consistent root -> all_variants root -> literals_nonzero root ->
  decomposable root -> deterministic root ->
  complete_for weights root ->
  gaps_normalized weights root \/ smooth root ->
  weighted_model_count root weights = Counted (value weights root) /\
  value weights root = standard_wmc weights root (elements (vars root)) /\
  (forall id vt, value weights (SddFalse id vt) = 0) /\
  (forall id vt, value weights (SddTrue id vt) = 1) /\
  (forall id vt l w, weights !! l = Some w -> value weights (SddLiteral id vt l) = w) /\
  (forall id vt els,
     value weights (SddDecision id vt els) =
       Qcsum (map (fun e => value weights e.1 * value weights e.2) els)).
Proof.
  intros Hc Hv Hnz Hdec Hdet Hw Hgaps.
  split; [by apply weighted_model_count_value|].
  split; [|split; [done|split; [done|split]]].
  - apply value_standard_wmc; try done.
    destruct Hgaps as [?|?]; [done|by apply smooth_gaps_normalized].
  - intros id vt l w Hl. simpl. unfold weight_of. by rewrite Hl.
  - apply value_decision.
Qed.

Lemma C1_weighted_model_count_correct_witness :
  weighted_model_count ex_circuit weights_full = Counted (value weights_full ex_circuit) /\
  value weights_full ex_circuit =
    standard_wmc weights_full ex_circuit (elements (vars ex_circuit)).
Proof.
  assert (literals_nonzero ex_circuit) as Hnz by (unfold literals_nonzero; by_computation).
  assert (decomposable ex_circuit) as Hdec by (unfold decomposable; by_computation).
  assert (deterministic ex_circuit) as Hdet by (unfold deterministic; by_computation).
  assert (complete_for weights_full ex_circuit) as Hw
    by (apply complete_for_Forall; by_computation).
  assert (gaps_normalized weights_full ex_circuit) as Hgaps
    by (unfold gaps_normalized; by_computation).
  destruct (C1_weighted_model_count_correct weights_full ex_circuit
              ex_circuit_consistent ex_circuit_variants Hnz Hdec Hdet Hw (or_introl Hgaps))
    as (H1 & H2 & _).
  exact (conj H1 H2).
Defined.


(** The count of the scenario belongs to the circuit, not to the formula
    alone.  The elements of [scenario_nnf] are not exclusive: the assignment
    x1, x2, x3 satisfies two of them.  The decision circuit [ex_circuit] is
    equivalent to the same formula, its elements are exclusive, and its counts
    are 1 and 0.5. *)
Lemma scenario_count_depends_on_circuit :
  ~ deterministic scenario_nnf /\
  deterministic ex_circuit /\
  Forall (fun a => eval ex_circuit a = scenario_formula a)
    (assignments (elements (vars ex_circuit))) /\
  weighted_model_count ex_circuit weights_full = Counted 1 /\
  weighted_model_count ex_circuit weights_reduced = Counted half /\
  standard_wmc weights_reduced scenario_nnf (elements (vars scenario_nnf)) = half.
Proof.
  split; [unfold deterministic; by_computation|].
  split; [unfold deterministic; by_computation|].
  split; [by_computation|]. split; [Qc_computation|]. split; Qc_computation.
Qed.

(** C4: a missing weight.  On a circuit with consistent identities and of the
    four variants, when some literal below the root has no entry in the
    weight mapping, [weighted_model_count] fails with [MissingWeight]: it
    neither returns a number nor fails in another way. *)
Theorem C4_missing_weight weights root l :
  consistent root -> all_variants root ->
  l ∈ literals root -> weights !! l = None ->
  weighted_model_count root weights = Failed MissingWeight.
Proof.
  intros Hc Hv Hl Hw. unfold weighted_model_count.
  destruct (wmc_visit weights ∅ root ∅) as [[v memo]|[|]] eqn:Hrun; [|done|].
  - exfalso.
    destruct (wmc_visit_does_need_weights weights root Hc root ∅ ∅ v memo Hrun)
      as [Hcomplete _]; [apply nodes_self|by intros m _ [? ?]|].
    destruct (Hcomplete l Hl) as [w Hsome]. congruence.
  - exfalso.
    by apply (wmc_visit_is_not_malformed weights root Hc root ∅ ∅ (nodes_self _) Hv).
Qed.

Lemma C4_missing_weight_witness :
  (-1)%Z ∈ literals ex_circuit /\ weights_partial !! (-1)%Z = None /\
  weighted_model_count ex_circuit weights_partial = Failed MissingWeight.
Proof.
  assert ((-1)%Z ∈ literals ex_circuit) as Hl by by_computation.
  split; [exact Hl|]. split; [reflexivity|].
  exact (C4_missing_weight weights_partial ex_circuit (-1)%Z
           ex_circuit_consistent ex_circuit_variants Hl eq_refl).
Defined.

Local Close Scope Qc_scope.

(** * Further properties of the exporter *)

(** ** The exported circuit is the graph of the circuit *)

Lemma declared_own litnamemap show_id m st nm :
  st ∈ own_stmts litnamemap show_id m -> declared st = Some nm ->
  (nm = NId (node_id m) /\ node_decl litnamemap show_id m = Some st) \/
  (exists k, is_Some (node_elements m !! k) /\ nm = NPs (node_id m) k).
Proof.
  destruct m as [id vt|id vt|id vt l|id vt els|id vt]; simpl;
    try (intros ->%list_elem_of_singleton [= <-]; by left);
    try (by intros ?%elem_of_nil).
  intros [->|Hin]%elem_of_cons Hd; [left; by simplify_eq/=|right].
  apply list_elem_of_join in Hin as (l & Hin & Hl).
  apply list_elem_of_lookup in Hl as [j Hj]. rewrite list_lookup_imap in Hj.
  destruct (els !! j) as [e|] eqn:He; [|done]. simpl in Hj. injection Hj as <-.
  unfold element_stmts in Hin. rewrite !elem_of_cons in Hin.
  destruct Hin as [->|[->|[->|[->|Hin]]]]; simplify_eq/=; [|by apply elem_of_nil in Hin].
  exists j. by rewrite He.
Qed.

Lemma edge_own litnamemap show_id m st e :
  st ∈ own_stmts litnamemap show_id m -> edge_of st = Some e ->
  exists k el, node_elements m !! k = Some el /\
    (e = (NId (node_id m), NPs (node_id m) k) \/
     e = (NPs (node_id m) k, NId (node_id el.1)) \/
     e = (NPs (node_id m) k, NId (node_id el.2))).
Proof.
  destruct m as [id vt|id vt|id vt l|id vt els|id vt]; simpl;
    try (by intros ->%list_elem_of_singleton); try (by intros ?%elem_of_nil).
  intros [->|Hin]%elem_of_cons He; [done|].
  apply list_elem_of_join in Hin as (l & Hin & Hl).
  apply list_elem_of_lookup in Hl as [j Hj]. rewrite list_lookup_imap in Hj.
  destruct (els !! j) as [el|] eqn:Hel; [|done]. simpl in Hj. injection Hj as <-.
  unfold element_stmts in Hin. rewrite !elem_of_cons in Hin.
  exists j, el. split; [done|].
  destruct Hin as [->|[->|[->|[->|Hin]]]]; simplify_eq/=; auto.
  by apply elem_of_nil in Hin.
Qed.

(** X1: the nodes of the exported graph.  On a consistent circuit of the four
    variants the export succeeds, no name is declared twice, and the declared
    names are exactly the ids of the nodes below the root and, for every
    Decision node below the root and every index of one of its elements,
    the product node of that element. *)
Theorem X1_exported_nodes litnamemap show_id root :
  consistent root -> all_variants root ->
  exists s,
    sdd_to_dot_stmts (Some root) litnamemap show_id = Ok s /\
    NoDup (omap declared s) /\
    forall nm, nm ∈ omap declared s <->
      (exists m, m ∈ nodes root /\ nm = NId (node_id m)) \/
      (exists d k, d ∈ nodes root /\ is_Some (node_elements d !! k) /\
                   nm = NPs (node_id d) k).
Proof.
  intros Hc Hv.
  destruct (sdd_export_facts litnamemap show_id root Hc Hv)
    as (s & Hstmts & _ & ND & Hown & Hsound).
  exists s. split; [done|]. split; [done|]. intros nm. split.
  - intros (st & Hst & Hd)%list_elem_of_omap.
    destruct (Hsound st Hst) as (m & Hm & Hin).
    destruct (declared_own _ _ _ _ _ Hin Hd) as [[-> _]|(k & Hk & ->)]; eauto 6.
  - intros [(m & Hm & ->)|(d & k & Hd & [e He] & ->)].
    + destruct (own_declares litnamemap show_id m (Hv m Hm)) as (st & Hst & Hdecl).
      apply list_elem_of_omap. exists st. split; [by apply (Hown m Hm)|done].
    + apply list_elem_of_omap. exists (ProductDecl (node_id d) k). split; [|done].
      apply (Hown d Hd), (own_element_stmts litnamemap show_id d k e He).
      unfold element_stmts. set_solver.
Qed.

Lemma X1_exported_nodes_witness :
  consistent ex_root /\ all_variants ex_root /\
  exists s,
    sdd_to_dot_stmts (Some ex_root) None false = Ok s /\
    NoDup (omap declared s) /\
    forall nm, nm ∈ omap declared s <->
      (exists m, m ∈ nodes ex_root /\ nm = NId (node_id m)) \/
      (exists d k, d ∈ nodes ex_root /\ is_Some (node_elements d !! k) /\
                   nm = NPs (node_id d) k).
Proof.
  split; [exact ex_root_consistent|]. split; [exact ex_root_variants|].
  exact (X1_exported_nodes None false ex_root ex_root_consistent ex_root_variants).
Defined.

(** X2: the edges of the exported graph.  On a consistent circuit of the four
    variants the edges of the export are exactly, for every element of every
    Decision node below the root, the edge from the decision node to the
    element's product node and the edges from the product node to the prime
    and to the sub; every edge joins two declared names. *)
Theorem X2_exported_edges litnamemap show_id root :
  consistent root -> all_variants root ->
  exists s,
    sdd_to_dot_stmts (Some root) litnamemap show_id = Ok s /\
    (forall e, e ∈ omap edge_of s <->
       exists d k el, d ∈ nodes root /\ node_elements d !! k = Some el /\
         (e = (NId (node_id d), NPs (node_id d) k) \/
          e = (NPs (node_id d) k, NId (node_id el.1)) \/
          e = (NPs (node_id d) k, NId (node_id el.2)))) /\
    (forall e, e ∈ omap edge_of s ->
       e.1 ∈ omap declared s /\ e.2 ∈ omap declared s).
Proof.
  intros Hc Hv.
  destruct (sdd_export_facts litnamemap show_id root Hc Hv)
    as (s & Hstmts & _ & ND & Hown & Hsound).
  exists s. split; [done|].
  assert (forall e, e ∈ omap edge_of s ->
            exists d k el, d ∈ nodes root /\ node_elements d !! k = Some el /\
              (e = (NId (node_id d), NPs (node_id d) k) \/
               e = (NPs (node_id d) k, NId (node_id el.1)) \/
               e = (NPs (node_id d) k, NId (node_id el.2)))) as Hfrom.
  { intros e (st & Hst & He)%list_elem_of_omap.
    destruct (Hsound st Hst) as (m & Hm & Hin).
    destruct (edge_own _ _ _ _ _ Hin He) as (k & el & Hel & Hcases). eauto 8. }
  assert (forall m, m ∈ nodes root -> NId (node_id m) ∈ omap declared s) as Hnode.
  { intros m Hm.
    destruct (own_declares litnamemap show_id m (Hv m Hm)) as (st & Hst & Hdecl).
    apply list_elem_of_omap. exists st. split; [by apply (Hown m Hm)|done]. }
  assert (forall d k el, d ∈ nodes root -> node_elements d !! k = Some el ->
            element_stmts (node_id d) k el ⊆ s) as Hels.
  { intros d k el Hd Hel x Hx.
    by apply (Hown d Hd), (own_element_stmts litnamemap show_id d k el Hel). }
  split; [intros e; split; [apply Hfrom|]|].
  - intros (d & k & el & Hd & Hel & Hcases). specialize (Hels d k el Hd Hel).
    apply list_elem_of_omap. unfold element_stmts in Hels.
    destruct Hcases as [->|[->| ->]].
    + exists (DecisionEdge (node_id d) k). split; [apply Hels; set_solver|done].
    + exists (ElementEdge (node_id d) k (node_id el.1)).
      split; [apply Hels; set_solver|done].
    + exists (ElementEdge (node_id d) k (node_id el.2)).
      split; [apply Hels; set_solver|done].
  - intros e He. destruct (Hfrom e He) as (d & k & el & Hd & Hel & Hcases).
    specialize (Hels d k el Hd Hel). unfold element_stmts in Hels.
    assert (NPs (node_id d) k ∈ omap declared s) as Hps.
    { apply list_elem_of_omap. exists (ProductDecl (node_id d) k).
      split; [apply Hels; set_solver|done]. }
    assert (el.1 ∈ nodes root /\ el.2 ∈ nodes root) as [H1 H2].
    { destruct d as [| | |id vt els|]; try done. simpl in Hel.
      destruct (nodes_child id vt els el) as [H1 H2];
        [by eapply list_elem_of_lookup_2|].
      split; by eapply nodes_trans. }
    destruct Hcases as [->|[->| ->]]; simpl; auto.
Qed.

Lemma X2_exported_edges_witness :
  consistent ex_root /\ all_variants ex_root /\
  exists s,
    sdd_to_dot_stmts (Some ex_root) None true = Ok s /\
    (forall e, e ∈ omap edge_of s <->
       exists d k el, d ∈ nodes ex_root /\ node_elements d !! k = Some el /\
         (e = (NId (node_id d), NPs (node_id d) k) \/
          e = (NPs (node_id d) k, NId (node_id el.1)) \/
          e = (NPs (node_id d) k, NId (node_id el.2)))) /\
    (forall e, e ∈ omap edge_of s ->
       e.1 ∈ omap declared s /\ e.2 ∈ omap declared s).
Proof.
  split; [exact ex_root_consistent|]. split; [exact ex_root_variants|].
  exact (X2_exported_edges None true ex_root ex_root_consistent ex_root_variants).
Defined.

(** ** The declaration of a node *)

(** X3: what a node declaration says.  In a successful export every
    declaration of an integer identifier is the declaration of a node below
    the root with that id: a rectangle for a False, True or Literal node, a
    circle for a Decision node, labelled with the node's label
    ([litnamemap] applied to the glyph, the literal or ["+"]) and carrying
    the xlabel with the node's id and vtree position exactly when [show_id]
    is set. *)
Theorem X3_node_declarations litnamemap show_id root s st id :
  sdd_to_dot_stmts (Some root) litnamemap show_id = Ok s ->
  st ∈ s -> declared st = Some (NId id) ->
  exists m, m ∈ nodes root /\ node_id m = id /\
    ((is_false m || is_true m || is_literal m = true /\
      st = SddLeafDecl id (_format_sddnode_label m None litnamemap show_id)
             (if show_id then Some (_format_sddnode_xlabel m) else None)) \/
     (is_decision m = true /\
      st = SddDecisionDecl id
             (_format_sddnode_label m (Some (PStr "+")) litnamemap show_id)
             (if show_id then Some (_format_sddnode_xlabel m) else None))).
Proof.
  unfold sdd_to_dot_stmts, mbind, result_bind. intros Hrun Hst Hd.
  destruct (_sddnode_to_dot_int litnamemap show_id root ∅) as [[[s'|] V']|] eqn:Hvisit;
    simplify_eq/=.
  destruct (visit_is_sound litnamemap show_id root ∅ s V' Hvisit st Hst)
    as (m & Hm & Hin).
  exists m. split; [done|].
  destruct m as [i vt|i vt|i vt l|i vt els|i vt]; simpl in Hin.
  1-3: apply list_elem_of_singleton in Hin as ->; simplify_eq/=; split; [done|];
    left; by destruct show_id.
  - apply elem_of_cons in Hin as [->|Hin]; [simplify_eq/=; split; [done|];
      right; by destruct show_id|].
    exfalso. apply list_elem_of_join in Hin as (l & Hin & Hl).
    apply list_elem_of_lookup in Hl as [j Hj]. rewrite list_lookup_imap in Hj.
    destruct (els !! j) as [e|] eqn:He; [|done]. simpl in Hj. injection Hj as <-.
    unfold element_stmts in Hin. rewrite !elem_of_cons in Hin.
    destruct Hin as [->|[->|[->|[->|Hin]]]]; simplify_eq/=.
    by apply elem_of_nil in Hin.
  - by apply elem_of_nil in Hin.
Qed.

Lemma X3_node_declarations_witness :
  exists s,
    sdd_to_dot_stmts (Some ex_root) None true = Ok s /\
    SddLeafDecl 3 "2" (Some "Id:3\nVp:n") ∈ s /\
    exists m, m ∈ nodes ex_root /\ node_id m = 3 /\
      ((is_false m || is_true m || is_literal m = true /\
        SddLeafDecl 3 "2" (Some "Id:3\nVp:n") =
          SddLeafDecl 3 (_format_sddnode_label m None None true)
            (Some (_format_sddnode_xlabel m))) \/
       (is_decision m = true /\
        SddLeafDecl 3 "2" (Some "Id:3\nVp:n") =
          SddDecisionDecl 3 (_format_sddnode_label m (Some (PStr "+")) None true)
            (Some (_format_sddnode_xlabel m)))).
Proof.
  eexists. split; [reflexivity|].
  assert (SddLeafDecl 3 "2" (Some "Id:3\nVp:n") ∈
            [SddDecisionDecl 7 "+" (Some "Id:7\nVp:n"); ProductDecl 7 0;
             DecisionEdge 7 0; ElementEdge 7 0 1; ElementEdge 7 0 3;
             SddLeafDecl 1 "1" (Some "Id:1\nVp:n");
             SddLeafDecl 3 "2" (Some "Id:3\nVp:n"); ProductDecl 7 1;
             DecisionEdge 7 1; ElementEdge 7 1 2; ElementEdge 7 1 3;
             SddLeafDecl 2 "-1" (Some "Id:2\nVp:n")]) as Hin
    by (repeat (first [left | right])).
  split; [exact Hin|].
  exact (X3_node_declarations None true ex_root _ _ 3 eq_refl Hin eq_refl).
Defined.

(** ** [litnamemap] matters only through the keys the circuit uses *)

Lemma sdd_elements_to_dot_ext rec1 rec2 id els :
  (forall e, e ∈ els ->
     (forall V, rec1 e.1 V = rec2 e.1 V) /\ (forall V, rec1 e.2 V = rec2 e.2 V)) ->
  forall idx V, sdd_elements_to_dot rec1 id els idx V = sdd_elements_to_dot rec2 id els idx V.
Proof.
  induction els as [|[p s] rest IH]; intros Hext idx V; [done|].
  destruct (Hext (p, s) ltac:(left)) as [Hp Hs]. simpl in Hp, Hs.
  simpl. rewrite Hp. unfold mbind, result_bind.
  destruct (rec2 p V) as [[[sp|] V1]|]; simpl; try done.
  rewrite Hs. destruct (rec2 s V1) as [[[ss|] V2]|]; simpl; try done.
  rewrite IH; [done|]. intros e He. apply Hext. by right.
Qed.

Lemma label_keys_sub n m : m ∈ nodes n -> label_keys m ⊆ label_keys n.
Proof.
  intros Hm k (x & Hx & Hk)%list_elem_of_omap. apply list_elem_of_omap.
  exists x. split; [by eapply nodes_trans|done].
Qed.

Lemma visit_litnamemap_agree lm1 lm2 show_id n :
  (forall k, k ∈ label_keys n -> litnamemap_get lm1 k = litnamemap_get lm2 k) ->
  forall V, _sddnode_to_dot_int lm1 show_id n V = _sddnode_to_dot_int lm2 show_id n V.
Proof.
  induction n as [id vt|id vt|id vt l|id vt els IH|id vt] using SddNode_nested_ind;
    intros Hagree V.
  4: { destruct (decide (id ∈ V)) as [Hin|Hin]; [by rewrite !visit_visited|].
       rewrite !visit_decision by done.
       rewrite (sdd_elements_to_dot_ext (_sddnode_to_dot_int lm1 show_id)
                  (_sddnode_to_dot_int lm2 show_id) id els).
       - unfold _format_sddnode_label.
         rewrite (Hagree (PStr "+")); [done|].
         apply list_elem_of_omap. exists (SddDecision id vt els).
         split; [apply nodes_self|done].
       - intros e He. rewrite Forall_forall in IH. destruct (IH e He) as [IH1 IH2].
         destruct (nodes_child id vt els e He) as [H1 H2].
         split; [apply IH1|apply IH2]; intros k Hk; apply Hagree;
           [apply (label_keys_sub _ _ H1), Hk|apply (label_keys_sub _ _ H2), Hk]. }
  4: { destruct (decide (id ∈ V)) as [Hin|Hin];
         [by rewrite !visit_visited|by rewrite !visit_other]. }
  all: destruct (decide (id ∈ V)) as [Hin|Hin]; [by rewrite !visit_visited|];
    rewrite !visit_leaf by done; simpl; unfold _format_sddnode_label; simpl;
    rewrite Hagree; [done|];
    apply list_elem_of_omap; eexists; (split; [apply nodes_self|done]).
Qed.

(** X4: keys that the circuit does not use.  Two label maps that agree on
    the preliminary names of the nodes below the root (the glyphs of its
    constants, the integers of its literals, ["+"] when it has a Decision
    node) give the same export, failures included; in particular no map,
    the empty map and a map whose keys the circuit does not use give the
    same export. *)
Theorem X4_unused_label_keys lm1 lm2 show_id root :
  (forall k, k ∈ label_keys root -> litnamemap_get lm1 k = litnamemap_get lm2 k) ->
  sdd_to_dot (Some root) lm1 show_id = sdd_to_dot (Some root) lm2 show_id.
Proof.
  intros Hagree. unfold sdd_to_dot, sdd_to_dot_stmts.
  by rewrite (visit_litnamemap_agree lm1 lm2 show_id root Hagree ∅).
Qed.

Lemma X4_unused_label_keys_witness :
  sdd_to_dot (Some ex_root) None true =
    sdd_to_dot (Some ex_root) (Some {[ PInt 5 := PStr "five"; PStr "x" := PStr "y" ]}) true.
Proof.
  apply X4_unused_label_keys. intros k Hk. simpl in Hk.
  repeat (apply elem_of_cons in Hk as [->|Hk]); try reflexivity.
  by apply elem_of_nil in Hk.
Defined.

(** ** The ways in which the circuit export fails *)

Lemma visit_none_not_variant litnamemap show_id n :
  forall V V', _sddnode_to_dot_int litnamemap show_id n V = Ok (None, V') ->
    is_variant n = false.
Proof.
  destruct n as [id vt|id vt|id vt l|id vt els|id vt]; intros V V'; try done;
    (destruct (decide (id ∈ V)) as [Hin|Hin]; [by rewrite visit_visited|]).
  1-3: by rewrite visit_leaf.
  rewrite visit_decision by done. unfold mbind, result_bind.
  by destruct (sdd_elements_to_dot _ _ _ _ _) as [[se V3]|].
Qed.

Lemma visit_elements_raise_not_variant litnamemap show_id id els :
  Forall (fun e =>
    (forall V e', _sddnode_to_dot_int litnamemap show_id e.1 V = Raise e' ->
       ~ all_variants e.1) /\
    (forall V e', _sddnode_to_dot_int litnamemap show_id e.2 V = Raise e' ->
       ~ all_variants e.2)) els ->
  forall idx V e',
    sdd_elements_to_dot (_sddnode_to_dot_int litnamemap show_id) id els idx V = Raise e' ->
    exists e, e ∈ els /\ (~ all_variants e.1 \/ ~ all_variants e.2).
Proof.
  induction 1 as [|[p s] rest [IHp IHs] _ IH]; intros idx V e'; [done|].
  rewrite visit_elements_cons. unfold mbind, result_bind. simpl in *.
  destruct (_sddnode_to_dot_int litnamemap show_id p V) as [[[sp|] V1]|] eqn:Hp; simpl.
  - destruct (_sddnode_to_dot_int litnamemap show_id s V1) as [[[ss|] V2]|] eqn:Hs; simpl.
    + destruct (sdd_elements_to_dot _ id rest (S idx) V2) as [[sr V3]|] eqn:Hr;
        simpl; [done|].
      intros [= <-]. destruct (IH _ _ _ Hr) as (el & He & Hcase).
      exists el. split; [by right|done].
    + intros _. exists (p, s). split; [left|]. right. intros Hv.
      apply visit_none_not_variant in Hs. by rewrite (Hv s (nodes_self s)) in Hs.
    + intros _. exists (p, s). split; [left|]. right. by eapply IHs.
  - intros _. exists (p, s). split; [left|]. left. intros Hv.
    apply visit_none_not_variant in Hp. by rewrite (Hv p (nodes_self p)) in Hp.
  - intros _. exists (p, s). split; [left|]. left. by eapply IHp.
Qed.

Lemma visit_raise_not_variant litnamemap show_id n V e' :
  _sddnode_to_dot_int litnamemap show_id n V = Raise e' -> ~ all_variants n.
Proof.
  revert V e'.
  induction n as [id vt|id vt|id vt l|id vt els IH|id vt] using SddNode_nested_ind;
    intros V e'.
  4: { destruct (decide (id ∈ V)) as [Hin|Hin]; [by rewrite visit_visited|].
       rewrite visit_decision by done. unfold mbind, result_bind.
       destruct (sdd_elements_to_dot _ _ _ _ _) as [[se V3]|] eqn:He; simpl; [done|].
       intros _ Hv.
       destruct (visit_elements_raise_not_variant _ _ _ _ IH _ _ _ He)
         as (el & Hin' & Hcase).
       destruct (nodes_child id vt els el Hin') as [H1 H2].
       destruct Hcase as [Hn|Hn]; apply Hn; by eapply all_variants_sub. }
  4: { destruct (decide (id ∈ V)) as [Hin|Hin];
         [by rewrite visit_visited|by rewrite visit_other]. }
  all: destruct (decide (id ∈ V)) as [Hin|Hin];
    [by rewrite visit_visited|by rewrite visit_leaf].
Qed.

(** X5: where the two exceptions of the circuit export come from.
    [sdd_to_dot] raises a [ValueError] exactly when no root is given, and its
    text is then "No root node given"; and when it raises a [TypeError], a
    root was given, some node below it is none of the four variants, and the
    error is the one of extending a list by [None]. *)
Theorem X5_export_failures node litnamemap show_id :
  (forall msg, sdd_to_dot node litnamemap show_id = Raise (ValueError msg) <->
     node = None /\ msg = "No root node given") /\
  (forall msg, sdd_to_dot node litnamemap show_id = Raise (TypeError msg) ->
     exists root, node = Some root /\ ~ all_variants root /\
       TypeError msg = NoneType_not_iterable).
Proof.
  destruct node as [root|].
  - assert (forall e, sdd_to_dot (Some root) litnamemap show_id = Raise e ->
              ~ all_variants root /\ e = NoneType_not_iterable) as Hraise.
    { intros e Hrun.
      unfold sdd_to_dot, sdd_to_dot_stmts, mbind, result_bind in Hrun.
      destruct (_sddnode_to_dot_int litnamemap show_id root ∅) as [[[s|] V']|e'] eqn:Hvisit;
        simpl in Hrun; [done|..].
      - injection Hrun as <-. split; [|done]. intros Hv.
        apply visit_none_not_variant in Hvisit.
        by rewrite (Hv root (nodes_self root)) in Hvisit.
      - injection Hrun as <-. split; [by eapply visit_raise_not_variant|].
        by eapply visit_raise. }
    split.
    + intros msg. split; [|by intros [[=] _]].
      intros Hrun. by destruct (Hraise _ Hrun) as [_ [=]].
    + intros msg Hrun. destruct (Hraise _ Hrun) as [Hnv Hmsg]. by exists root.
  - split.
    + intros msg. split; [by intros [= <-]|by intros [_ ->]].
    + intros msg [=].
Qed.

Lemma X5_export_failures_witness :
  sdd_to_dot (Some ex_broken) None false =
    Raise (TypeError "'NoneType' object is not iterable") /\
  exists root, Some ex_broken = Some root /\ ~ all_variants root /\
    TypeError "'NoneType' object is not iterable" = NoneType_not_iterable.
Proof.
  split; [reflexivity|].
  exact (proj2 (X5_export_failures (Some ex_broken) None false) _ eq_refl).
Defined.

(** ** The visited set after a traversal *)

Lemma visit_elements_bound litnamemap show_id id els :
  Forall (fun e =>
    (forall V r V', _sddnode_to_dot_int litnamemap show_id e.1 V = Ok (r, V') ->
       V' ⊆ V ∪ node_ids e.1) /\
    (forall V r V', _sddnode_to_dot_int litnamemap show_id e.2 V = Ok (r, V') ->
       V' ⊆ V ∪ node_ids e.2)) els ->
  forall idx V se V',
    sdd_elements_to_dot (_sddnode_to_dot_int litnamemap show_id) id els idx V = Ok (se, V') ->
    forall i, i ∈ V' -> i ∈ V \/ exists e, e ∈ els /\ (i ∈ node_ids e.1 \/ i ∈ node_ids e.2).
Proof.
  induction 1 as [|[p s] rest [IHp IHs] _ IH]; intros idx V se V' Hrun i Hi.
  - simpl in Hrun. injection Hrun as <- <-. by left.
  - apply visit_elements_cons_inv in Hrun
      as (sp & V1 & ss & V2 & sr & Hp & Hs & Hr & ->).
    simpl in IHp, IHs.
    destruct (IH _ _ _ _ Hr i Hi) as [Hi2|(e & He & Hcase)];
      [|right; exists e; split; [by right|done]].
    apply (IHs _ _ _ Hs) in Hi2. apply elem_of_union in Hi2 as [Hi1|Hi2];
      [|right; exists (p, s); split; [left|by right]].
    apply (IHp _ _ _ Hp) in Hi1. apply elem_of_union in Hi1 as [Hi0|Hi1];
      [by left|right; exists (p, s); split; [left|by left]].
Qed.

Lemma visit_bound litnamemap show_id n V r V' :
  _sddnode_to_dot_int litnamemap show_id n V = Ok (r, V') -> V' ⊆ V ∪ node_ids n.
Proof.
  revert V r V'.
  induction n as [id vt|id vt|id vt l|id vt els IH|id vt] using SddNode_nested_ind;
    intros V r V'.
  4: { destruct (decide (id ∈ V)) as [Hin|Hin];
         [rewrite visit_visited by done; intros [= <- <-]; set_solver|].
       intros (se & Hrun & _)%visit_decision_inv; [|done].
       intros i Hi.
       destruct (visit_elements_bound _ _ _ _ IH _ _ _ _ Hrun i Hi)
         as [Hi0|(e & He & Hcase)].
       - apply elem_of_union in Hi0 as [->%elem_of_singleton|Hi0]; [|set_solver].
         apply elem_of_union. right. apply node_ids_decision. by left.
       - apply elem_of_union. right. apply node_ids_decision. right. by exists e. }
  4: { destruct (decide (id ∈ V)) as [Hin|Hin];
         [rewrite visit_visited by done|rewrite visit_other by done];
         intros [= <- <-]; [set_solver|].
       pose proof (node_ids_self (SddOther id vt)). set_solver. }
  all: destruct (decide (id ∈ V)) as [Hin|Hin];
    [rewrite visit_visited by done|rewrite visit_leaf by done];
    intros [= <- <-]; [set_solver|];
    match goal with |- _ ⊆ _ ∪ node_ids ?n => pose proof (node_ids_self n) end;
    set_solver.
Qed.

(** X6: the visited set after a traversal.  A successful traversal of a
    consistent circuit from the empty visited set ends with exactly the ids
    of the nodes below the root in the set; with that set, the traversal of
    any node below the root emits nothing and leaves the set as it is. *)
Theorem X6_visited_after_traversal litnamemap show_id root s V' :
  consistent root ->
  _sddnode_to_dot_int litnamemap show_id root ∅ = Ok (Some s, V') ->
  V' = node_ids root /\
  forall m, m ∈ nodes root ->
    _sddnode_to_dot_int litnamemap show_id m V' = Ok (Some [], V').
Proof.
  intros Hc Hrun.
  destruct (visit_is_complete litnamemap show_id root Hc root ∅ ∅ s V' Hrun)
    as (_ & Hids & _); [apply nodes_self|by intros k _ ?%not_elem_of_empty|set_solver|].
  pose proof (visit_bound _ _ _ _ _ _ Hrun) as Hbound.
  split; [set_solver|].
  intros m Hm. apply visit_visited, Hids, elem_of_node_ids. by exists m.
Qed.

Lemma X6_visited_after_traversal_witness :
  consistent ex_root /\
  exists s V',
    _sddnode_to_dot_int None false ex_root ∅ = Ok (Some s, V') /\
    V' = node_ids ex_root /\
    forall m, m ∈ nodes ex_root -> _sddnode_to_dot_int None false m V' = Ok (Some [], V').
Proof.
  split; [exact ex_root_consistent|].
  destruct (_sddnode_to_dot_int None false ex_root ∅) as [[[s|] V']|] eqn:Hrun;
    try discriminate Hrun.
  exists s, V'. split; [reflexivity|].
  exact (X6_visited_after_traversal None false ex_root s V' ex_root_consistent Hrun).
Defined.

(** ** The exported vtree is the tree *)

Lemma vnodes_unfold v :
  vnodes v = (v :: match vtree_left v with Some l => vnodes l | None => [] end
                ++ match vtree_right v with Some r => vnodes r | None => [] end)%list.
Proof. by destruct v. Qed.

Lemma vtree_declared litnamemap show_id v :
  omap declared (_vtree_to_dot_int litnamemap show_id v) =
    (fun t => NId (vtree_position t)) <$> vnodes v.
Proof.
  induction v as [pos var vl vr IHl IHr] using Vtree_nested_ind.
  rewrite _vtree_to_dot_int_unfold, vnodes_unfold. simpl vtree_left. simpl vtree_right.
  change (?x :: ?l ++ ?k)%list with ([x] ++ l ++ k)%list.
  rewrite !omap_app, !fmap_app. f_equal.
  - unfold vtree_own_decl. by destruct (vtree_is_leaf _).
  - f_equal.
    + destruct vl as [l|]; [|done].
      change (?x :: ?l)%list with ([x] ++ l)%list. rewrite omap_app. by rewrite IHl.
    + destruct vr as [r|]; [|done].
      change (?x :: ?l)%list with ([x] ++ l)%list. rewrite omap_app. by rewrite IHr.
Qed.

Lemma vtree_edges litnamemap show_id v e :
  e ∈ omap edge_of (_vtree_to_dot_int litnamemap show_id v) <->
  exists t c, t ∈ vnodes v /\ c ∈ vtree_children t /\
              e = (NId (vtree_position t), NId (vtree_position c)).
Proof.
  revert e. induction v as [pos var vl vr IHl IHr] using Vtree_nested_ind. intros e.
  rewrite _vtree_to_dot_int_unfold, vnodes_unfold. simpl vtree_left. simpl vtree_right.
  set (v := VtreeNode pos var vl vr).
  change (?x :: ?l ++ ?k)%list with ([x] ++ l ++ k)%list.
  rewrite !omap_app, !elem_of_app.
  assert (omap edge_of [vtree_own_decl litnamemap show_id v] = []) as ->
    by (unfold vtree_own_decl; by destruct (vtree_is_leaf v)).
  split.
  - intros [Hnil|[Hl|Hr]]; [by apply elem_of_nil in Hnil|..].
    + destruct vl as [l|]; [|by apply elem_of_nil in Hl].
      change (?x :: ?k)%list with ([x] ++ k)%list in Hl.
      rewrite omap_app, elem_of_app in Hl. destruct Hl as [Hl|Hl].
      * simpl in Hl. apply list_elem_of_singleton in Hl as ->.
        exists v, l. split; [left|]. split; [|done].
        unfold vtree_children. simpl. left.
      * apply (IHl l eq_refl) in Hl as (t & c & Ht & Hc & ->).
        exists t, c. split; [|done]. right. apply elem_of_app. by left.
    + destruct vr as [r|]; [|by apply elem_of_nil in Hr].
      change (?x :: ?k)%list with ([x] ++ k)%list in Hr.
      rewrite omap_app, elem_of_app in Hr. destruct Hr as [Hr|Hr].
      * simpl in Hr. apply list_elem_of_singleton in Hr as ->.
        exists v, r. split; [left|]. split; [|done].
        unfold vtree_children. simpl. apply elem_of_app. right. left.
      * apply (IHr r eq_refl) in Hr as (t & c & Ht & Hc & ->).
        exists t, c. split; [|done]. right. apply elem_of_app. by right.
  - intros (t & c & Ht & Hc & ->).
    apply elem_of_cons in Ht as [->|Ht].
    + unfold vtree_children in Hc. simpl in Hc. apply elem_of_app in Hc as [Hc|Hc].
      * destruct vl as [l|]; [|by apply elem_of_nil in Hc].
        apply list_elem_of_singleton in Hc as ->. right. left. simpl. left.
      * destruct vr as [r|]; [|by apply elem_of_nil in Hc].
        apply list_elem_of_singleton in Hc as ->. right. right. simpl. left.
    + apply elem_of_app in Ht as [Ht|Ht].
      * destruct vl as [l|]; [|by apply elem_of_nil in Ht].
        right. left. change (?x :: ?k)%list with ([x] ++ k)%list.
        rewrite omap_app, elem_of_app. right. apply (IHl l eq_refl). eauto.
      * destruct vr as [r|]; [|by apply elem_of_nil in Ht].
        right. right. change (?x :: ?k)%list with ([x] ++ k)%list.
        rewrite omap_app, elem_of_app. right. apply (IHr r eq_refl). eauto.
Qed.

Lemma vtree_length litnamemap show_id v :
  S (length (_vtree_to_dot_int litnamemap show_id v)) = (2 * length (vnodes v))%nat.
Proof.
  induction v as [pos var vl vr IHl IHr] using Vtree_nested_ind.
  rewrite _vtree_to_dot_int_unfold, vnodes_unfold. simpl vtree_left. simpl vtree_right.
  simpl length. rewrite !length_app.
  destruct vl as [l|], vr as [r|]; simpl length;
    try specialize (IHl _ eq_refl); try specialize (IHr _ eq_refl); lia.
Qed.

(** X7: the exported vtree.  The export of a vtree declares the positions of
    the nodes of the tree in preorder, one declaration for each node, after
    the [start] node when [show_id] is set; its edges are the links from a
    node to its left and right child, and the edge from [start] to the root
    when [show_id] is set; with n nodes it has 2n - 1 statements, and two
    more when [show_id] is set. *)
Theorem X7_exported_vtree litnamemap show_id v :
  exists s,
    vtree_to_dot_stmts (Some v) litnamemap show_id = Ok s /\
    omap declared s =
      ((if show_id then [NStart] else [])
         ++ ((fun t => NId (vtree_position t)) <$> vnodes v))%list /\
    (forall e, e ∈ omap edge_of s <->
       (show_id = true /\ e = (NStart, NId (vtree_position v))) \/
       exists t c, t ∈ vnodes v /\ c ∈ vtree_children t /\
                   e = (NId (vtree_position t), NId (vtree_position c))) /\
    S (length s) = (2 * length (vnodes v) + if show_id then 2 else 0)%nat.
Proof.
  destruct show_id.
  - eexists. split; [reflexivity|]. split; [|split].
    + simpl. by rewrite vtree_declared.
    + intros e. simpl. rewrite elem_of_cons, vtree_edges. naive_solver.
    + simpl. pose proof (vtree_length litnamemap true v). lia.
  - eexists. split; [reflexivity|]. split; [|split].
    + simpl. by rewrite vtree_declared.
    + intros e. simpl. rewrite vtree_edges. naive_solver.
    + simpl. pose proof (vtree_length litnamemap false v). lia.
Qed.

(** X8: the vtree export does not deduplicate.  It keeps no visited set: the
    declarations of the export are free of duplicates exactly when the
    positions of the nodes of the tree are distinct. *)
Theorem X8_vtree_duplicates litnamemap show_id v s :
  vtree_to_dot_stmts (Some v) litnamemap show_id = Ok s ->
  NoDup (omap declared s) <-> NoDup (vtree_position <$> vnodes v).
Proof.
  intros Hs.
  assert (omap declared s =
            ((if show_id then [NStart] else [])
               ++ ((fun t => NId (vtree_position t)) <$> vnodes v))%list) as Hd.
  { destruct show_id; injection Hs as <-; simpl; by rewrite vtree_declared. }
  rewrite Hd.
  assert (NoDup ((fun t => NId (vtree_position t)) <$> vnodes v) <->
          NoDup (vtree_position <$> vnodes v)) as Hinj.
  { rewrite (list_fmap_compose vtree_position NId). split.
    - apply NoDup_fmap_1.
    - apply NoDup_fmap_2. by intros x y [=]. }
  destruct show_id; simpl; [|done].
  rewrite NoDup_cons, Hinj. split; [by intros [_ ?]|]. intros ND. split; [|done].
  by intros (t & [=] & _)%list_elem_of_fmap.
Qed.

Lemma X8_vtree_duplicates_witness :
  exists s,
    vtree_to_dot_stmts (Some ex_vtree) None true = Ok s /\
    (NoDup (omap declared s) <-> NoDup (vtree_position <$> vnodes ex_vtree)).
Proof.
  eexists. split; [reflexivity|].
  exact (X8_vtree_duplicates None true ex_vtree _ eq_refl).
Defined.

Lemma vnodes_children v t c :
  t ∈ vnodes v -> c ∈ vtree_children t -> c ∈ vnodes v.
Proof.
  revert t c. induction v as [pos var vl vr IHl IHr] using Vtree_nested_ind.
  intros t c Ht Hc. rewrite vnodes_unfold in *. simpl vtree_left in *.
  simpl vtree_right in *. apply elem_of_cons in Ht as [->|Ht].
  - unfold vtree_children in Hc. simpl in Hc. right.
    apply elem_of_app in Hc as [Hc|Hc]; apply elem_of_app.
    + destruct vl as [l|]; [|by apply elem_of_nil in Hc].
      apply list_elem_of_singleton in Hc as ->. left. apply vnodes_self.
    + destruct vr as [r|]; [|by apply elem_of_nil in Hc].
      apply list_elem_of_singleton in Hc as ->. right. apply vnodes_self.
  - right. apply elem_of_app in Ht as [Ht|Ht]; apply elem_of_app.
    + destruct vl as [l|]; [|by apply elem_of_nil in Ht]. left. by eapply IHl.
    + destruct vr as [r|]; [|by apply elem_of_nil in Ht]. right. by eapply IHr.
Qed.

(** X15: the vtree export has no dangling edge.  Both ends of every edge of
    the export of a vtree are declared in it. *)
Theorem X15_vtree_edges_declared litnamemap show_id v s :
  vtree_to_dot_stmts (Some v) litnamemap show_id = Ok s ->
  forall e, e ∈ omap edge_of s -> e.1 ∈ omap declared s /\ e.2 ∈ omap declared s.
Proof.
  intros Hs.
  assert (forall t, t ∈ vnodes v ->
            NId (vtree_position t) ∈ omap declared (_vtree_to_dot_int litnamemap show_id v))
    as Hdecl.
  { intros t Ht. rewrite vtree_declared. apply list_elem_of_fmap. by exists t. }
  assert (forall e, e ∈ omap edge_of (_vtree_to_dot_int litnamemap show_id v) ->
            e.1 ∈ omap declared (_vtree_to_dot_int litnamemap show_id v) /\
            e.2 ∈ omap declared (_vtree_to_dot_int litnamemap show_id v)) as Hint.
  { intros e (t & c & Ht & Hc & ->)%vtree_edges. simpl.
    split; apply Hdecl; [done|by eapply vnodes_children]. }
  destruct show_id; injection Hs as <-; simpl; [|done].
  intros e [->|He]%elem_of_cons; simpl.
  - split; [left|]. right. apply Hdecl, vnodes_self.
  - destruct (Hint e He). split; by right.
Qed.

Lemma X15_vtree_edges_declared_witness :
  exists s,
    vtree_to_dot_stmts (Some ex_vtree) None true = Ok s /\
    forall e, e ∈ omap edge_of s -> e.1 ∈ omap declared s /\ e.2 ∈ omap declared s.
Proof.
  eexists. split; [reflexivity|].
  exact (X15_vtree_edges_declared None true ex_vtree _ eq_refl).
Defined.

(** ** [litnamemap] and the vtree *)

Lemma vtree_label_keys_unfold v :
  vtree_label_keys v =
    (option_list (if vtree_is_leaf v then Some (PInt (vtree_var v)) else None)
       ++ match vtree_left v with Some l => vtree_label_keys l | None => [] end
       ++ match vtree_right v with Some r => vtree_label_keys r | None => [] end)%list.
Proof.
  unfold vtree_label_keys. rewrite vnodes_unfold.
  change (?x :: ?l ++ ?k)%list with ([x] ++ l ++ k)%list. rewrite !omap_app.
  f_equal; try (by destruct (vtree_is_leaf v)).
  all: by destruct v as [pos var [l|] [r|]].
Qed.

Lemma vtree_litnamemap_agree lm1 lm2 show_id v :
  (forall k, k ∈ vtree_label_keys v -> litnamemap_get lm1 k = litnamemap_get lm2 k) ->
  _vtree_to_dot_int lm1 show_id v = _vtree_to_dot_int lm2 show_id v.
Proof.
  induction v as [pos var vl vr IHl IHr] using Vtree_nested_ind. intros Hagree.
  rewrite !_vtree_to_dot_int_unfold. rewrite vtree_label_keys_unfold in Hagree.
  simpl vtree_left in *. simpl vtree_right in *.
  f_equal; [|f_equal].
  - unfold vtree_own_decl. destruct (vtree_is_leaf _) eqn:Hleaf; [|done].
    rewrite Hagree; [done|]. apply elem_of_app. left. simpl. left.
  - destruct vl as [l|]; [|done]. f_equal. apply (IHl l eq_refl).
    intros k Hk. apply Hagree. rewrite !elem_of_app. auto.
  - destruct vr as [r|]; [|done]. f_equal. apply (IHr r eq_refl).
    intros k Hk. apply Hagree. rewrite !elem_of_app. auto.
Qed.

(** X9: the keys the vtree export looks up.  [vtree_to_dot] looks up the
    variables of the leaves and nothing else: two label maps that agree on
    them give the same document, so entries for other integers, and all
    entries with a string key, change nothing. *)
Theorem X9_vtree_label_keys lm1 lm2 show_id v :
  (forall k, k ∈ vtree_label_keys v -> litnamemap_get lm1 k = litnamemap_get lm2 k) ->
  vtree_to_dot (Some v) lm1 show_id = vtree_to_dot (Some v) lm2 show_id.
Proof.
  intros Hagree. unfold vtree_to_dot, vtree_to_dot_stmts.
  by rewrite (vtree_litnamemap_agree lm1 lm2 show_id v Hagree).
Qed.

Lemma X9_vtree_label_keys_witness :
  vtree_to_dot (Some ex_vtree) None true =
    vtree_to_dot (Some ex_vtree)
      (Some {[ PInt 0 := PStr "root"; PStr "1" := PStr "one" ]}) true.
Proof.
  apply X9_vtree_label_keys. intros k Hk. simpl in Hk.
  repeat (apply elem_of_cons in Hk as [->|Hk]); try reflexivity.
  by apply elem_of_nil in Hk.
Defined.

(** ** The text of the identifiers *)

Lemma all_chars_app P s1 s2 :
  all_chars P (s1 +:+ s2) = all_chars P s1 && all_chars P s2.
Proof. induction s1 as [|c s1 IH]; simpl; [done|]. by rewrite IH, andb_assoc. Qed.

Lemma all_chars_impl (P Q : ascii -> bool) s :
  (forall c, P c = true -> Q c = true) -> all_chars P s = true -> all_chars Q s = true.
Proof.
  intros HPQ. induction s as [|c s IH]; simpl; [done|].
  intros [Hc Hs]%andb_true_iff. by rewrite (HPQ c Hc), IH.
Qed.

Lemma pretty_N_go_chars x s :
  all_chars digit_or_dash s = true -> all_chars digit_or_dash (pretty_N_go x s) = true.
Proof.
  revert s. induction (N.lt_wf_0 x) as [x _ IH]; intros s Hs.
  assert (x = 0 \/ 0 < x)%N as [->|Hx] by lia; [by rewrite pretty_N_go_0|].
  rewrite pretty_N_go_step by done. apply IH; [by apply N.div_lt|].
  simpl. rewrite Hs, andb_true_r. unfold pretty_N_char. by repeat case_match.
Qed.

Lemma pretty_N_chars (x : N) : all_chars digit_or_dash (pretty x) = true.
Proof.
  unfold pretty, pretty_N. case_decide; [done|]. by apply pretty_N_go_chars.
Qed.

Lemma pretty_nat_chars (x : nat) : all_chars digit_or_dash (pretty x) = true.
Proof. apply pretty_N_chars. Qed.

Lemma pretty_Z_chars (x : Z) : all_chars digit_or_dash (pretty x) = true.
Proof.
  destruct x as [|p|p]; [done|apply pretty_N_chars|].
  change (pretty (Z.neg p)) with ("-" +:+ pretty (N.pos p)).
  rewrite all_chars_app. by rewrite pretty_N_chars.
Qed.

(** Two texts that are split by the first underscore. *)
Lemma split_at_underscore a a' b b' :
  all_chars digit_or_dash a = true -> all_chars digit_or_dash a' = true ->
  a +:+ "_" +:+ b = a' +:+ "_" +:+ b' -> a = a' /\ b = b'.
Proof.
  revert a'. induction a as [|c a IH]; intros [|c' a'] Ha Ha' Heq; simpl in *.
  - by injection Heq.
  - injection Heq as <- _. by apply andb_true_iff in Ha' as [? _].
  - injection Heq as -> _. by apply andb_true_iff in Ha as [? _].
  - injection Heq as -> Heq.
    apply andb_true_iff in Ha as [_ Ha]. apply andb_true_iff in Ha' as [_ Ha'].
    destruct (IH a' Ha Ha' Heq) as [-> ->]. done.
Qed.

Lemma name_text_inj nm1 nm2 : name_text nm1 = name_text nm2 -> nm1 = nm2.
Proof.
  assert (forall (z : Z) s, pretty z ≠ String "p" s) as Hp.
  { intros z s Heq. pose proof (pretty_Z_chars z) as Hc. rewrite Heq in Hc. done. }
  assert (forall z : Z, pretty z ≠ "start") as Hs.
  { intros z Heq. pose proof (pretty_Z_chars z) as Hc. rewrite Heq in Hc. done. }
  destruct nm1 as [i|i k|], nm2 as [j|j l|]; simpl; unfold ps_id; intros Heq;
    try done; try (by destruct (Hp _ _ Heq)); try (by destruct (Hp _ _ (eq_sym Heq)));
    try (by destruct (Hs _ Heq)); try (by destruct (Hs _ (eq_sym Heq))).
  - by apply (inj pretty) in Heq as ->.
  - simpl in Heq. injection Heq as Heq.
    apply split_at_underscore in Heq as [Hi Hk]; [|apply pretty_Z_chars..].
    apply (inj pretty) in Hi as ->. by apply (inj pretty) in Hk as ->.
Qed.

Lemma name_text_no_space nm :
  all_chars (fun c => negb (bool_decide (c = " "%char))) (name_text nm) = true.
Proof.
  assert (forall s, all_chars digit_or_dash s = true ->
            all_chars (fun c => negb (bool_decide (c = " "%char))) s = true) as Himpl.
  { intros s. apply all_chars_impl. intros c Hc.
    destruct (bool_decide_reflect (c = " "%char)) as [->|]; done. }
  destruct nm as [i|i k|]; simpl; [apply Himpl, pretty_Z_chars| |done].
  unfold ps_id. rewrite !all_chars_app.
  rewrite (Himpl (pretty i)) by apply pretty_Z_chars.
  by rewrite (Himpl (pretty k)) by apply pretty_nat_chars.
Qed.

(** X10: the identifiers in the text.  Every declaration line starts with the
    identifier of the node it declares, followed by a space and an opening
    bracket, and every edge line is the source identifier, [ -> ], the
    target identifier and then a semicolon or an attribute list.  The
    identifiers (the decimal id of a circuit node or position of a vtree
    node, [ps_], id, [_], index of a product node, and [start]) contain no
    space and are different for different nodes. *)
Theorem X10_identifier_texts :
  (forall st nm, declared st = Some nm ->
     exists rest, render st = name_text nm +:+ " [" +:+ rest) /\
  (forall st a b, edge_of st = Some (a, b) ->
     exists rest, render st = name_text a +:+ " -> " +:+ name_text b +:+ rest /\
                  (rest = ";" \/ exists attrs, rest = " [" +:+ attrs)) /\
  (forall nm1 nm2, name_text nm1 = name_text nm2 -> nm1 = nm2) /\
  (forall nm, all_chars (fun c => negb (bool_decide (c = " "%char))) (name_text nm) = true).
Proof.
  split; [|split; [|split; [apply name_text_inj|apply name_text_no_space]]].
  - intros st nm Hd. destruct st; simplify_eq/=; try (by eexists).
    destruct show_id; by eexists.
  - intros st a b He. destruct st; simplify_eq/=.
    + eexists. split; [reflexivity|]. right. by eexists.
    + eexists. split; [reflexivity|]. by left.
    + eexists. split; [reflexivity|]. right. by eexists.
    + eexists. split; [reflexivity|]. right. by eexists.
Qed.

Lemma X10_identifier_texts_witness :
  (exists rest, render (ProductDecl 7 1) = name_text (NPs 7 1) +:+ " [" +:+ rest) /\
  (exists rest, render (ElementEdge 7 1 3) =
                  name_text (NPs 7 1) +:+ " -> " +:+ name_text (NId 3) +:+ rest /\
                (rest = ";" \/ exists attrs, rest = " [" +:+ attrs)) /\
  NPs 7 1 = NPs 7 1.
Proof.
  destruct X10_identifier_texts as (H1 & H2 & H3 & _).
  split; [exact (H1 (ProductDecl 7 1) (NPs 7 1) eq_refl)|].
  split; [exact (H2 (ElementEdge 7 1 3) (NPs 7 1) (NId 3) eq_refl)|].
  exact (H3 (NPs 7 1) (NPs 7 1) eq_refl).
Defined.

(** ** Labels are written as they are *)

Lemma append_assoc (s1 s2 s3 : string) : (s1 +:+ s2) +:+ s3 = s1 +:+ s2 +:+ s3.
Proof.
  induction s1 as [|c s1 IH]; [done|].
  change (String c ((s1 +:+ s2) +:+ s3) = String c (s1 +:+ s2 +:+ s3)).
  by rewrite IH.
Qed.

(** X11: no escaping.  A label is written between the quotes as it is, so a
    double quote inside a label ends the label: the export, without
    [show_id], of a literal whose label has the text of an xlabel attribute
    appended after a quote is the same document as the export, with
    [show_id], of the literal with the plain label. *)
Theorem X11_labels_not_escaped id lit label :
  sdd_to_dot (Some (SddLiteral id None lit))
    (Some {[ PInt lit :=
               PStr (label +:+ dq +:+ ",xlabel=" +:+ dq +:+ "Id:" +:+ pretty id
                       +:+ "\n" +:+ "Vp:n") ]}) false =
  sdd_to_dot (Some (SddLiteral id None lit)) (Some {[ PInt lit := PStr label ]}) true.
Proof.
  unfold sdd_to_dot, sdd_to_dot_stmts. rewrite !visit_leaf by set_solver.
  simpl. unfold _format_sddnode_label, _format_sddnode_xlabel. simpl.
  rewrite !lookup_singleton_eq. simpl. unfold dot_document. simpl.
  do 3 f_equal. unfold join_lines. simpl. f_equal.
  by rewrite !append_assoc.
Qed.

(** * Properties of the file comparison of the tests *)

Lemma universal_newlines_id t : 13%N ∉ t -> universal_newlines t = t.
Proof.
  induction t as [|c t IH]; intros Hcr; [done|].
  apply not_elem_of_cons in Hcr as [Hc Hcr]. simpl.
  destruct (N.eqb_spec c 13) as [->|_]; [done|]. by rewrite IH.
Qed.

Lemma universal_newlines_crlf t : 13%N ∉ t -> universal_newlines (with_crlf t) = t.
Proof.
  induction t as [|c t IH]; intros Hcr; [done|].
  apply not_elem_of_cons in Hcr as [Hc Hcr]. specialize (IH Hcr).
  simpl. destruct (N.eqb_spec c 10) as [->|Hlf]; simpl.
  - by rewrite IH.
  - destruct (N.eqb_spec c 13) as [->|_]; [done|]. by rewrite IH.
Qed.

Lemma universal_newlines_cr t : 13%N ∉ t -> universal_newlines (with_cr t) = t.
Proof.
  unfold with_cr. induction t as [|c t IH]; intros Hcr; [done|].
  apply not_elem_of_cons in Hcr as [Hc Hcr]. specialize (IH Hcr).
  rewrite fmap_cons. destruct (N.eqb_spec c 10) as [->|Hlf].
  - simpl. destruct t as [|c' t]; [done|]. rewrite fmap_cons in *.
    destruct (N.eqb_spec c' 10) as [->|Hlf'].
    + simpl. simpl in IH. by rewrite IH.
    + destruct (N.eqb_spec c' 10) as [->|_]; [done|]. by rewrite IH.
  - simpl. destruct (N.eqb_spec c 13) as [->|_]; [done|]. by rewrite IH.
Qed.

Lemma readlines_line_lf l t :
  10%N ∉ l -> readlines (l ++ 10%N :: t) = (l ++ [10%N])%list :: readlines t.
Proof.
  induction l as [|c l IH]; intros Hlf; [done|].
  apply not_elem_of_cons in Hlf as [Hc Hlf]. simpl.
  destruct (N.eqb_spec c 10) as [->|_]; [done|]. by rewrite IH.
Qed.

Lemma readlines_last_line l :
  10%N ∉ l -> l ≠ [] -> readlines l = [l].
Proof.
  induction l as [|c l IH]; intros Hlf Hne; [done|].
  apply not_elem_of_cons in Hlf as [Hc Hlf]. simpl.
  destruct (N.eqb_spec c 10) as [->|_]; [done|].
  destruct l as [|c' l]; [done|]. by rewrite IH.
Qed.

Lemma readlines_text_of_lines ls t :
  Forall is_line ls ->
  readlines (text_of_lines ls ++ t) = (((fun l => l ++ [10%N])%list <$> ls) ++ readlines t)%list.
Proof.
  unfold text_of_lines. induction 1 as [|l ls [Hlf _] _ IH]; [done|].
  rewrite fmap_cons. simpl. rewrite <- !app_assoc. simpl.
  rewrite readlines_line_lf by done. by rewrite IH.
Qed.

Lemma readlines_complete_lines ls :
  Forall is_line ls -> readlines (text_of_lines ls) = (fun l => l ++ [10%N])%list <$> ls.
Proof.
  intros Hls. rewrite <- (app_nil_r (text_of_lines ls)).
  rewrite readlines_text_of_lines by done. apply app_nil_r.
Qed.

Lemma text_of_lines_no_cr ls : Forall is_line ls -> 13%N ∉ text_of_lines ls.
Proof.
  unfold text_of_lines. induction 1 as [|l ls [_ Hcr] _ IH]; [by intros ?%elem_of_nil|].
  rewrite fmap_cons. simpl. rewrite !elem_of_app, list_elem_of_singleton. naive_solver.
Qed.

Lemma py_strip_lf l : py_strip (l ++ [10%N]) = py_strip l.
Proof.
  unfold py_strip. induction l as [|c l IH]; [done|]. simpl.
  destruct (is_whitespace c); [done|].
  change (c :: l ++ [10%N])%list with ((c :: l) ++ [10%N])%list.
  by rewrite rev_app_distr.
Qed.

Lemma py_strip_lines (ls : list (list N)) :
  py_strip <$> ((fun l => l ++ [10%N])%list <$> ls) = py_strip <$> ls.
Proof.
  rewrite <- list_fmap_compose. apply list_fmap_ext. intros i l _. apply py_strip_lf.
Qed.

(** X12: the comparison is line by line and ignores the white space around
    each line.  For two files whose texts are lines ended by LF, the result
    is whether the two lists of stripped lines are equal: same number of
    lines, and each pair of lines equal after [strip()]. *)
Theorem X12_file_comparison_by_stripped_lines fs path1 path2 ls1 ls2 :
  Forall is_line ls1 -> Forall is_line ls2 ->
  fs path1 = Some (text_of_lines ls1) -> fs path2 = Some (text_of_lines ls2) ->
  file_contents_equal fs path1 path2 =
    Some (bool_decide (py_strip <$> ls1 = py_strip <$> ls2)).
Proof.
  intros H1 H2 Hf1 Hf2. unfold file_contents_equal. rewrite Hf1, Hf2. simpl.
  rewrite !universal_newlines_id by (by apply text_of_lines_no_cr).
  rewrite !readlines_complete_lines by done.
  by rewrite !py_strip_lines.
Qed.

Ltac solve_is_line :=
  split; intros Hin;
  repeat (apply elem_of_cons in Hin as [Hin|Hin]; [discriminate Hin|]);
  by apply elem_of_nil in Hin.

Lemma X12_file_comparison_by_stripped_lines_witness :
  file_contents_equal
    (two_files (text_of_lines [[112; 32; 99; 110; 102]; [49; 32; 48]]%N)
               (text_of_lines [[32; 112; 32; 99; 110; 102; 9]; [49; 32; 48; 32]]%N))
    "a" "b" = Some true.
Proof.
  rewrite (X12_file_comparison_by_stripped_lines _ "a" "b"
             [[112; 32; 99; 110; 102]; [49; 32; 48]]%N
             [[32; 112; 32; 99; 110; 102; 9]; [49; 32; 48; 32]]%N);
    [reflexivity| | |reflexivity|reflexivity];
    repeat (constructor; [solve_is_line|]); constructor.
Defined.

(** X13: line ends.  A text without CR compares equal to the same text with
    every LF written as CR LF, and to the same text with every LF written
    as CR. *)
Theorem X13_line_end_conventions fs path1 path2 t :
  13%N ∉ t -> fs path1 = Some t ->
  (fs path2 = Some (with_crlf t) -> file_contents_equal fs path1 path2 = Some true) /\
  (fs path2 = Some (with_cr t) -> file_contents_equal fs path1 path2 = Some true).
Proof.
  intros Hcr Hf1. unfold file_contents_equal. rewrite Hf1. simpl.
  split; intros ->; simpl.
  - rewrite universal_newlines_crlf, universal_newlines_id by done.
    by rewrite bool_decide_eq_true_2.
  - rewrite universal_newlines_cr, universal_newlines_id by done.
    by rewrite bool_decide_eq_true_2.
Qed.

Lemma X13_line_end_conventions_witness :
  file_contents_equal (two_files [97; 10; 98; 10]%N (with_crlf [97; 10; 98; 10]%N)) "a" "b"
    = Some true.
Proof.
  assert (13%N ∉ [97; 10; 98; 10]%N) as Hcr.
  { intros Hin. repeat (apply elem_of_cons in Hin as [Hin|Hin]; [discriminate Hin|]).
    by apply elem_of_nil in Hin. }
  exact (proj1 (X13_line_end_conventions
                  (two_files [97; 10; 98; 10]%N (with_crlf [97; 10; 98; 10]%N))
                  "a" "b" [97; 10; 98; 10]%N Hcr eq_refl) eq_refl).
Defined.

(** X14: the end of the file.  A last line that is not empty compares equal
    with and without its final LF; an additional LF at the end of a text of
    complete lines is an additional empty line and makes the files differ. *)
Theorem X14_final_newline fs path1 path2 ls l :
  Forall is_line ls -> is_line l ->
  (l ≠ [] ->
   fs path1 = Some (text_of_lines ls ++ l)%list ->
   fs path2 = Some (text_of_lines ls ++ l ++ [10%N])%list ->
   file_contents_equal fs path1 path2 = Some true) /\
  (fs path1 = Some (text_of_lines ls) ->
   fs path2 = Some (text_of_lines ls ++ [10%N])%list ->
   file_contents_equal fs path1 path2 = Some false).
Proof.
  intros Hls [Hlf Hcr].
  assert (13%N ∉ text_of_lines ls) as Hcr' by (by apply text_of_lines_no_cr).
  split.
  - intros Hne Hf1 Hf2. unfold file_contents_equal. rewrite Hf1, Hf2. simpl.
    rewrite !universal_newlines_id
      by (rewrite ?elem_of_app, ?list_elem_of_singleton; naive_solver).
    rewrite !readlines_text_of_lines by done.
    rewrite readlines_last_line by done.
    rewrite (readlines_line_lf l []) by done. simpl.
    rewrite !fmap_app. simpl. rewrite py_strip_lf. by rewrite bool_decide_eq_true_2.
  - intros Hf1 Hf2. unfold file_contents_equal. rewrite Hf1, Hf2. simpl.
    rewrite !universal_newlines_id
      by (rewrite ?elem_of_app, ?list_elem_of_singleton; naive_solver).
    rewrite readlines_text_of_lines, readlines_complete_lines by done. simpl.
    rewrite bool_decide_eq_false_2; [done|].
    intros Heq. apply (f_equal length) in Heq.
    rewrite !length_fmap, length_app, length_fmap in Heq. simpl in Heq. lia.
Qed.

Lemma X14_final_newline_witness :
  file_contents_equal (two_files [97; 10; 98]%N [97; 10; 98; 10]%N) "a" "b" = Some true /\
  file_contents_equal (two_files [97; 10]%N [97; 10; 10]%N) "a" "b" = Some false.
Proof.
  assert (is_line [97%N]) as Ha by solve_is_line.
  assert (is_line [98%N]) as Hb by solve_is_line.
  split.
  - apply (proj1 (X14_final_newline _ "a" "b" [[97%N]] [98%N]
                    ltac:(by constructor) Hb)); [done|reflexivity|reflexivity].
  - apply (proj2 (X14_final_newline _ "a" "b" [[97%N]] [98%N]
                    ltac:(by constructor) Hb)); reflexivity.
Defined.
